(** * Devon: the plist readers and the e-mail header parser

    A shallow embedding of
      - [src/shared/plist/parser.ts]   (depth-aware <dict> extraction, typed
                                        field extractors),
      - [src/shared/plist/reader.ts]   (PlistBuddy output parsing, the Python
                                        listing and copy scripts),
      - [src/tools/custom/list-smart-groups.ts], the smart-rule lister,
      - [src/tools/custom/column-layout.ts],
      - [src/tools/custom/parse-eml-headers.ts],
    followed by the properties proved about them.

    JavaScript strings are sequences of UTF-16 code units: [list N].  Indices
    are [Z], with [-1] for "not found", as [String.prototype.indexOf] returns
    them.  Buffers are lists of bytes, also [list N]. *)

From Stdlib Require Import ZArith NArith List Lia String Ascii Bool.
From Stdlib Require Import Sorting.Sorted Sorting.Permutation.
From Stdlib Require Import DecimalString.
From stdpp Require Import base option list gmap.

Local Open Scope Z_scope.

(* ===================================================================== *)
(** * JavaScript strings *)
(* ===================================================================== *)

Module Js.

(** A literal: the code units of an ASCII string. *)
Definition js (s : string) : list N :=
  map N_of_ascii (list_ascii_of_string s).

(** [s.length] *)
Definition len {A} (s : list A) : Z := Z.of_nat (length s).

(** [s.startsWith(p)] at position 0; also the test "the literal [p] matches
    here" of a regular expression. *)
Fixpoint startsWith (p s : list N) : bool :=
  match p, s with
  | [], _ => true
  | _ :: _, [] => false
  | a :: p', b :: s' => (a =? b)%N && startsWith p' s'
  end.

(** First index [k + i] such that [needle] occurs at offset [i] of [s]. *)
Fixpoint findFrom (needle s : list N) (k : Z) : Z :=
  if startsWith needle s then k
  else match s with
       | [] => -1
       | _ :: s' => findFrom needle s' (k + 1)
       end.

(** [s.indexOf(needle, from)]: [from] is clamped to [0 .. s.length]. *)
Definition indexOf (s needle : list N) (from : Z) : Z :=
  let p := Z.max 0 (Z.min from (len s)) in
  findFrom needle (drop (Z.to_nat p) s) p.

(** [s.includes(needle)] *)
Definition includes (s needle : list N) : bool :=
  negb (indexOf s needle 0 =? -1).

(** [s.slice(from, to)]; a negative index counts from the end. *)
Definition sliceIndex {A} (s : list A) (i : Z) : Z :=
  if i <? 0 then Z.max (len s + i) 0 else Z.min i (len s).

Definition slice {A} (s : list A) (from to : Z) : list A :=
  let a := sliceIndex s from in
  let b := sliceIndex s to in
  take (Z.to_nat (b - a)) (drop (Z.to_nat a) s).

(** [s.slice(from)] *)
Definition sliceFrom {A} (s : list A) (from : Z) : list A :=
  drop (Z.to_nat (sliceIndex s from)) s.

(** White space and line terminators: what [\s] matches and what [trim]
    strips (ECMAScript WhiteSpace and LineTerminator). *)
Definition isSpace (c : N) : bool :=
  ((9 <=? c) && (c <=? 13) || (c =? 32) || (c =? 160) || (c =? 5760)
   || (8192 <=? c) && (c <=? 8202) || (c =? 8232) || (c =? 8233)
   || (c =? 8239) || (c =? 8287) || (c =? 12288) || (c =? 65279))%N.

Fixpoint trimStart (s : list N) : list N :=
  match s with
  | c :: s' => if isSpace c then trimStart s' else s
  | [] => []
  end.

Definition trimEnd (s : list N) : list N := rev (trimStart (rev s)).

(** [s.trim()] *)
Definition trim (s : list N) : list N := trimEnd (trimStart s).

(** The longest prefix of [s] whose code units satisfy [p], and the rest:
    a greedy character class [[...]*]. *)
Fixpoint span (p : N -> bool) (s : list N) : list N * list N :=
  match s with
  | c :: s' => if p c then let '(a, b) := span p s' in (c :: a, b) else ([], s)
  | [] => ([], [])
  end.

(** [s.split(sep)] for a separator of one code unit. *)
Fixpoint splitOn (sep : N) (s : list N) : list (list N) :=
  match s with
  | [] => [[]]
  | c :: s' =>
      if (c =? sep)%N then [] :: splitOn sep s'
      else match splitOn sep s' with
           | l :: ls => (c :: l) :: ls
           | [] => [[c]]
           end
  end.

(** [parts.join(sep)] *)
Fixpoint join (sep : list N) (parts : list (list N)) : list N :=
  match parts with
  | [] => []
  | [p] => p
  | p :: ps => p ++ sep ++ join sep ps
  end.

(** [s.replace(/a/g, b)] for a literal, non-empty [a].  The scan goes
    through [s] once; [skip] counts the code units still covered by the
    match just replaced. *)
Fixpoint replaceLitFrom (a b : list N) (skip : nat) (s : list N) : list N :=
  match s with
  | [] => []
  | c :: s' =>
      match skip with
      | S k => replaceLitFrom a b k s'
      | O =>
          if startsWith a s then b ++ replaceLitFrom a b (length a - 1) s'
          else c :: replaceLitFrom a b O s'
      end
  end.

Definition replaceLit (a b s : list N) : list N := replaceLitFrom a b O s.

(** The ASCII part of [String.prototype.toLowerCase] / [toUpperCase]; the
    two agree with the built-ins on strings of ASCII code units. *)
Definition asciiLowerChar (c : N) : N :=
  if ((65 <=? c) && (c <=? 90))%N then (c + 32)%N else c.
Definition asciiUpperChar (c : N) : N :=
  if ((97 <=? c) && (c <=? 122))%N then (c - 32)%N else c.
Definition asciiToLowerCase (s : list N) : list N := map asciiLowerChar s.
Definition asciiToUpperCase (s : list N) : list N := map asciiUpperChar s.

(** [Array.prototype.sort(cmp)] is stable; for a consistent comparator its
    result is the stable sorted arrangement, here computed by insertion. *)
Section Sort.
Context {A : Type} (cmp : A -> A -> Z).

Fixpoint insertBy (x : A) (l : list A) : list A :=
  match l with
  | [] => [x]
  | y :: l' => if cmp x y <=? 0 then x :: l else y :: insertBy x l'
  end.

Fixpoint sortBy (l : list A) : list A :=
  match l with
  | [] => []
  | x :: l' => insertBy x (sortBy l')
  end.
End Sort.

Definition nonEmpty {A} (s : list A) : bool :=
  match s with
  | [] => false
  | _ :: _ => true
  end.

(** JavaScript truthiness of a [string | null]: [null] and the empty string
    are falsy. *)
Definition truthy (s : option (list N)) : bool :=
  match s with
  | Some (_ :: _) => true
  | _ => false
  end.

End Js.

Import Js.

(* ===================================================================== *)
(** * shared/plist/parser.ts *)
(* ===================================================================== *)

Module PlistParser.

Definition OPEN : list N := Eval cbv in js "<dict>".
Definition CLOSE : list N := Eval cbv in js "</dict>".

(** How the depth-tracking loop ends: at the [</dict>] that brings the
    depth back to zero, or without one. *)
Inductive scan_result :=
  | Closed (nextClose : Z)
  | Unclosed (depth : Z).

(** The inner [while (cur < xml.length && depth > 0)] loop of
    [extractTopLevelDicts]; [extractSubDictAfterKey] runs the same loop.
    [None] only when [fuel] runs out. *)
Fixpoint depthScan (fuel : nat) (xml : list N) (depth cur : Z)
  : option scan_result :=
  match fuel with
  | O => None
  | S fuel =>
      if (cur <? len xml) && (0 <? depth) then
        let nextOpen := indexOf xml OPEN cur in
        let nextClose := indexOf xml CLOSE cur in
        if nextClose =? -1 then Some (Unclosed depth)
        else if negb (nextOpen =? -1) && (nextOpen <? nextClose) then
          depthScan fuel xml (depth + 1) (nextOpen + 6)
        else
          let depth := depth - 1 in
          if depth =? 0 then Some (Closed nextClose)
          else depthScan fuel xml depth (nextClose + 7)
      else Some (Unclosed depth)
  end.

(** The outer [while (pos < xml.length)] loop. *)
Fixpoint scanTop (fuel : nat) (xml : list N) (pos : Z)
    (results : list (list N)) : option (list (list N)) :=
  match fuel with
  | O => None
  | S fuel =>
      if pos <? len xml then
        let openIdx := indexOf xml OPEN pos in
        if openIdx =? -1 then Some results
        else
          match depthScan (S (length xml)) xml 1 (openIdx + 6) with
          | None => None
          | Some (Closed nextClose) =>
              scanTop fuel xml (nextClose + 7)
                (results ++ [slice xml (openIdx + 6) nextClose])
          | Some (Unclosed _) => Some results
          end
      else Some results
  end.

(** Both loops advance by at least six code units a round, so
    [xml.length + 1] rounds are enough (lemma [extractTopLevelDicts_total]
    below): the default is never taken. *)
Definition extractTopLevelDicts_fuel (xml : list N) : option (list (list N)) :=
  scanTop (S (length xml)) xml 0 [].

Definition extractTopLevelDicts (xml : list N) : list (list N) :=
  default [] (extractTopLevelDicts_fuel xml).

(** ** Typed field extractors

    Each extractor builds the pattern <key>K</key>, white space, <tag>, a
    group of code units other than <, </tag>, with [K] passed through
    [escapeRegex], so that [K] matches literally.
    The quantifiers are greedy and each is followed by a [<], which the
    class before it excludes, so there is one way to match at an offset. *)

(** [pattern.exec(content)]: the first offset at which [here] matches, with
    what it yields there. *)
Fixpoint execFrom {A} (here : list N -> option A) (s : list N) (k : Z)
  : option (Z * A) :=
  match here s with
  | Some r => Some (k, r)
  | None =>
      match s with
      | [] => None
      | _ :: s' => execFrom here s' (k + 1)
      end
  end.

Definition stripPrefix (p s : list N) : option (list N) :=
  if startsWith p s then Some (drop (length p) s) else None.

Definition keyTag (keyName : list N) : list N :=
  js "<key>" ++ keyName ++ js "</key>".

(** The pattern of a typed value at the start of [s]: its group 1. *)
Definition typedValueHere (keyName tagOpen tagClose s : list N)
  : option (list N) :=
  r1 ← stripPrefix (keyTag keyName) s;
  r2 ← stripPrefix tagOpen (trimStart r1);
  let '(group1, r3) := span (fun c => negb (c =? 60)%N) r2 in
  if startsWith tagClose r3 then Some group1 else None.

(** <key>K</key>, white space, <true/> or <false/> at the start of [s]:
    whether group 1 is "true". *)
Definition boolHere (keyName s : list N) : option bool :=
  r1 ← stripPrefix (keyTag keyName) s;
  let r2 := trimStart r1 in
  if startsWith (js "<true/>") r2 then Some true
  else if startsWith (js "<false/>") r2 then Some false
  else None.

(** <key>K</key>, white space, <dict> at the start of [s]: the length of
    the match. *)
Definition subDictHere (keyName s : list N) : option Z :=
  r1 ← stripPrefix (keyTag keyName) s;
  let r2 := trimStart r1 in
  if startsWith OPEN r2 then Some (len s - len r2 + 6) else None.

Definition extractStringAfterKey (content keyName : list N)
  : option (list N) :=
  match execFrom (typedValueHere keyName (js "<string>") (js "</string>"))
          content 0 with
  | Some (_, m1) => Some (trim m1)
  | None => None
  end.

Definition extractDateAfterKey (content keyName : list N)
  : option (list N) :=
  match execFrom (typedValueHere keyName (js "<date>") (js "</date>"))
          content 0 with
  | Some (_, m1) => Some (trim m1)
  | None => None
  end.

Definition extractBoolAfterKey (content keyName : list N) : option bool :=
  match execFrom (boolHere keyName) content 0 with
  | Some (_, b) => Some b
  | None => None
  end.

Section Numbers.
(** JavaScript numbers stay abstract: [parseInt(s, 10)] and
    [parseFloat(s)] are the runtime's. *)
Context {Num : Type} (parseInt10 parseFloat : list N -> Num).

Definition extractIntegerAfterKey (content keyName : list N) : option Num :=
  match execFrom (typedValueHere keyName (js "<integer>") (js "</integer>"))
          content 0 with
  | Some (_, m1) => Some (parseInt10 (trim m1))
  | None => None
  end.

Definition extractRealAfterKey (content keyName : list N) : option Num :=
  match execFrom (typedValueHere keyName (js "<real>") (js "</real>"))
          content 0 with
  | Some (_, m1) => Some (parseFloat (trim m1))
  | None => None
  end.
End Numbers.

(** The loop of [extractSubDictAfterKey] is [depthScan]; it cannot use up
    [content.length + 1] rounds (lemma [extractSubDictAfterKey_fuel]
    below). *)
Definition extractSubDictAfterKey (content keyName : list N)
  : option (list N) :=
  match execFrom (subDictHere keyName) content 0 with
  | None => None
  | Some (index, matchLength) =>
      let startPos := index + matchLength in
      match depthScan (S (length content)) content 1 startPos with
      | Some (Closed closeIdx) => Some (slice content startPos closeIdx)
      | Some (Unclosed _) => None
      | None => None
      end
  end.

End PlistParser.
Import PlistParser.


(* ===================================================================== *)
(** * tools/custom/list-smart-groups.ts *)
(* ===================================================================== *)

Module SmartGroups.

Record SmartGroupEntry := {
  name : list N;
  uuid : list N;
  syncDate : option (list N);
  useUuidKey : option bool
}.

Inductive SmartGroupsResult :=
  | Failure (error : list N)
  | Success (smartGroups : list SmartGroupEntry) (totalCount : Z).

Definition success (r : SmartGroupsResult) : bool :=
  match r with
  | Success _ _ => true
  | Failure _ => false
  end.

(** One round of the [for (const dictContent of topLevelDicts)] loop:
    [None] is [continue], [Some e] is [results.push(e)]. *)
Definition smartGroupOfDict (dictContent : list N) : option SmartGroupEntry :=
  let name := extractStringAfterKey dictContent (js "name") in
  let useUuidKey := extractBoolAfterKey dictContent (js "UseUUIDKey") in
  let syncContent := extractSubDictAfterKey dictContent (js "sync") in
  let uuid :=
    if truthy syncContent
    then extractStringAfterKey (default [] syncContent) (js "UUID")
    else None in
  let syncDate :=
    if truthy syncContent
    then extractDateAfterKey (default [] syncContent) (js "date")
    else None in
  if negb (truthy name) && negb (truthy uuid) then None
  else Some {| name := default (js "(unnamed)") name;
               uuid := default [] uuid;
               syncDate := syncDate;
               useUuidKey := useUuidKey |}.

Definition parsePlistXmlToSmartGroups (xml : list N) : list SmartGroupEntry :=
  foldl (fun results dictContent =>
           match smartGroupOfDict dictContent with
           | None => results
           | Some entry => results ++ [entry]
           end)
        [] (extractTopLevelDicts xml).

Section Tool.
(** The file system and [plutil] as this call finds them. *)
Context (PLIST_PATH : list N)
        (localeCompare : list N -> list N -> Z).

Record world := {
  existsSync : bool;
  (** [execSync("plutil -convert xml1 -o - ...")]: the error message it
      throws with, or its output. *)
  plutil : list N + list N
}.

Definition listSmartGroups (w : world) : SmartGroupsResult :=
  if negb (existsSync w) then
    Failure (js "SmartGroups.plist not found at: " ++ PLIST_PATH ++
             js ". Ensure DEVONthink has been run at least once.")
  else
    match plutil w with
    | inl message =>
        Failure (js "Failed to parse SmartGroups.plist: " ++ message)
    | inr xml =>
        let smartGroups := parsePlistXmlToSmartGroups xml in
        let smartGroups :=
          sortBy (fun a b => localeCompare (name a) (name b)) smartGroups in
        Success smartGroups (len smartGroups)
    end.
End Tool.

End SmartGroups.

(* ===================================================================== *)
(** * The smart-rule lister (list-smart-rules.ts) *)
(* ===================================================================== *)

Module SmartRules.

Section Rules.
Context {Num : Type} (parseInt10 parseFloat : list N -> Num).

Record SmartRuleEntry := {
  name : list N;
  uuid : list N;
  enabled : option bool;
  indexOffset : option Num;
  lastExecution : option Num;
  syncDate : option (list N);
  useUuidKey : option bool
}.

Inductive SmartRulesResult :=
  | Failure (error : list N)
  | Success (smartRules : list SmartRuleEntry) (totalCount : Z).

Definition success (r : SmartRulesResult) : bool :=
  match r with
  | Success _ _ => true
  | Failure _ => false
  end.

Definition smartRuleOfDict (dictContent : list N) : option SmartRuleEntry :=
  let name := extractStringAfterKey dictContent (js "name") in
  let enabled := extractBoolAfterKey dictContent (js "Enabled") in
  let indexOffset :=
    extractIntegerAfterKey parseInt10 dictContent (js "IndexOffset") in
  let lastExecution :=
    extractRealAfterKey parseFloat dictContent (js "LastExecution") in
  let useUuidKey := extractBoolAfterKey dictContent (js "UseUUIDKey") in
  let syncContent := extractSubDictAfterKey dictContent (js "sync") in
  let uuid :=
    if truthy syncContent
    then extractStringAfterKey (default [] syncContent) (js "UUID")
    else None in
  let syncDate :=
    if truthy syncContent
    then extractDateAfterKey (default [] syncContent) (js "date")
    else None in
  if negb (truthy name) && negb (truthy uuid) then None
  else Some {| name := default (js "(unnamed)") name;
               uuid := default [] uuid;
               enabled := enabled;
               indexOffset := indexOffset;
               lastExecution := lastExecution;
               syncDate := syncDate;
               useUuidKey := useUuidKey |}.

Definition parsePlistXmlToSmartRules (xml : list N) : list SmartRuleEntry :=
  foldl (fun results dictContent =>
           match smartRuleOfDict dictContent with
           | None => results
           | Some entry => results ++ [entry]
           end)
        [] (extractTopLevelDicts xml).

Context (PLIST_PATH : list N)
        (localeCompare : list N -> list N -> Z).

Record world := {
  existsSync : bool;
  plutil : list N + list N
}.

Definition listSmartRules (w : world) : SmartRulesResult :=
  if negb (existsSync w) then
    Failure (js "SmartRules.plist not found at: " ++ PLIST_PATH ++
             js ". Ensure DEVONthink has been run at least once and smart rules have been created.")
  else
    match plutil w with
    | inl message =>
        Failure (js "Failed to parse SmartRules.plist: " ++ message)
    | inr xml =>
        let smartRules := parsePlistXmlToSmartRules xml in
        let smartRules :=
          sortBy (fun a b => localeCompare (name a) (name b)) smartRules in
        Success smartRules (len smartRules)
    end.
End Rules.

End SmartRules.

(* ===================================================================== *)
(** * The runtime: Buffer and string built-ins *)
(* ===================================================================== *)

(** What the e-mail parser asks of the runtime. *)
Record Runtime := {
  (** [String.prototype.toLowerCase] and [toUpperCase] *)
  toLowerCase : list N -> list N;
  toUpperCase : list N -> list N;
  (** [Buffer.from(text, "base64")] *)
  bufferFromBase64 : list N -> list N;
  (** [buf.toString(encoding)]; [None] when it throws (unknown encoding) *)
  bufferToString : list N -> list N -> option (list N)
}.

(** A model of Node's Buffer, after the Node.js documentation. *)
Module Node.

(** The value of a base64 digit, standard or URL-safe alphabet. *)
Definition unbase64 (c : N) : option N :=
  (if (65 <=? c) && (c <=? 90) then Some (c - 65)
   else if (97 <=? c) && (c <=? 122) then Some (c - 71)
   else if (48 <=? c) && (c <=? 57) then Some (c + 4)
   else if (c =? 43) || (c =? 45) then Some 62
   else if (c =? 47) || (c =? 95) then Some 63
   else None)%N.

(** The digits of a base64 text.  The decoder reads the low byte of each
    code unit: bytes outside the alphabet are skipped, and the first [=]
    ends the data. *)
Fixpoint base64Digits (s : list N) : list N :=
  match s with
  | [] => []
  | c :: s' =>
      let b := N.land c 255 in
      if (b =? 61)%N then []
      else match unbase64 b with
           | Some v => v :: base64Digits s'
           | None => base64Digits s'
           end
  end.

Fixpoint base64Bytes (digits : list N) : list N :=
  match digits with
  | a :: b :: c :: d :: rest =>
      (N.lor (N.shiftl a 2) (N.shiftr b 4))
      :: (N.lor (N.shiftl (N.land b 15) 4) (N.shiftr c 2))
      :: (N.lor (N.shiftl (N.land c 3) 6) d)
      :: base64Bytes rest
  | [a; b; c] =>
      [N.lor (N.shiftl a 2) (N.shiftr b 4);
       N.lor (N.shiftl (N.land b 15) 4) (N.shiftr c 2)]
  | [a; b] => [N.lor (N.shiftl a 2) (N.shiftr b 4)]
  | _ => []
  end.

Definition fromBase64 (text : list N) : list N :=
  base64Bytes (base64Digits text).

(** A code point as UTF-16 code units. *)
Definition utf16 (cp : N) : list N :=
  (if cp <? 65536 then [cp]
   else [55296 + N.shiftr (cp - 65536) 10; 56320 + N.land (cp - 65536) 1023])%N.

(** The UTF-8 decoder's state between bytes: how many continuation bytes
    are still needed, the range allowed for the next one, and the code
    point so far. *)
Record utf8State := {
  needed : nat;
  lower : N;
  upper : N;
  codePoint : N
}.

Definition utf8Idle : utf8State :=
  {| needed := 0; lower := 128; upper := 191; codePoint := 0 |}.

(** A byte met outside a sequence. *)
Definition utf8Lead (b : N) : list N * utf8State :=
  (if b <=? 127 then ([b], utf8Idle)
   else if (194 <=? b) && (b <=? 223) then
     ([], {| needed := 1; lower := 128; upper := 191;
             codePoint := N.land b 31 |})
   else if (224 <=? b) && (b <=? 239) then
     ([], {| needed := 2;
             lower := if b =? 224 then 160 else 128;
             upper := if b =? 237 then 159 else 191;
             codePoint := N.land b 15 |})
   else if (240 <=? b) && (b <=? 244) then
     ([], {| needed := 3;
             lower := if b =? 240 then 144 else 128;
             upper := if b =? 244 then 143 else 191;
             codePoint := N.land b 7 |})
   else ([65533], utf8Idle))%N.

Definition utf8Step (st : utf8State) (b : N) : list N * utf8State :=
  match needed st with
  | O => utf8Lead b
  | S n =>
      if ((lower st <=? b) && (b <=? upper st))%N then
        let cp := N.lor (N.shiftl (codePoint st) 6) (N.land b 63) in
        match n with
        | O => (utf16 cp, utf8Idle)
        | S _ => ([], {| needed := n; lower := 128; upper := 191;
                         codePoint := cp |})
        end
      else
        let '(out, st') := utf8Lead b in (65533%N :: out, st')
  end.

Fixpoint utf8DecodeFrom (st : utf8State) (bytes : list N) : list N :=
  match bytes with
  | [] => match needed st with O => [] | S _ => [65533%N] end
  | b :: rest =>
      let '(out, st') := utf8Step st b in out ++ utf8DecodeFrom st' rest
  end.

(** [buf.toString("utf-8")]: ill-formed input decodes to U+FFFD. *)
Definition utf8Decode (bytes : list N) : list N :=
  utf8DecodeFrom utf8Idle bytes.

Fixpoint utf16leDecode (bytes : list N) : list N :=
  match bytes with
  | lo :: hi :: rest => (lo + 256 * hi)%N :: utf16leDecode rest
  | _ => []
  end.

Definition hexDigit (v : N) : N :=
  (if v <? 10 then 48 + v else 87 + v)%N.

Definition hexEncode (bytes : list N) : list N :=
  flat_map (fun b => [hexDigit (N.shiftr b 4); hexDigit (N.land b 15)]) bytes.

Definition base64Char (url : bool) (v : N) : N :=
  (if v <? 26 then 65 + v
   else if v <? 52 then 71 + v
   else if v <? 62 then v - 4
   else if v =? 62 then (if url then 45 else 43)
   else (if url then 95 else 47))%N.

Fixpoint base64Encode (url : bool) (bytes : list N) : list N :=
  let ch := base64Char url in
  let pad := if url then [] else [61%N] in
  match bytes with
  | a :: b :: c :: rest =>
      ch (N.shiftr a 2)
      :: ch (N.lor (N.shiftl (N.land a 3) 4) (N.shiftr b 4))
      :: ch (N.lor (N.shiftl (N.land b 15) 2) (N.shiftr c 6))
      :: ch (N.land c 63)
      :: base64Encode url rest
  | [a; b] =>
      [ch (N.shiftr a 2);
       ch (N.lor (N.shiftl (N.land a 3) 4) (N.shiftr b 4));
       ch (N.shiftl (N.land b 15) 2)] ++ pad
  | [a] =>
      [ch (N.shiftr a 2); ch (N.shiftl (N.land a 3) 4)] ++ pad ++ pad
  | [] => []
  end.

Definition isEncoding (enc : list N) (names : list string) : bool :=
  existsb (fun n => bool_decide (enc = js n)) names.

(** [buf.toString(encoding)] for an encoding name in lower case.  An
    empty buffer gives the empty string before the encoding is looked
    up. *)
Definition toString (encoding bytes : list N) : option (list N) :=
  if bool_decide (bytes = []) then Some []
  else if isEncoding encoding ["utf8"; "utf-8"]%string
       then Some (utf8Decode bytes)
  else if isEncoding encoding ["latin1"; "binary"]%string then Some bytes
  else if isEncoding encoding ["ascii"]%string
       then Some (map (fun b => N.land b 127) bytes)
  else if isEncoding encoding ["ucs2"; "ucs-2"; "utf16le"; "utf-16le"]%string
       then Some (utf16leDecode bytes)
  else if isEncoding encoding ["hex"]%string then Some (hexEncode bytes)
  else if isEncoding encoding ["base64"]%string
       then Some (base64Encode false bytes)
  else if isEncoding encoding ["base64url"]%string
       then Some (base64Encode true bytes)
  else None.

(** The runtime on ASCII text: case mapping is the built-ins' on ASCII code
    units and leaves the others as they are. *)
Definition runtime : Runtime :=
  {| toLowerCase := asciiToLowerCase;
     toUpperCase := asciiToUpperCase;
     bufferFromBase64 := fromBase64;
     bufferToString := toString |}.

End Node.

(* ===================================================================== *)
(** * tools/custom/parse-eml-headers.ts *)
(* ===================================================================== *)

Module Eml.

Inductive EmlHeadersResult :=
  | Failure (filePath : option (list N)) (error : list N)
  | Success (filePath : list N)
            (messageId inReplyTo : option (list N))
            (references : list (list N))
            (subject from to cc date : option (list N)).

Definition success (r : EmlHeadersResult) : bool :=
  match r with
  | Success _ _ _ _ _ _ _ _ _ => true
  | Failure _ _ => false
  end.

Definition subjectOf (r : EmlHeadersResult) : option (list N) :=
  match r with
  | Success _ _ _ _ subject _ _ _ _ => subject
  | Failure _ _ => None
  end.

Definition fromOf (r : EmlHeadersResult) : option (list N) :=
  match r with
  | Success _ _ _ _ _ from _ _ _ => from
  | Failure _ _ => None
  end.

Definition messageIdOf (r : EmlHeadersResult) : option (list N) :=
  match r with
  | Success _ messageId _ _ _ _ _ _ _ => messageId
  | Failure _ _ => None
  end.

Definition isHexDigit (c : N) : bool :=
  ((48 <=? c) && (c <=? 57) || (65 <=? c) && (c <=? 70)
   || (97 <=? c) && (c <=? 102))%N.

(** [parseInt(h, 16)] for one hexadecimal digit. *)
Definition hexValue (c : N) : N :=
  (if c <=? 57 then c - 48 else if c <=? 70 then c - 55 else c - 87)%N.

(** [.replace(/=([0-9A-Fa-f]{2})/g, (_m, h) =>
       String.fromCharCode(parseInt(h, 16)))] *)
Fixpoint replaceHexEscapes (skip : nat) (s : list N) : list N :=
  match s with
  | [] => []
  | c :: s' =>
      match skip with
      | S k => replaceHexEscapes k s'
      | O =>
          match s' with
          | h1 :: h2 :: _ =>
              if (c =? 61)%N && isHexDigit h1 && isHexDigit h2
              then (16 * hexValue h1 + hexValue h2)%N :: replaceHexEscapes 2 s'
              else c :: replaceHexEscapes O s'
          | _ => c :: replaceHexEscapes O s'
          end
      end
  end.

(** The pattern of an encoded word, [=?charset?encoding?text?=], at the
    start of [s]: the three groups and the length of the match.  [charset]
    is one or more and [text] zero or more code units other than [?], each
    run followed by a [?], so the greedy match is the only one. *)
Definition isWordEncoding (c : N) : bool :=
  ((c =? 66) || (c =? 98) || (c =? 81) || (c =? 113))%N.

Definition notQuestion (c : N) : bool := negb (c =? 63)%N.

Definition encodedWordHere (s : list N)
  : option (list N * N * list N * nat) :=
  r1 ← stripPrefix (js "=?") s;
  let '(charset, r2) := span notQuestion r1 in
  if nonEmpty charset then
    r3 ← stripPrefix (js "?") r2;
    match r3 with
    | encoding :: r4 =>
        if isWordEncoding encoding then
          r5 ← stripPrefix (js "?") r4;
          let '(text, r6) := span notQuestion r5 in
          if startsWith (js "?=") r6
          then Some (charset, encoding, text,
                     (length charset + length text + 7)%nat)
          else None
        else None
    | [] => None
    end
  else None.

Section Parser.
Context (rt : Runtime).

(** The body of the replacement callback, inside its [try]: the decoded
    text, or [None] when [bytes.toString(csNorm)] throws. *)
Definition decodeWord (charset : list N) (encoding : N) (text : list N)
  : option (list N) :=
  let enc := toUpperCase rt [encoding] in
  let bytes :=
    if bool_decide (enc = js "B") then bufferFromBase64 rt text
    else
      let decoded :=
        replaceHexEscapes O
          (map (fun c => if (c =? 95)%N then 32%N else c) text) in
      (* Buffer.from(decoded, "binary") keeps the low byte *)
      map (fun c => N.land c 255) decoded in
  let csLower := toLowerCase rt charset in
  let csNorm :=
    if bool_decide (csLower = js "us-ascii") then js "ascii"
    else if bool_decide (csLower = js "iso-8859-1")
            || bool_decide (csLower = js "iso-8859-15") then js "latin1"
    else match csLower with
         | [] => js "utf-8"
         | _ :: _ => csLower
         end in
  bufferToString rt csNorm bytes.

(** What the callback returns for the match [_match]. *)
Definition replacement (_match charset : list N) (encoding : N)
    (text : list N) : list N :=
  match decodeWord charset encoding text with
  | Some decoded => decoded
  | None => _match
  end.

Fixpoint decodeEncodedWordsFrom (skip : nat) (s : list N) : list N :=
  match s with
  | [] => []
  | c :: s' =>
      match skip with
      | S k => decodeEncodedWordsFrom k s'
      | O =>
          match encodedWordHere s with
          | Some (charset, encoding, text, n) =>
              replacement (take n s) charset encoding text
              ++ decodeEncodedWordsFrom (n - 1) s'
          | None => c :: decodeEncodedWordsFrom O s'
          end
      end
  end.

Definition decodeEncodedWords (input : list N) : list N :=
  decodeEncodedWordsFrom O input.

Definition isBlank (c : N) : bool := ((c =? 32) || (c =? 9))%N.

(** [.replace(/\n[ \t]+/g, " ")] *)
Fixpoint unfoldFrom (skip : nat) (s : list N) : list N :=
  match s with
  | [] => []
  | c :: s' =>
      match skip with
      | S k => unfoldFrom k s'
      | O =>
          let '(blanks, _) := span isBlank s' in
          if (c =? 10)%N && negb (bool_decide (blanks = []))
          then 32%N :: unfoldFrom (length blanks) s'
          else c :: unfoldFrom O s'
      end
  end.

Definition LF : list N := [10%N].

(** The variables of [parseHeaders]. *)
Record state := {
  currentName : option (list N);
  currentValue : list N;
  headers : gmap (list N) (list N)
}.

Definition flush (st : state) : gmap (list N) (list N) :=
  match currentName st with
  | Some name =>
      let unfolded := trim (unfoldFrom O (currentValue st)) in
      let key := toLowerCase rt name in
      match headers st !! key with
      | Some old => <[key := old ++ LF ++ unfolded]> (headers st)
      | None => <[key := unfolded]> (headers st)
      end
  | None => headers st
  end.

(** The [for (const line of lines)] loop, up to its [break]. *)
Fixpoint headerLoop (lines : list (list N)) (st : state) : state :=
  match lines with
  | [] => st
  | line :: rest =>
      match line with
      | [] => st
      | c :: _ =>
          if isBlank c then
            match currentName st with
            | Some _ =>
                headerLoop rest
                  {| currentName := currentName st;
                     currentValue := currentValue st ++ LF ++ line;
                     headers := headers st |}
            | None => headerLoop rest st
            end
          else
            let flushed := flush st in
            let colonIdx := indexOf line [58%N] 0 in
            if 0 <? colonIdx then
              headerLoop rest
                {| currentName := Some (trim (slice line 0 colonIdx));
                   currentValue := sliceFrom line (colonIdx + 1);
                   headers := flushed |}
            else
              headerLoop rest
                {| currentName := None;
                   currentValue := [];
                   headers := flushed |}
      end
  end.

Definition linesOf (headerSection : list N) : list (list N) :=
  let normalised := replaceLit [13%N; 10%N] LF headerSection in
  splitOn 10 normalised.

Definition parseHeaders (headerSection : list N) : gmap (list N) (list N) :=
  flush (headerLoop (linesOf headerSection)
           {| currentName := None; currentValue := []; headers := ∅ |}).

(** [raw.match(/<[^>]+>/g) ?? []] *)
Fixpoint parseReferencesFrom (skip : nat) (s : list N) : list (list N) :=
  match s with
  | [] => []
  | c :: s' =>
      match skip with
      | S k => parseReferencesFrom k s'
      | O =>
          let '(inner, r) := span (fun c => negb (c =? 62)%N) s' in
          match inner, r with
          | _ :: _, 62%N :: _ =>
              if (c =? 60)%N
              then (c :: inner ++ [62%N])
                   :: parseReferencesFrom (S (length inner)) s'
              else parseReferencesFrom O s'
          | _, _ => parseReferencesFrom O s'
          end
      end
  end.

Definition parseReferences (raw : list N) : list (list N) :=
  parseReferencesFrom O raw.

(** Lines 133-143: the part of [rawContent] before the blank line. *)
Definition headerSectionOf (rawContent : list N) : list N :=
  let crlf := indexOf rawContent [13; 10; 13; 10]%N 0 in
  let lf := indexOf rawContent [10; 10]%N 0 in
  if negb (crlf =? -1) && ((lf =? -1) || (crlf <? lf)) then
    slice rawContent 0 crlf
  else if negb (lf =? -1) then slice rawContent 0 lf
  else rawContent.

(** The file system as this call finds it. *)
Record fileSystem := {
  existsSync : list N -> bool;
  (** the bytes of the file, or the message of the stream's error *)
  readFile : list N -> list N + list N
}.

Definition HEADER_READ_LIMIT : Z := 65536.

(** [args.filePath] is [None] when it is absent or not a string. *)
Definition parseEmlHeaders (fs : fileSystem) (filePath : option (list N))
  : EmlHeadersResult :=
  match filePath with
  | None | Some [] =>
      Failure None
        (js "filePath parameter is required and must be a string")
  | Some filePath =>
      if negb (existsSync fs filePath) then
        Failure (Some filePath) (js "File not found: " ++ filePath)
      else
        let read :=
          match readFile fs filePath with
          | inl message => inl message
          | inr bytes =>
              match bufferToString rt (js "utf-8")
                      (take (Z.to_nat HEADER_READ_LIMIT) bytes) with
              | Some rawContent => inr rawContent
              | None => inl (js "Unknown encoding: utf-8")
              end
          end in
        match read with
        | inl message =>
            Failure (Some filePath) (js "Failed to read file: " ++ message)
        | inr rawContent =>
            let headerSection := headerSectionOf rawContent in
            let headers := parseHeaders headerSection in
            let get := fun name : list N =>
              match headers !! name with
              | Some val => Some (decodeEncodedWords (trim val))
              | None => None
              end in
            let referencesRaw := get (js "references") in
            Success filePath
              (get (js "message-id"))
              (get (js "in-reply-to"))
              (if truthy referencesRaw
               then parseReferences (default [] referencesRaw) else [])
              (get (js "subject"))
              (get (js "from"))
              (get (js "to"))
              (get (js "cc"))
              (get (js "date"))
        end
  end.
End Parser.

End Eml.

(* ===================================================================== *)
(** * shared/plist/reader.ts *)
(* ===================================================================== *)

Module PlistReader.

(** The order of two sequences of numbers, item by item, a proper prefix
    first: negative, zero or positive. *)
Fixpoint compareStrings (a b : list N) : Z :=
  match a, b with
  | [], [] => 0
  | [], _ :: _ => -1
  | _ :: _, [] => 1
  | x :: a', y :: b' =>
      if (x <? y)%N then -1
      else if (y <? x)%N then 1
      else compareStrings a' b'
  end.

Definition isHighSurrogate (c : N) : bool := ((55296 <=? c) && (c <=? 56319))%N.
Definition isLowSurrogate (c : N) : bool := ((56320 <=? c) && (c <=? 57343))%N.

(** The code points of a string held as UTF-16 code units: Python strings
    are sequences of code points. *)
Fixpoint codePoints (s : list N) : list N :=
  match s with
  | [] => []
  | hi :: s' =>
      match s' with
      | lo :: s'' =>
          if isHighSurrogate hi && isLowSurrogate lo
          then (65536 + (hi - 55296) * 1024 + (lo - 56320))%N :: codePoints s''
          else hi :: codePoints s'
      | [] => [hi]
      end
  end.

(** The order Python gives two strings ([names.sort()]): that of their
    code points. *)
Definition comparePython (a b : list N) : Z :=
  compareStrings (codePoints a) (codePoints b).

(** [raw.split("\n").map(l => l.trim()).filter(...)] *)
Definition parsePlistBuddyArray (raw : list N) : list (list N) :=
  filter (fun l => l <> [] /\ l <> js "Array {" /\ l <> js "}")
         (map trim (splitOn 10 raw)).

Definition isLineTerminator (c : N) : bool :=
  ((c =? 10) || (c =? 13) || (c =? 8232) || (c =? 8233))%N.

(** The pattern of a width line, a key without white space, [=], a value up
    to the end of the line, with [k] code units in group 1: groups 1
    and 2.  White space before the value is skipped, up to the last code
    unit of the line, which group 2 needs. *)
Definition widthLineAt (k : nat) (line : list N) : option (list N * list N) :=
  match trimStart (drop k line) with
  | 61%N :: afterEq =>
      match trimStart afterEq with
      | [] =>
          match last afterEq with
          | Some c =>
              if isLineTerminator c then None else Some (take k line, [c])
          | None => None
          end
      | c :: value =>
          if existsb isLineTerminator (c :: value) then None
          else Some (take k line, c :: value)
      end
  | _ => None
  end.

(** Group 1 is greedy: the longest candidate is tried first. *)
Fixpoint widthLineUpTo (k : nat) (line : list N) : option (list N * list N) :=
  match k with
  | O => None
  | S k' =>
      match widthLineAt k line with
      | Some groups => Some groups
      | None => widthLineUpTo k' line
      end
  end.

Definition widthLineMatch (line : list N) : option (list N * list N) :=
  let '(key, _) := span (fun c => negb (isSpace c)) line in
  widthLineUpTo (length key) line.

Section Reader.
Context {Value Num : Type}.
Context (parseFloat : list N -> Num).

(** [result[k] = v] on a plain object: assigning a number to [__proto__]
    adds no property. *)
Definition setProperty (result : gmap (list N) Num) (k : list N) (v : Num)
  : gmap (list N) Num :=
  if bool_decide (k = js "__proto__") then result else <[k := v]> result.

Definition parsePlistBuddyDict (raw : list N) : gmap (list N) Num :=
  let lines :=
    filter (fun l => l <> [] /\ l <> js "Dict {" /\ l <> js "}")
           (map trim (splitOn 10 raw)) in
  foldl (fun result line =>
           match widthLineMatch line with
           | Some (m1, m2) => setProperty result m1 (parseFloat m2)
           | None => result
           end)
        ∅ lines.

(** The preference file, as Python's [plistlib.load] reads it. *)
Local Abbreviation store := (gmap (list N) Value).

(** [/usr/libexec/PlistBuddy -c command plistPath]: its output, or [None]
    when it exits with an error (the entry does not exist). *)
Context (plistBuddy : store -> list N -> option (list N)).

Definition plistRead (data : store) (command : list N) : option (list N) :=
  trim <$> plistBuddy data command.

(** ** The Python scripts

    Both scripts are texts built from the arguments and handed to
    [python3 -c]. *)

(** [`'${s.replace(/'/g, "\\'")}'`]: how a prefix, a suffix or a base name
    is written into a script (lines 65, 101 and 106-107); the path of the
    file is written between quotes as it is. *)
Definition pythonLiteral (s : list N) : list N :=
  [39%N] ++ replaceLit [39%N] [92%N; 39%N] s ++ [39%N].

(** [String(limit)] *)
Definition decimal (n : nat) : list N :=
  js (NilEmpty.string_of_uint (Nat.to_uint n)).

(** The text of the listing script (lines 66-79). *)
Definition listingScript (plistPath : list N) (prefixes : list (list N))
    (limit : nat) : list N :=
  join [10%N]
    [js "import plistlib, sys";
     js "with open('" ++ plistPath ++ js "', 'rb') as f:";
     js "    data = plistlib.load(f)";
     js "prefixes = [" ++ join (js ", ") (map pythonLiteral prefixes)
       ++ js "]";
     js "names = set()";
     js "for k in data:";
     js "    for p in prefixes:";
     js "        if k.startswith(p):";
     js "            names.add(k[len(p):])";
     js "names = [n for n in names if not n.startswith('Outline')]";
     js "names.sort()";
     js "print('\n'.join(names[:" ++ decimal limit ++ js "]))"].

(** The text of the copy script (lines 102-129). *)
Definition copyScript (plistPath : list N) (suffixes : list (list N))
    (sourceBaseName targetBaseName : list N) : list N :=
  join [10%N]
    [js "import plistlib, sys, copy";
     [];
     js "plist_path = '" ++ plistPath ++ js "'";
     js "source = " ++ pythonLiteral sourceBaseName;
     js "target = " ++ pythonLiteral targetBaseName;
     js "suffixes = [" ++ join (js ", ") (map pythonLiteral suffixes)
       ++ js "]";
     [];
     js "with open(plist_path, 'rb') as f:";
     js "    data = plistlib.load(f)";
     [];
     js "copied = []";
     js "for suffix in suffixes:";
     js "    src_key = suffix + '-' + source";
     js "    tgt_key = suffix + '-' + target";
     js "    if src_key in data:";
     js "        data[tgt_key] = copy.deepcopy(data[src_key])";
     js "        copied.append(tgt_key)";
     [];
     js "if not copied:";
     js "    print('ERROR: no source keys found for: ' + source, file=sys.stderr)";
     js "    sys.exit(1)";
     [];
     js "with open(plist_path, 'wb') as f:";
     js "    plistlib.dump(data, f, fmt=plistlib.FMT_BINARY)";
     [];
     js "print('\n'.join(copied))"].

(** A code unit that a quoted text of a script carries to Python as it
    is: not NUL, not a line break, not a backslash, not a surrogate. *)
Definition pyPlainChar (c : N) : bool :=
  negb ((c =? 0) || (c =? 10) || (c =? 13) || (c =? 92)
        || ((55296 <=? c) && (c <=? 57343)))%N.

(** A text that [pythonLiteral] writes so that Python reads it back. *)
Definition literalPlain (s : list N) : bool := forallb pyPlainChar s.

(** The path is written without escaping: it must hold no quote either. *)
Definition pathPlain (s : list N) : bool :=
  forallb (fun c => pyPlainChar c && negb (c =? 39)%N) s.

(** Python as this model takes it.  A script whose quoted texts are all
    plain says what its lines say, and the model follows them.
    [pythonFails] is the message of the error [execSync] throws when such a
    script does not run to its end for a reason its lines do not show
    (python3 is missing, the file cannot be loaded, a name cannot be
    printed, the time limit passes) before anything is written, [None]
    otherwise.  [dumpFails] is the same for the writing of the file at the
    end of the copy script, with the file as it is left.  For any other
    script (a literal that a backslash or a quote ends early or lengthens,
    a line break in it), [pythonOther] is what python3 does: its standard
    output, or the message of the error thrown, and the file afterwards. *)
Context (pythonFails : list N -> store -> option (list N)).
Context (dumpFails : list N -> store -> store -> option (list N * store)).
Context (pythonOther : list N -> store -> (list N + list N) * store).
(** The message of the error [execSync] throws, from the script's
    standard error. *)
Context (execError : list N -> list N).

(** The listing script: the names after a prefix, without those starting
    with "Outline", sorted, the first [limit] of them printed one a line;
    then [result.trim().split("\n").filter(Boolean)], or [[]] when
    [execSync] throws.  The listing script only reads the file: what a
    script outside the model's fragment does to the file is not followed
    here. *)
Definition getPlistKeysByPrefix (plistPath : list N) (data : store)
    (prefixes : list (list N)) (limit : nat) : list (list N) :=
  let script := listingScript plistPath prefixes limit in
  let outcome : list N + list N :=
    if pathPlain plistPath && forallb literalPlain prefixes then
      match pythonFails script data with
      | Some message => inl message
      | None =>
          let names : gset (list N) :=
            list_to_set
              (flat_map (fun k => omap (fun p => stripPrefix p k) prefixes)
                        (elements (dom data))) in
          let names :=
            filter (fun n => startsWith (js "Outline") n = false)
                   (elements names) in
          let names := sortBy comparePython names in
          inr (join [10%N] (take limit names) ++ [10%N])
      end
    else fst (pythonOther script data) in
  match outcome with
  | inr result => filter (fun l => l <> []) (splitOn 10 (trim result))
  | inl _ => []
  end.

Record CopyResult := {
  ok : bool;
  keysCopied : list (list N);
  error : option (list N)
}.

(** The [for suffix in suffixes] loop of the copy script. *)
Definition copyLoop (source target : list N) (suffixes : list (list N))
    (data : store) : store * list (list N) :=
  foldl (fun '(data, copied) suffix =>
           let src_key := suffix ++ js "-" ++ source in
           let tgt_key := suffix ++ js "-" ++ target in
           match data !! src_key with
           | Some v => (<[tgt_key := v]> data, copied ++ [tgt_key])
           | None => (data, copied)
           end)
        (data, []) suffixes.

(** [copyPlistKeys]: the result, and the preference file afterwards. *)
Definition copyPlistKeys (plistPath : list N) (data : store)
    (suffixes : list (list N)) (sourceBaseName targetBaseName : list N)
  : CopyResult * store :=
  let script :=
    copyScript plistPath suffixes sourceBaseName targetBaseName in
  let outcome : (list N + list N) * store :=
    if pathPlain plistPath && forallb literalPlain suffixes
       && literalPlain sourceBaseName && literalPlain targetBaseName
    then
      match pythonFails script data with
      | Some message => (inl message, data)
      | None =>
          let '(data', copied) :=
            copyLoop sourceBaseName targetBaseName suffixes data in
          match copied with
          | [] =>
              (inl (execError
                      (js "ERROR: no source keys found for: "
                       ++ sourceBaseName)),
               data)
          | _ :: _ =>
              match dumpFails script data data' with
              | Some (message, written) => (inl message, written)
              | None => (inr (join [10%N] copied ++ [10%N]), data')
              end
          end
      end
    else pythonOther script data in
  match outcome with
  | (inr result, data') =>
      ({| ok := true;
          keysCopied := filter (fun l => l <> []) (splitOn 10 (trim result));
          error := None |},
       data')
  | (inl message, data') =>
      ({| ok := false; keysCopied := []; error := Some message |}, data')
  end.
End Reader.

End PlistReader.

Import PlistReader.

(* ===================================================================== *)
(** * tools/custom/column-layout.ts *)
(* ===================================================================== *)

Module ColumnLayout.

Definition LAYOUT_PREFIXES : list (list N) :=
  [js "ListColumnsHorizontal-";
   js "TableView Columns ListColumnsHorizontal-";
   js "TableView Column Widths ListColumnsHorizontal-"].

Definition LAYOUT_SUFFIXES : list (list N) :=
  [js "ListColumnsHorizontal";
   js "TableView Columns ListColumnsHorizontal";
   js "TableView Column Widths ListColumnsHorizontal"].

Definition columnsKey (name : list N) : list N :=
  js "ListColumnsHorizontal-" ++ name.
Definition tableViewColumnsKey (name : list N) : list N :=
  js "TableView Columns ListColumnsHorizontal-" ++ name.
Definition tableViewWidthsKey (name : list N) : list N :=
  js "TableView Column Widths ListColumnsHorizontal-" ++ name.

Definition QUOTE : list N := [34%N].

Section Tools.
Context {Value Num : Type}.
Context (parseFloat : list N -> Num).
Local Abbreviation store := (gmap (list N) Value).
Context (plistBuddy : store -> list N -> option (list N)).
Context (pythonFails : list N -> store -> option (list N)).
Context (dumpFails : list N -> store -> store -> option (list N * store)).
Context (pythonOther : list N -> store -> (list N + list N) * store).
Context (execError : list N -> list N).
Context (toLowerCase : list N -> list N).
(** [join(homedir(), "Library", "Preferences", ...)] *)
Context (PLIST_PATH : list N).

Record ColumnLayoutResult := {
  found : bool;
  name : list N;
  resolvedKey : list N;
  columns : option (list (list N));
  tableViewColumns : option (list (list N));
  widths : option (gmap (list N) Num);
  keysFound : list (list N)
}.

Definition printCommand (key : list N) : list N :=
  js "Print ':" ++ key ++ js "'".

Definition readLayoutForName (data : store) (baseName : list N)
  : option ColumnLayoutResult :=
  let rawColumns := plistRead plistBuddy data (printCommand (columnsKey baseName)) in
  let rawTableViewColumns :=
    plistRead plistBuddy data (printCommand (tableViewColumnsKey baseName)) in
  let rawWidths :=
    plistRead plistBuddy data (printCommand (tableViewWidthsKey baseName)) in
  if negb (truthy rawColumns) && negb (truthy rawTableViewColumns)
     && negb (truthy rawWidths)
  then None
  else
    let keysFound :=
      (if truthy rawColumns then [columnsKey baseName] else [])
      ++ (if truthy rawTableViewColumns then [tableViewColumnsKey baseName]
          else [])
      ++ (if truthy rawWidths then [tableViewWidthsKey baseName] else []) in
    Some {| found := true;
            name := baseName;
            resolvedKey := baseName;
            columns :=
              if truthy rawColumns
              then parsePlistBuddyArray <$> rawColumns else None;
            tableViewColumns :=
              if truthy rawTableViewColumns
              then parsePlistBuddyArray <$> rawTableViewColumns else None;
            widths :=
              if truthy rawWidths
              then parsePlistBuddyDict parseFloat <$> rawWidths else None;
            keysFound := keysFound |}.

Definition getExistingNames (data : store) (limit : nat) : list (list N) :=
  getPlistKeysByPrefix pythonFails pythonOther PLIST_PATH data
    LAYOUT_PREFIXES limit.

Definition findMatchingNames (data : store) (searchTerm : list N)
  : list (list N) :=
  let allNames := getExistingNames data 200 in
  let lower := toLowerCase searchTerm in
  filter (fun n => includes (toLowerCase n) lower = true) allNames.

(** ** get_column_layout *)

Inductive GetColumnLayoutResult :=
  | GetInvalid (error : list N)
  | GetFound (layout : ColumnLayoutResult)
             (nameSearched note : option (list N))
  | GetAmbiguous (name error : list N) (partialMatches : list (list N))
  | GetNotFound (name error : list N) (exampleNames : list (list N)).

Definition getSuccess (r : GetColumnLayoutResult) : bool :=
  match r with
  | GetFound _ _ _ => true
  | _ => false
  end.

Definition withName (r : ColumnLayoutResult) (n : list N)
  : ColumnLayoutResult :=
  {| found := found r; name := n; resolvedKey := resolvedKey r;
     columns := columns r; tableViewColumns := tableViewColumns r;
     widths := widths r; keysFound := keysFound r |}.

(** [args.name] and [args.uuid] are [None] when absent or not a string. *)
Definition getColumnLayout (data : store) (name uuid : option (list N))
  : GetColumnLayoutResult :=
  match name with
  | None | Some [] => GetInvalid (js "name parameter is required")
  | Some name =>
      match readLayoutForName data name with
      | Some exactResult => GetFound exactResult None None
      | None =>
          let uuidResult :=
            if truthy uuid then readLayoutForName data (default [] uuid)
            else None in
          match uuidResult with
          | Some uuidResult => GetFound (withName uuidResult name) None None
          | None =>
              let fuzzyMatches := findMatchingNames data name in
              let fuzzyResult :=
                match fuzzyMatches with
                | [only] => readLayoutForName data only
                | _ => None
                end in
              match fuzzyResult with
              | Some fuzzyResult =>
                  GetFound fuzzyResult (Some name)
                    (Some (js "Exact name not found; matched " ++ QUOTE
                           ++ default [] (head fuzzyMatches) ++ QUOTE
                           ++ js " via partial search"))
              | None =>
                  let examples := getExistingNames data 15 in
                  if 1 <? len fuzzyMatches then
                    GetAmbiguous name
                      (js "No exact match for " ++ QUOTE ++ name ++ QUOTE
                       ++ js ". Multiple partial matches found "
                       ++ [8212%N] ++ js " be more specific.")
                      fuzzyMatches
                  else
                    GetNotFound name
                      (js "No column layout found for " ++ QUOTE ++ name
                       ++ QUOTE ++ js ". "
                       ++ js "This smart group may not have a custom layout yet (it will use defaults). "
                       ++ js "Use copy_column_layout to copy an existing layout to it.")
                      examples
              end
          end
      end
  end.

(** ** copy_column_layout *)

Record CopyColumnLayoutResult := {
  success : bool;
  sourceName : option (list N);
  targetName : option (list N);
  resolvedSourceKey : option (list N);
  resolvedTargetKey : option (list N);
  keysCopied : option (list (list N));
  message : option (list N);
  error : option (list N)
}.

Definition failure (source target rsk rtk : option (list N))
    (error : list N) : CopyColumnLayoutResult :=
  {| success := false; sourceName := source; targetName := target;
     resolvedSourceKey := rsk; resolvedTargetKey := rtk;
     keysCopied := None; message := None; error := Some error |}.

(** Lines 207-225: the value of [resolvedSourceKey] afterwards, or the
    error returned for an ambiguous name. *)
Definition resolveSource (data : store) (sourceName : list N)
    (sourceUuid : option (list N)) : list N + option (list N) :=
  if bool_decide (is_Some (readLayoutForName data sourceName)) then
    inr (Some sourceName)
  else if truthy sourceUuid
          && bool_decide
               (is_Some (readLayoutForName data (default [] sourceUuid)))
  then inr sourceUuid
  else
    let fuzzy := findMatchingNames data sourceName in
    if bool_decide (length fuzzy = 1%nat)
       && bool_decide
            (is_Some (readLayoutForName data (default [] (head fuzzy))))
    then inr (head fuzzy)
    else if 1 <? len fuzzy then
      inl (js "Ambiguous source name " ++ QUOTE ++ sourceName ++ QUOTE
           ++ js ". Multiple matches: "
           ++ join (js ", ") (slice fuzzy 0 8))
    else inr None.

Definition copyColumnLayout (data : store)
    (sourceName targetName sourceUuid targetUuid : option (list N))
  : CopyColumnLayoutResult * store :=
  match sourceName, targetName with
  | None, _ | Some [], _ =>
      (failure None None None None (js "sourceName parameter is required"),
       data)
  | Some _, None | Some _, Some [] =>
      (failure None None None None (js "targetName parameter is required"),
       data)
  | Some sourceName, Some targetName =>
      match resolveSource data sourceName sourceUuid with
      | inl ambiguous =>
          (failure (Some sourceName) (Some targetName) None None ambiguous,
           data)
      | inr resolved =>
        if negb (truthy resolved) then
          let examples := getExistingNames data 10 in
          (failure (Some sourceName) (Some targetName) None None
             (js "Source column layout for " ++ QUOTE ++ sourceName ++ QUOTE
              ++ js " not found. "
              ++ js "This smart group may not have a custom layout saved yet. "
              ++ js "Known layouts include: "
              ++ join (js ", ") (slice examples 0 8)),
           data)
        else
          let resolvedSourceKey := default [] resolved in
          let resolvedTargetKey := default targetName targetUuid in
          let '(copyResult, data') :=
            copyPlistKeys pythonFails dumpFails pythonOther execError
              PLIST_PATH data
              LAYOUT_SUFFIXES resolvedSourceKey resolvedTargetKey in
          if negb (PlistReader.ok copyResult) then
            (failure (Some sourceName) (Some targetName)
               (Some resolvedSourceKey) (Some resolvedTargetKey)
               (js "Copy failed: "
                ++ default (js "undefined") (PlistReader.error copyResult)),
             data')
          else
            match readLayoutForName data' resolvedTargetKey with
            | None =>
                (failure (Some sourceName) (Some targetName)
                   (Some resolvedSourceKey) (Some resolvedTargetKey)
                   (js "Copy appeared to succeed but target keys not readable after write"),
                 data')
            | Some verification =>
                ({| success := true;
                    sourceName := Some sourceName;
                    targetName := Some targetName;
                    resolvedSourceKey := Some resolvedSourceKey;
                    resolvedTargetKey := Some resolvedTargetKey;
                    keysCopied := Some (PlistReader.keysCopied copyResult);
                    message := Some
                      (js "Copied column layout from " ++ QUOTE ++ sourceName
                       ++ QUOTE ++ js " to " ++ QUOTE ++ targetName ++ QUOTE
                       ++ js ". Keys written: "
                       ++ join (js ", ") (PlistReader.keysCopied copyResult)
                       ++ js ". Columns: ["
                       ++ default (js "n/a")
                            (join (js ", ") <$> columns verification)
                       ++ js "]. "
                       ++ js "Restart DEVONthink or close/reopen the smart group window for the change to take effect.");
                    error := None |},
                 data')
            end
      end
  end.
End Tools.

End ColumnLayout.
(** The offset of the first occurrence, as a natural number. *)
Fixpoint find (needle s : list N) : option nat :=
  if startsWith needle s then Some O
  else match s with
       | [] => None
       | _ :: s' => S <$> find needle s'
       end.

(** No occurrence of [needle] starts inside [t] when [r] follows. *)
Definition noStart (needle t r : list N) : Prop :=
  forall i, (i < length t)%nat -> startsWith needle (drop i t ++ r) = false.

(* ===================================================================== *)
(** * Markup documents *)
(* ===================================================================== *)

(** A document seen as text and <dict> blocks: [Leaf t] is text [t];
    [Node t body rest] is text [t], then a block with content [body], then
    [rest]. *)
Inductive markup :=
  | Leaf (t : list N)
  | Node (t : list N) (body rest : markup).

Fixpoint render (m : markup) : list N :=
  match m with
  | Leaf t => t
  | Node t body rest => t ++ OPEN ++ render body ++ CLOSE ++ render rest
  end.

(** The inner contents of the outermost blocks, in document order. *)
Fixpoint blocks (m : markup) : list (list N) :=
  match m with
  | Leaf _ => []
  | Node _ body rest => render body :: blocks rest
  end.

(** Text inside a block holds neither tag. *)
Definition noTag (t : list N) : Prop :=
  indexOf t OPEN 0 = -1 /\ indexOf t CLOSE 0 = -1.

Fixpoint wfInner (m : markup) : Prop :=
  match m with
  | Leaf t => noTag t
  | Node t body rest => noTag t /\ wfInner body /\ wfInner rest
  end.

(** Text between the outermost blocks holds no open tag. *)
Fixpoint wfTop (m : markup) : Prop :=
  match m with
  | Leaf t => indexOf t OPEN 0 = -1
  | Node t body rest => indexOf t OPEN 0 = -1 /\ wfInner body /\ wfTop rest
  end.

(** The content of a block that is never closed: text, complete blocks and
    further open tags. *)
Inductive partial :=
  | PLeaf (t : list N)
  | PNode (t : list N) (body : markup) (rest : partial)
  | POpen (t : list N) (rest : partial).

Fixpoint renderPartial (p : partial) : list N :=
  match p with
  | PLeaf t => t
  | PNode t body rest => t ++ OPEN ++ render body ++ CLOSE ++ renderPartial rest
  | POpen t rest => t ++ OPEN ++ renderPartial rest
  end.

Fixpoint wfPartial (p : partial) : Prop :=
  match p with
  | PLeaf t => noTag t
  | PNode t body rest => noTag t /\ wfInner body /\ wfPartial rest
  | POpen t rest => noTag t /\ wfPartial rest
  end.

Definition startsLt (r : list N) : Prop :=
  r = [] \/ exists r', r = 60%N :: r'.

(** The inner loop with the fuel [extractTopLevelDicts] gives it. *)
Definition scan (xml : list N) (depth cur : Z) : option scan_result :=
  depthScan (S (length xml)) xml depth cur.

(** The outer loop with the fuel [extractTopLevelDicts] gives it. *)
Definition top (xml : list N) (pos : Z) (results : list (list N)) :=
  scanTop (S (length xml)) xml pos results.

(** How a document ends after its last complete outermost block: with
    text only, or with a block that is never closed. *)
Inductive ending :=
  | Complete
  | Unterminated (p : partial).

Definition renderEnding (e : ending) : list N :=
  match e with
  | Complete => []
  | Unterminated p => OPEN ++ renderPartial p
  end.

Definition wfEnding (e : ending) : Prop :=
  match e with
  | Complete => True
  | Unterminated p => wfPartial p
  end.


(* ===================================================================== *)
(** * Entries of the enumerators *)
(* ===================================================================== *)

(** The [uuid] of a block as both listers compute it:
    [syncContent ? extractStringAfterKey(syncContent, "UUID") : null]. *)
Definition uuidOf (dictContent : list N) : option (list N) :=
  let syncContent := extractSubDictAfterKey dictContent (js "sync") in
  if truthy syncContent
  then extractStringAfterKey (default [] syncContent) (js "UUID")
  else None.

Definition nameOf (dictContent : list N) : option (list N) :=
  extractStringAfterKey dictContent (js "name").

Definition UNNAMED : list N := Eval cbv in js "(unnamed)".

(** Sample documents and blocks. *)
Definition sampleDocument : markup :=
  Node (js "<plist><array>")
       (Node (js "<key>name</key><string>A</string><key>sync</key>")
             (Leaf (js "<key>UUID</key><string>U</string>"))
             (Leaf (js "<key>x</key><true/>")))
       (Node (js " ") (Leaf (js "<key>name</key><string>B</string>"))
             (Leaf (js "</array></plist>"))).

Definition samplePartial : partial :=
  PNode (js "<key>a</key>") (Leaf (js "x"))
        (POpen (js "<key>b</key>") (PLeaf (js "<key>c</key><string>tail"))).

Definition emptyNameBlock : list N :=
  js "<key>name</key><string></string>".

Definition emptyNameWithUuidBlock : list N :=
  js "<key>name</key><string></string><key>sync</key><dict><key>UUID</key><string>U3</string></dict>".

Definition bothEmptyBlock : list N :=
  js "<key>name</key><string></string><key>sync</key><dict><key>UUID</key><string></string></dict>".

Definition uuidOnlyBlock : list N :=
  js "<key>sync</key><dict><key>UUID</key><string>U2</string></dict>".

(** Two smart groups named "Same" with different uuids, after one named
    "Zed". *)
Definition sameNameDocument : list N :=
  js "<array><dict><key>name</key><string>Zed</string></dict><dict><key>name</key><string>Same</string><key>sync</key><dict><key>UUID</key><string>U1</string></dict></dict><dict><key>name</key><string>Same</string><key>sync</key><dict><key>UUID</key><string>U2</string></dict></dict></array>".

Definition sampleWorld (xml : list N) : SmartGroups.world :=
  {| SmartGroups.existsSync := true; SmartGroups.plutil := inr xml |}.

Definition sampleRulesWorld (xml : list N) : SmartRules.world :=
  {| SmartRules.existsSync := true; SmartRules.plutil := inr xml |}.

(** A block that yields an entry: its name or its uuid is extracted and
    not empty. *)
Definition isKept (block : list N) : Prop :=
  truthy (nameOf block) = true \/ truthy (uuidOf block) = true.

#[global] Instance isKept_dec block : Decision (isKept block).
Proof.
  unfold isKept.
  destruct (truthy (nameOf block)); [left; left; reflexivity|].
  destruct (truthy (uuidOf block)); [left; right; reflexivity|].
  right. intros [H | H]; discriminate H.
Defined.

(** A name present, and a UUID key that holds the empty string. *)
Definition emptyUuidBlock : list N :=
  js "<key>name</key><string>N</string><key>sync</key><dict><key>UUID</key><string></string></dict>".

(* ===================================================================== *)
(** * E-mail files *)
(* ===================================================================== *)

Definition CRLFCRLF : list N := [13; 10; 13; 10]%N.
Definition LFLF : list N := [10; 10]%N.

(** No separator starts at offset [i] of [raw]. *)
Definition noSeparatorAt (raw : list N) (i : nat) : Prop :=
  startsWith CRLFCRLF (drop i raw) = false /\
  startsWith LFLF (drop i raw) = false.

(** A file system with one readable file. *)
Definition oneFile (bytes : list N) : Eml.fileSystem :=
  {| Eml.existsSync := fun _ => true; Eml.readFile := fun _ => inr bytes |}.

(** Literals cannot hold a line break: [|] stands for LF, [~] for CR. *)
Definition lines (s : string) : list N :=
  map (fun c => if (c =? 124)%N then 10%N
                else if (c =? 126)%N then 13%N else c) (js s).

(** ** Encoded words *)

(** What the pattern [=?charset?encoding?text?=] matches: a charset of one
    or more code units other than [?], an encoding among [B b Q q], a text
    without [?]. *)
Definition isEncodedWord (charset : list N) (encoding : N) (text : list N)
  : Prop :=
  charset <> [] /\ ~ In 63%N charset /\
  In encoding [66; 98; 81; 113]%N /\ ~ In 63%N text.

Definition encodedWord (charset : list N) (encoding : N) (text : list N)
  : list N :=
  [61; 63]%N ++ charset ++ [63; encoding; 63]%N ++ text ++ [63; 61]%N.

(** [Decoded rt input output]: [output] is [input] with each encoded word,
    found from left to right, replaced by its decoded text, or left as it
    is when decoding fails. *)
Inductive Decoded (rt : Runtime) : list N -> list N -> Prop :=
  | Decoded_nil : Decoded rt [] []
  | Decoded_word charset encoding text decoded rest out :
      isEncodedWord charset encoding text ->
      Eml.decodeWord rt charset encoding text = Some decoded ->
      Decoded rt rest out ->
      Decoded rt (encodedWord charset encoding text ++ rest) (decoded ++ out)
  | Decoded_failed charset encoding text rest out :
      isEncodedWord charset encoding text ->
      Eml.decodeWord rt charset encoding text = None ->
      Decoded rt rest out ->
      Decoded rt (encodedWord charset encoding text ++ rest)
              (encodedWord charset encoding text ++ out)
  | Decoded_other c s out :
      (forall charset encoding text rest,
         isEncodedWord charset encoding text ->
         c :: s <> encodedWord charset encoding text ++ rest) ->
      Decoded rt s out ->
      Decoded rt (c :: s) (c :: out).

Definition hello : list N := [104; 233; 108; 108; 111]%N.

(** ** Header lines *)

(** The header a line starts: the text before its first colon, trimmed,
    and the text after it; none when the line has no colon or begins with
    it. *)
Definition startHeader (line : list N) : option (list N * list N) :=
  let '(before, after) := span (fun c => negb (c =? 58)%N) line in
  match before, after with
  | _ :: _, _ :: value => Some (trim before, value)
  | _, _ => None
  end.

Definition emit (pending : option (list N * list N))
  : list (list N * list N) :=
  match pending with
  | Some header => [header]
  | None => []
  end.

(** The headers of a header section in the order met, each with its name
    and its folded value: a line that begins with a space or a tab
    continues the header before it, any other line starts a header (or
    none, without a colon), and the first empty line ends the section. *)
Fixpoint logicalHeaders (pending : option (list N * list N))
    (lines : list (list N)) : list (list N * list N) :=
  match lines with
  | [] => emit pending
  | line :: rest =>
      match line with
      | [] => emit pending
      | c :: _ =>
          if Eml.isBlank c then
            logicalHeaders
              (match pending with
               | Some (name, value) => Some (name, value ++ Eml.LF ++ line)
               | None => None
               end) rest
          else emit pending ++ logicalHeaders (startHeader line) rest
      end
  end.

(** The unfolded values of the headers whose name, in lower case, is
    [key], in the order met. *)
Definition valuesFor (rt : Runtime) (key : list N)
    (hs : list (list N * list N)) : list (list N) :=
  omap (fun '(name, value) =>
          if bool_decide (toLowerCase rt name = key)
          then Some (trim (Eml.unfoldFrom O value)) else None) hs.

(** [values.join("\n")], or nothing for no value. *)
Definition joined (values : list (list N)) : option (list N) :=
  match values with
  | [] => None
  | _ :: _ => Some (join Eml.LF values)
  end.

(** One header stored, as [flush] does it. *)
Definition addHeader (rt : Runtime) (m : gmap (list N) (list N))
    (header : list N * list N) : gmap (list N) (list N) :=
  let '(name, value) := header in
  let unfolded := trim (Eml.unfoldFrom O value) in
  let key := toLowerCase rt name in
  match m !! key with
  | Some old => <[key := old ++ Eml.LF ++ unfolded]> m
  | None => <[key := unfolded]> m
  end.

(** The header [parseHeaders] is building, from its variables. *)
Definition pendingOf (st : Eml.state) : option (list N * list N) :=
  match Eml.currentName st with
  | Some name => Some (name, Eml.currentValue st)
  | None => None
  end.

(** What a map holds for [key] once further values are joined to it. *)
Definition extend (old : option (list N)) (values : list (list N))
  : option (list N) :=
  match old with
  | Some o => Some (join Eml.LF (o :: values))
  | None => joined values
  end.


(* ===================================================================== *)
(** * Preference stores for the column-layout tools *)
(* ===================================================================== *)

(** A PlistBuddy that prints the text stored under a top-level key: the
    command is [Print ':key']. *)
Definition samplePlistBuddy (data : gmap (list N) (list N))
    (command : list N) : option (list N) :=
  data !! take (length command - 9) (drop 8 command).

(** A PlistBuddy that follows [:] into nested entries: it prints something
    for every path, also where the file has no top-level key of that
    name. *)
Definition nestedPlistBuddy (data : gmap (list N) (list N))
    (command : list N) : option (list N) := Some (js "Array {}").

Definition jobsStore : gmap (list N) (list N) :=
  <[js "ListColumnsHorizontal-Jobs - Archive" := js "Array { Name }"]>
    (<[js "TableView Columns ListColumnsHorizontal-Jobs - Review"
         := js "Array { Kind }"]>
       (<[js "Unrelated" := js "1"]> ∅)).

(** Two layouts, one named by U+FF5E, one by U+1F600 (the surrogates
    55357 and 56832). *)
Definition glyphStore : gmap (list N) (list N) :=
  <[js "ListColumnsHorizontal-" ++ [55357%N; 56832%N] := js "Array { Name }"]>
    (<[js "TableView Columns ListColumnsHorizontal-" ++ [65374%N]
         := js "Array { Kind }"]> ∅).

(** Nine layouts whose names all contain "n". *)
Definition nineStore : gmap (list N) (list N) :=
  list_to_map
    (map (fun d => (js "ListColumnsHorizontal-n" ++ [d], js "Array { Name }"))
         [49; 50; 51; 52; 53; 54; 55; 56; 57]%N).

Definition sampleParseFloat (s : list N) : Z := len s.

Definition identityError (stderr : list N) : list N := stderr.

(** A python3 that runs every script of the model's fragment to its end,
    writes the file without failure, and stops on a syntax error at any
    other script, the file untouched. *)
Definition pythonRuns {Value} (script : list N) (data : gmap (list N) Value)
  : option (list N) := None.

Definition dumpWrites {Value} (script : list N)
    (data written : gmap (list N) Value)
  : option (list N * gmap (list N) Value) := None.

Definition pythonSyntaxError {Value} (script : list N)
    (data : gmap (list N) Value)
  : (list N + list N) * gmap (list N) Value :=
  (inl (js "SyntaxError: invalid syntax"), data).

Definition samplePlistPath : list N :=
  js "/Users/me/Library/Preferences/com.devon-technologies.think.plist".

(** ** The Q encoding, read in one pass

    The sixteen hexadecimal digits in the order of their values; the
    letters count in either case. *)
Definition HEX_UPPER : list N := js "0123456789ABCDEF".
Definition HEX_LOWER : list N := js "0123456789abcdef".

(** The place of [c] in [digits], counted from zero. *)
Fixpoint position (c : N) (digits : list N) : option N :=
  match digits with
  | [] => None
  | d :: digits' =>
      if (c =? d)%N then Some 0%N else N.succ <$> position c digits'
  end.

(** The value of a hexadecimal digit; [None] for any other code unit. *)
Definition hexDigitValue (c : N) : option N :=
  match position c HEX_UPPER with
  | Some v => Some v
  | None => position c HEX_LOWER
  end.

(** An [=] followed by two hexadecimal digits is the byte they write, an
    underscore is a space, any other code unit is itself. *)
Fixpoint qText (s : list N) : list N :=
  match s with
  | [] => []
  | c :: s' =>
      let plain := if (c =? 95)%N then 32%N else c in
      match s' with
      | h1 :: h2 :: rest =>
          match hexDigitValue h1, hexDigitValue h2 with
          | Some v1, Some v2 =>
              if (c =? 61)%N then (16 * v1 + v2)%N :: qText rest
              else plain :: qText s'
          | _, _ => plain :: qText s'
          end
      | _ => plain :: qText s'
      end
  end.

(** The bytes of an encoded word's text: base64 for B, the low bytes of the
    Q text otherwise. *)
Definition wordBytes (rt : Runtime) (encoding : N) (text : list N) : list N :=
  if bool_decide (toUpperCase rt [encoding] = js "B")
  then bufferFromBase64 rt text
  else map (fun c => N.land c 255) (qText text).

(** The encoding name handed to [toString]: [us-ascii] is [ascii],
    [iso-8859-1] and [iso-8859-15] are [latin1], any other charset goes
    as it is, in lower case. *)
Definition charsetName (rt : Runtime) (charset : list N) : list N :=
  let lower := toLowerCase rt charset in
  if bool_decide (lower = js "us-ascii") then js "ascii"
  else if bool_decide (lower = js "iso-8859-1") then js "latin1"
  else if bool_decide (lower = js "iso-8859-15") then js "latin1"
  else lower.

(* ===================================================================== *)
(** * shared/shell.ts, jxa/escape.ts *)
(* ===================================================================== *)

Module Shell.

Definition APOSTROPHE : list N := [39%N].

(** [`'${s.replace(/'/g, "'\\''")}'`] *)
Definition shellQuote (s : list N) : list N :=
  APOSTROPHE ++ replaceLit APOSTROPHE (js "'\''") s ++ APOSTROPHE.

(** Code units a shell takes as they are outside quotes: letters, digits
    and [/ . _ -]. *)
Definition isPlain (c : N) : bool :=
  ((48 <=? c) && (c <=? 57) || (65 <=? c) && (c <=? 90)
   || (97 <=? c) && (c <=? 122)
   || (c =? 47) || (c =? 46) || (c =? 95) || (c =? 45))%N.

(** The words a POSIX shell splits a command line into (Shell Command
    Language, 2.2 Quoting): inside single quotes every code unit stands
    for itself up to the closing quote; outside them a backslash makes the
    next code unit literal (and removes a line feed), a space ends the
    word, a plain code unit is itself.  [cur] is the word being read, if
    one has begun.  [None] when a quote is left open or the line holds an
    unquoted code unit of another kind (an operator, an expansion, a
    pattern). *)
Fixpoint shWords (quoted : bool) (cur : option (list N)) (s : list N)
  : option (list (list N)) :=
  match s with
  | [] =>
      if quoted then None
      else Some (match cur with Some w => [w] | None => [] end)
  | c :: s' =>
      let w := default [] cur in
      if quoted then
        if (c =? 39)%N then shWords false (Some w) s'
        else shWords true (Some (w ++ [c])) s'
      else if (c =? 39)%N then shWords true (Some w) s'
      else if (c =? 32)%N then
        match cur with
        | Some w => cons w <$> shWords false None s'
        | None => shWords false None s'
        end
      else if (c =? 92)%N then
        match s' with
        | d :: s'' =>
            if (d =? 10)%N then shWords false cur s''
            else shWords false (Some (w ++ [d])) s''
        | [] => None
        end
      else if isPlain c then shWords false (Some (w ++ [c])) s'
      else None
  end.

Definition SPACE : list N := [32%N].

End Shell.

(** ** The command lines handed to [execSync] *)

Definition PLISTBUDDY : list N := js "/usr/libexec/PlistBuddy".

(** [plistRead], reader.ts lines 18-19. *)
Definition plistReadCommandLine (plistPath command : list N) : list N :=
  PLISTBUDDY ++ js " -c " ++ Shell.shellQuote command ++ Shell.SPACE
  ++ Shell.shellQuote plistPath.

(** [getPlistKeysByPrefix] and [copyPlistKeys], reader.ts lines 82 and
    132. *)
Definition pythonCommandLine (script : list N) : list N :=
  js "python3 -c " ++ Shell.shellQuote script.

(** [OsascriptExecutor.run], executor.ts line 43. *)
Definition osascriptCommandLine (script : list N) : list N :=
  js "osascript -l JavaScript -e " ++ Shell.shellQuote script.

(* ===================================================================== *)
(** * shared/plist/parser.ts: escapeRegex *)
(* ===================================================================== *)

(** The class [[.*+?^${}()|[\]\\]]: the fourteen syntax characters of an
    ECMAScript pattern. *)
Definition isSyntaxCharacter (c : N) : bool :=
  ((c =? 46) || (c =? 42) || (c =? 43) || (c =? 63) || (c =? 94)
   || (c =? 36) || (c =? 123) || (c =? 125) || (c =? 40) || (c =? 41)
   || (c =? 124) || (c =? 91) || (c =? 93) || (c =? 92))%N.

(** [str.replace(/[.*+?^${}()|[\]\\]/g, "\\$&")]: a backslash before each
    match. *)
Fixpoint escapeRegex (str : list N) : list N :=
  match str with
  | [] => []
  | c :: str' =>
      if isSyntaxCharacter c then 92%N :: c :: escapeRegex str'
      else c :: escapeRegex str'
  end.

(** ** Patterns, as the language reads them

    SyntaxCharacter of the ECMAScript pattern grammar, in the order the
    grammar lists them: caret, dollar, backslash, full stop, star, plus,
    question mark, the round, square and curly brackets, vertical bar. *)
Definition SyntaxCharacter : list N := js "^$\.*+?()[]{}|".

Definition isPatternSyntax (c : N) : bool :=
  existsb (fun d => (c =? d)%N) SyntaxCharacter.

(** The text a pattern source matches when it is made of pattern
    characters (any code unit but a SyntaxCharacter, matching itself) and
    identity escapes (a backslash and a SyntaxCharacter, matching that
    character); [None] for a source that holds any other construct. *)
Fixpoint patternLiteral (source : list N) : option (list N) :=
  match source with
  | [] => Some []
  | c :: r =>
      if (c =? 92)%N then
        match r with
        | d :: r' =>
            if isPatternSyntax d then cons d <$> patternLiteral r'
            else None
        | [] => None
        end
      else if isPatternSyntax c then None
      else cons c <$> patternLiteral r
  end.

(** A pattern that begins with the key tag: it matches nowhere else. *)
Definition keyed {A} (keyName : list N) (here : list N -> option A) : Prop :=
  forall s, stripPrefix (keyTag keyName) s = None -> here s = None.

(** ** Blocks as the property lists write them *)

(** [<tag>text</tag>] *)
Definition element (tag text : list N) : list N :=
  js "<" ++ tag ++ js ">" ++ text ++ js "</" ++ tag ++ js ">".

(** A block in which [pre] is followed by the key [keyName], white space
    [ws], the [value] and [rest]. *)
Definition field (pre keyName ws value rest : list N) : list N :=
  pre ++ keyTag keyName ++ ws ++ value ++ rest.

(** [raw]'s first occurrence of the key tag is the one after [pre]. *)
Definition firstKey (pre keyName content : list N) : Prop :=
  indexOf content (keyTag keyName) 0 = len pre.

Definition allSpace (ws : list N) : Prop :=
  Forall (fun c => isSpace c = true) ws.

(** No [<] in the text. *)
Definition noLt (text : list N) : Prop := Forall (fun c => c <> 60%N) text.

(* ===================================================================== *)
(** * What PlistBuddy prints *)
(* ===================================================================== *)

Definition LINE_FEED : list N := [10%N].

Definition INDENT : list N := Eval cbv in js "    ".

(** [Print] of an array of strings: one item a line between the braces. *)
Definition printArray (items : list (list N)) : list N :=
  js "Array {" ++ LINE_FEED
  ++ flat_map (fun item => INDENT ++ item ++ LINE_FEED) items
  ++ js "}".

(** A line of a printed dictionary, without its indentation. *)
Definition dictLine (entry : list N * list N) : list N :=
  fst entry ++ js " = " ++ snd entry.

(** [Print] of a dictionary of numbers: one [key = value] a line. *)
Definition printDict (entries : list (list N * list N)) : list N :=
  js "Dict {" ++ LINE_FEED
  ++ flat_map (fun entry => INDENT ++ dictLine entry ++ LINE_FEED) entries
  ++ js "}".

(** The lines [parsePlistBuddyArray] keeps. *)
Definition isArrayItem (l : list N) : Prop :=
  l <> [] /\ l <> js "Array {" /\ l <> js "}".

Definition noLineFeed (s : list N) : Prop := Forall (fun c => c <> 10%N) s.

(** A key of a printed dictionary: not empty, no white space in it, and
    not [__proto__]. *)
Definition isDictKey (k : list N) : Prop :=
  k <> [] /\ Forall (fun c => isSpace c = false) k /\ k <> js "__proto__".

(** A value of a printed dictionary: not empty, no line terminator in it,
    no white space at either end. *)
Definition isDictValue (v : list N) : Prop :=
  v <> [] /\ Forall (fun c => isLineTerminator c = false) v /\ trim v = v.

(** The text is empty or begins with a code unit that is not white
    space. *)
Definition headNotSpace (s : list N) : Prop :=
  match s with
  | [] => True
  | c :: _ => isSpace c = false
  end.


(** An entry PlistBuddy prints on a line that the pattern of
    [parsePlistBuddyDict] reads back. *)
Definition wellPrinted (entry : list N * list N) : Prop :=
  isDictKey (fst entry) /\ isDictValue (snd entry).

(** A name that a line of output carries unchanged: no line feed in it,
    no white space at either end. *)
Definition plainName (n : list N) : Prop :=
  noLineFeed n /\ headNotSpace n /\ headNotSpace (rev n).

(** The base names of the layouts a store holds under [prefixes], as the
    listing script collects them: what follows a prefix in a key, unless
    it starts with "Outline". *)
Definition isListedName (data : gset (list N)) (prefixes : list (list N))
    (n : list N) : Prop :=
  startsWith (js "Outline") n = false /\
  exists p, In p prefixes /\ p ++ n ∈ data.

(** ** The order of Python strings

    A Python string is a sequence of Unicode scalar values; JavaScript
    holds it in UTF-16, a scalar value from 65536 on as two surrogates. *)
Definition isScalar (p : N) : Prop :=
  (p < 55296 \/ 57343 < p <= 1114111)%N.

Definition utf16Units (p : N) : list N :=
  if (p <? 65536)%N then [p]
  else [(55296 + (p - 65536) / 1024)%N; (56320 + (p - 65536) mod 1024)%N].

Definition utf16 (points : list N) : list N := flat_map utf16Units points.

(** Python's [<=] on strings: at the first place where two strings differ
    the smaller scalar value decides, and a string comes before the
    strings it starts. *)
Inductive pointsLe : list N -> list N -> Prop :=
  | pointsLe_nil b : pointsLe [] b
  | pointsLe_lt x y a b : (x < y)%N -> pointsLe (x :: a) (y :: b)
  | pointsLe_eq x a b : pointsLe a b -> pointsLe (x :: a) (x :: b).

(** The same between two JavaScript strings that hold Python strings. *)
Definition pythonLe (a b : list N) : Prop :=
  exists pa pb,
    Forall isScalar pa /\ Forall isScalar pb /\
    a = utf16 pa /\ b = utf16 pb /\ pointsLe pa pb.

(* ===================================================================== *)
(** * The Python scripts of reader.ts *)
(* ===================================================================== *)

(** The character a one-letter escape of a Python string stands for:
    the quotes and the backslash themselves, then n, r, t, a, b, f, v. *)
Definition pyEscape (d : N) : option N :=
  (if (d =? 39) || (d =? 34) || (d =? 92) then Some d
   else if d =? 110 then Some 10
   else if d =? 114 then Some 13
   else if d =? 116 then Some 9
   else if d =? 97 then Some 7
   else if d =? 98 then Some 8
   else if d =? 102 then Some 12
   else if d =? 118 then Some 11
   else None)%N.

(** The text of a single-quoted Python literal after its opening quote,
    when the literal ends with the input (Python reference, 2.4.1): a
    quote closes it, a line break in it is an error, a backslash starts an
    escape.  The octal, hexadecimal and Unicode escapes and a backslash
    before a line break or any other character are left out of this
    model: [None] for them too. *)
Fixpoint pyBody (s : list N) : option (list N) :=
  match s with
  | [] => None
  | c :: s' =>
      if (c =? 39)%N then
        match s' with
        | [] => Some []
        | _ :: _ => None
        end
      else if ((c =? 10) || (c =? 13))%N then None
      else if (c =? 92)%N then
        match s' with
        | d :: s'' =>
            match pyEscape d with
            | Some e => cons e <$> pyBody s''
            | None => None
            end
        | [] => None
        end
      else cons c <$> pyBody s'
  end.

Definition pyStringLiteral (source : list N) : option (list N) :=
  match source with
  | 39%N :: s => pyBody s
  | _ => None
  end.

(** Neither a backslash nor a line break. *)
Definition pythonPlain (s : list N) : Prop :=
  Forall (fun c => c <> 92%N /\ c <> 10%N /\ c <> 13%N) s.

(** The key under which [suffix] stores the layout of [name]. *)
Definition layoutKey (suffix name : list N) : list N :=
  suffix ++ js "-" ++ name.

(** The target keys the copy script reports for a store: one for each
    suffix whose source key the store holds. *)
Definition copiedKeys {Value} (data : gmap (list N) Value)
    (suffixes : list (list N)) (source target : list N) : list (list N) :=
  omap (fun suffix =>
          match data !! layoutKey suffix source with
          | Some _ => Some (layoutKey suffix target)
          | None => None
          end) suffixes.

(* ===================================================================== *)
(** * E-mail headers *)
(* ===================================================================== *)

(** [<inner>] *)
Definition angle (inner : list N) : list N := 60%N :: inner ++ [62%N].

(** No [>] in the text. *)
Definition noGt (text : list N) : Prop := Forall (fun c => c <> 62%N) text.

(** A message identifier as the pattern of [parseReferences] matches it:
    [<], one or more code units other than [>], [>]. *)
Definition isMessageId (r : list N) : Prop :=
  exists inner, r = angle inner /\ inner <> [] /\ noGt inner.

(** A [References] value: identifiers, each after text without [<], and
    text without [<] at the end. *)
Definition referencesText (items : list (list N * list N)) (tail : list N)
  : list N :=
  flat_map (fun item => fst item ++ angle (snd item)) items ++ tail.

(** ** The Q encoding, written *)

Definition hexDigit (n : N) : N := (if n <? 10 then 48 + n else 55 + n)%N.

(** Printable ASCII other than [=], [?] and [_] stands for itself. *)
Definition qSafe (b : N) : bool :=
  ((33 <=? b) && (b <=? 126)
   && negb ((b =? 61) || (b =? 63) || (b =? 95)))%N.

(** A byte in the Q encoding of RFC 2047: a space as an underscore, a
    safe character as itself, any other byte as [=] and two hexadecimal
    digits. *)
Definition qEncodeByte (b : N) : list N :=
  if (b =? 32)%N then [95%N]
  else if qSafe b then [b]
  else [61%N; hexDigit (b / 16); hexDigit (b mod 16)].

Definition qEncode (bytes : list N) : list N := flat_map qEncodeByte bytes.

Definition isByte (b : N) : Prop := (b < 256)%N.
(* ===================================================================== *)
(** * Facts about strings and searching *)
(* ===================================================================== *)

Section StringFacts.

Lemma len_app {A} (a b : list A) : len (a ++ b) = len a + len b.
Proof. unfold len. rewrite length_app. lia. Qed.

Lemma len_nonneg {A} (a : list A) : 0 <= len a.
Proof. unfold len. lia. Qed.

Lemma startsWith_app p r : startsWith p (p ++ r) = true.
Proof.
  induction p as [|a p IH]; simpl; [reflexivity|].
  rewrite N.eqb_refl. exact IH.
Qed.

Lemma startsWith_inv p s :
  startsWith p s = true -> exists r, s = p ++ r.
Proof.
  revert s. induction p as [|a p IH]; intros s H.
  - exists s. reflexivity.
  - destruct s as [|b s]; simpl in H; [discriminate|].
    apply andb_true_iff in H as [Hab Hp].
    apply N.eqb_eq in Hab. subst b.
    destruct (IH _ Hp) as [r ->]. exists r. reflexivity.
Qed.

(** A needle that matches across the end of [u] continues into [r]. *)
Lemma startsWith_straddle p u r :
  startsWith p (u ++ r) = true ->
  startsWith p u = true \/
  exists p1 p2, p = p1 ++ p2 /\ p1 = u /\ p2 <> [] /\ startsWith p2 r = true.
Proof.
  revert p. induction u as [|c u IH]; intros p H.
  - destruct p as [|a p]; [left; reflexivity|].
    right. exists [], (a :: p). repeat split; [discriminate | exact H].
  - destruct p as [|a p]; [left; reflexivity|].
    simpl in H. apply andb_true_iff in H as [Hac Hp].
    destruct (IH _ Hp) as [Hu | (p1 & p2 & -> & <- & Hne & H2)].
    + left. simpl. rewrite Hac. exact Hu.
    + right. apply N.eqb_eq in Hac. subst c.
      exists (a :: p1), p2. repeat split; assumption.
Qed.

Lemma findFrom_find needle s k :
  findFrom needle s k =
  match find needle s with Some i => k + Z.of_nat i | None => -1 end.
Proof.
  revert k. induction s as [|c s IH]; intros k; simpl.
  - destruct (startsWith needle []); [lia | reflexivity].
  - destruct (startsWith needle (c :: s)); [lia|].
    rewrite IH. destruct (find needle s); simpl; lia.
Qed.

Lemma indexOf_find s needle from :
  0 <= from <= len s ->
  indexOf s needle from =
  match find needle (drop (Z.to_nat from) s) with
  | Some i => from + Z.of_nat i
  | None => -1
  end.
Proof.
  intros H. unfold indexOf.
  replace (Z.max 0 (Z.min from (len s))) with from by lia.
  apply findFrom_find.
Qed.

Lemma indexOf_app_pre pre r needle :
  indexOf (pre ++ r) needle (len pre) =
  match find needle r with
  | Some i => len pre + Z.of_nat i
  | None => -1
  end.
Proof.
  rewrite indexOf_find.
  - unfold len. rewrite Nat2Z.id, drop_app_length. reflexivity.
  - rewrite len_app. pose proof (len_nonneg pre). pose proof (len_nonneg r). lia.
Qed.

Lemma find_Some_occurs needle s i :
  find needle s = Some i ->
  startsWith needle (drop i s) = true /\ (i + length needle <= length s)%nat.
Proof.
  revert i. induction s as [|c s IH]; intros i; simpl.
  - destruct (startsWith needle []) eqn:E; [|discriminate].
    intros [= <-]. split; [exact E|].
    destruct needle; [simpl; lia | discriminate].
  - destruct (startsWith needle (c :: s)) eqn:E.
    + intros [= <-]. split; [exact E|].
      apply startsWith_inv in E as [r E].
      apply (f_equal (@length N)) in E. rewrite length_app in E.
      simpl in *. lia.
    + destruct (find needle s) as [j|]; [|discriminate].
      intros [= <-]. destruct (IH j eq_refl) as [H1 H2].
      split; [exact H1 | simpl; lia].
Qed.

Lemma find_None_suffix needle s i :
  find needle s = None -> startsWith needle (drop i s) = false.
Proof.
  revert i. induction s as [|c s IH]; intros i; simpl.
  - destruct (startsWith needle []) eqn:E; [discriminate|].
    intros _. destruct i; exact E.
  - destruct (startsWith needle (c :: s)) eqn:E; [discriminate|].
    destruct (find needle s) eqn:F; [discriminate|].
    intros _. destruct i; [exact E | apply IH; reflexivity].
Qed.

Lemma find_first needle s i j :
  find needle s = Some i -> (j < i)%nat -> startsWith needle (drop j s) = false.
Proof.
  revert i j. induction s as [|c s IH]; intros i j; simpl.
  - destruct (startsWith needle []); [|discriminate]. intros [= <-]. lia.
  - destruct (startsWith needle (c :: s)) eqn:E.
    + intros [= <-]. lia.
    + destruct (find needle s) as [k|] eqn:F; [|discriminate].
      intros [= <-] Hj. destruct j; [exact E|].
      apply (IH k); [reflexivity | lia].
Qed.

Lemma find_skip needle t r :
  noStart needle t r ->
  find needle (t ++ r) = (fun i => (length t + i)%nat) <$> find needle r.
Proof.
  induction t as [|c t IH]; intros H.
  - simpl. destruct (find needle r); reflexivity.
  - simpl. pose proof (H O ltac:(simpl; lia)) as H0. simpl in H0. rewrite H0.
    rewrite IH.
    + destruct (find needle r); reflexivity.
    + intros i Hi. apply (H (S i)). simpl. lia.
Qed.

Lemma find_exists needle a b :
  exists i, find needle (a ++ needle ++ b) = Some i /\ (i <= length a)%nat.
Proof.
  induction a as [|c a IH].
  - exists O. simpl. destruct needle as [|x needle]; simpl.
    + destruct b; split; auto.
    + rewrite N.eqb_refl, startsWith_app. split; [reflexivity | lia].
  - destruct IH as (i & Hi & Hle). simpl.
    destruct (startsWith needle (c :: a ++ needle ++ b)).
    + exists O. split; [reflexivity | lia].
    + exists (S i). rewrite Hi. split; [reflexivity | simpl; lia].
Qed.

Lemma indexOf0_cases s needle :
  (indexOf s needle 0 = -1 /\ find needle s = None) \/
  (exists i, indexOf s needle 0 = Z.of_nat i /\ find needle s = Some i).
Proof.
  rewrite indexOf_find by (pose proof (len_nonneg s); lia).
  change (drop (Z.to_nat 0) s) with s.
  destruct (find needle s) as [i|]; [right | left; split; reflexivity].
  exists i. split; [lia | reflexivity].
Qed.

Lemma occurrence_split needle s i :
  find needle s = Some i ->
  exists rest, s = take i s ++ needle ++ rest /\ (i <= length s)%nat.
Proof.
  intros H. destruct (find_Some_occurs _ _ _ H) as [Hs Hlen].
  apply startsWith_inv in Hs as [rest Hrest].
  exists rest. rewrite <- Hrest, take_drop. split; [reflexivity | lia].
Qed.

End StringFacts.

Section TagFacts.

Lemma indexOf_none_find t X : indexOf t X 0 = -1 -> find X t = None.
Proof.
  rewrite indexOf_find by (pose proof (len_nonneg t); lia).
  change (drop (Z.to_nat 0) t) with t.
  destruct (find X t); [intros ?; lia | reflexivity].
Qed.

Lemma startsLt_OPEN r : startsLt (OPEN ++ r).
Proof. right. eexists. reflexivity. Qed.

Lemma startsLt_CLOSE r : startsLt (CLOSE ++ r).
Proof. right. eexists. reflexivity. Qed.

Lemma text_noStart X t r :
  X = OPEN \/ X = CLOSE -> find X t = None -> startsLt r -> noStart X t r.
Proof.
  intros HX Hfind Hr i Hi.
  destruct (startsWith X (drop i t ++ r)) eqn:E; [|reflexivity].
  exfalso.
  apply startsWith_straddle in E as [E | (p1 & p2 & HXeq & Hp1 & Hne & H2)].
  - rewrite (find_None_suffix _ _ i Hfind) in E. discriminate.
  - assert (Hp2 : exists p2', p2 = 60%N :: p2').
    { destruct Hr as [-> | [r' ->]].
      - destruct p2; [contradiction | discriminate].
      - destruct p2 as [|a p2]; [contradiction|]. simpl in H2.
        apply andb_true_iff in H2 as [H2 _]. apply N.eqb_eq in H2. subst a.
        eexists. reflexivity. }
    destruct Hp2 as [p2' ->].
    destruct p1 as [|c p1].
    { apply (f_equal (@length N)) in Hp1. rewrite length_drop in Hp1.
      simpl in Hp1. lia. }
    assert (Hin : In 60%N (tail X)).
    { rewrite HXeq. simpl. apply in_elt. }
    destruct HX as [-> | ->]; simpl in Hin;
      repeat (destruct Hin as [Hin | Hin]; [discriminate|]); exact Hin.
Qed.

Lemma OPEN_noStart_CLOSE r : noStart CLOSE OPEN r.
Proof. intros i Hi. do 6 (destruct i as [|i]; [reflexivity|]). simpl in Hi. lia. Qed.

Lemma CLOSE_noStart_OPEN r : noStart OPEN CLOSE r.
Proof. intros i Hi. do 7 (destruct i as [|i]; [reflexivity|]). simpl in Hi. lia. Qed.

Lemma find_OPEN_text_OPEN t r :
  find OPEN t = None -> find OPEN (t ++ OPEN ++ r) = Some (length t).
Proof.
  intros H. rewrite find_skip by (apply text_noStart; auto using startsLt_OPEN).
  simpl. f_equal. lia.
Qed.

Lemma find_CLOSE_text_CLOSE t r :
  find CLOSE t = None -> find CLOSE (t ++ CLOSE ++ r) = Some (length t).
Proof.
  intros H. rewrite find_skip by (apply text_noStart; auto using startsLt_CLOSE).
  simpl. f_equal. lia.
Qed.

Lemma find_CLOSE_text_OPEN t r :
  find CLOSE t = None ->
  find CLOSE (t ++ OPEN ++ r) =
  (fun i => (length t + 6 + i)%nat) <$> find CLOSE r.
Proof.
  intros H. rewrite find_skip by (apply text_noStart; auto using startsLt_OPEN).
  rewrite find_skip by apply OPEN_noStart_CLOSE.
  destruct (find CLOSE r); simpl; [f_equal; lia | reflexivity].
Qed.

Lemma find_OPEN_text_CLOSE t r :
  find OPEN t = None ->
  find OPEN (t ++ CLOSE ++ r) =
  (fun i => (length t + 7 + i)%nat) <$> find OPEN r.
Proof.
  intros H. rewrite find_skip by (apply text_noStart; auto using startsLt_CLOSE).
  rewrite find_skip by apply CLOSE_noStart_OPEN.
  destruct (find OPEN r); simpl; [f_equal; lia | reflexivity].
Qed.

End TagFacts.

(* ===================================================================== *)
(** * The scanning loops terminate *)
(* ===================================================================== *)

Section Fuel.

Lemma indexOf_range s X from :
  0 <= from <= len s ->
  indexOf s X from = -1 \/
  (from <= indexOf s X from /\ indexOf s X from + len X <= len s).
Proof.
  intros H. rewrite indexOf_find by exact H.
  destruct (find X (drop (Z.to_nat from) s)) as [i|] eqn:E; [right | left; reflexivity].
  apply find_Some_occurs in E as [_ E]. rewrite length_drop in E.
  unfold len in *. lia.
Qed.

Lemma len_OPEN : len OPEN = 6. Proof. reflexivity. Qed.
Lemma len_CLOSE : len CLOSE = 7. Proof. reflexivity. Qed.

Lemma depthScan_irrel f1 :
  forall f2 xml d cur,
    0 <= cur ->
    (Z.to_nat (len xml - cur) < f1)%nat ->
    (Z.to_nat (len xml - cur) < f2)%nat ->
    depthScan f1 xml d cur = depthScan f2 xml d cur.
Proof.
  induction f1 as [|f1 IH]; intros f2 xml d cur Hc H1 H2; [lia|].
  destruct f2 as [|f2]; [lia|]. simpl.
  destruct (cur <? len xml) eqn:Hlt; simpl; [|reflexivity].
  apply Z.ltb_lt in Hlt.
  destruct (0 <? d); [|reflexivity].
  pose proof (indexOf_range xml OPEN cur ltac:(lia)) as HO.
  pose proof (indexOf_range xml CLOSE cur ltac:(lia)) as HC.
  rewrite len_OPEN in HO. rewrite len_CLOSE in HC.
  destruct (indexOf xml CLOSE cur =? -1) eqn:E1; [reflexivity|].
  apply Z.eqb_neq in E1.
  destruct (indexOf xml OPEN cur =? -1) eqn:E2; simpl.
  - destruct (d - 1 =? 0); [reflexivity|]. apply IH; lia.
  - apply Z.eqb_neq in E2.
    destruct (indexOf xml OPEN cur <? indexOf xml CLOSE cur).
    + apply IH; lia.
    + destruct (d - 1 =? 0); [reflexivity|]. apply IH; lia.
Qed.

Lemma depthScan_total f :
  forall xml d cur,
    0 <= cur -> (Z.to_nat (len xml - cur) < f)%nat ->
    is_Some (depthScan f xml d cur).
Proof.
  induction f as [|f IH]; intros xml d cur Hc H1; [lia|]. simpl.
  destruct (cur <? len xml) eqn:Hlt; simpl; [|eauto].
  apply Z.ltb_lt in Hlt.
  destruct (0 <? d); [|eauto].
  pose proof (indexOf_range xml OPEN cur ltac:(lia)) as HO.
  pose proof (indexOf_range xml CLOSE cur ltac:(lia)) as HC.
  rewrite len_OPEN in HO. rewrite len_CLOSE in HC.
  destruct (indexOf xml CLOSE cur =? -1) eqn:E1; [eauto|].
  apply Z.eqb_neq in E1.
  destruct (indexOf xml OPEN cur =? -1) eqn:E2; simpl.
  - destruct (d - 1 =? 0); [eauto|]. apply IH; lia.
  - apply Z.eqb_neq in E2.
    destruct (indexOf xml OPEN cur <? indexOf xml CLOSE cur).
    + apply IH; lia.
    + destruct (d - 1 =? 0); [eauto|]. apply IH; lia.
Qed.

Lemma depthScan_Closed_range f :
  forall xml d cur c,
    0 <= cur -> depthScan f xml d cur = Some (Closed c) ->
    cur <= c /\ c + 7 <= len xml.
Proof.
  induction f as [|f IH]; intros xml d cur c Hc; simpl; [discriminate|].
  destruct (cur <? len xml) eqn:Hlt; simpl; [|discriminate].
  apply Z.ltb_lt in Hlt.
  destruct (0 <? d); [|discriminate].
  pose proof (indexOf_range xml OPEN cur ltac:(lia)) as HO.
  pose proof (indexOf_range xml CLOSE cur ltac:(lia)) as HC.
  rewrite len_OPEN in HO. rewrite len_CLOSE in HC.
  destruct (indexOf xml CLOSE cur =? -1) eqn:E1; [discriminate|].
  apply Z.eqb_neq in E1.
  destruct (indexOf xml OPEN cur =? -1) eqn:E2; simpl.
  - destruct (d - 1 =? 0).
    + intros [= <-]. lia.
    + intros H. apply IH in H; lia.
  - apply Z.eqb_neq in E2.
    destruct (indexOf xml OPEN cur <? indexOf xml CLOSE cur).
    + intros H. apply IH in H; lia.
    + destruct (d - 1 =? 0).
      * intros [= <-]. lia.
      * intros H. apply IH in H; lia.
Qed.

Lemma depthScan_S f xml depth cur :
  depthScan (S f) xml depth cur =
  if (cur <? len xml) && (0 <? depth) then
    let nextOpen := indexOf xml OPEN cur in
    let nextClose := indexOf xml CLOSE cur in
    if nextClose =? -1 then Some (Unclosed depth)
    else if negb (nextOpen =? -1) && (nextOpen <? nextClose) then
      depthScan f xml (depth + 1) (nextOpen + 6)
    else
      if depth - 1 =? 0 then Some (Closed nextClose)
      else depthScan f xml (depth - 1) (nextClose + 7)
  else Some (Unclosed depth).
Proof. reflexivity. Qed.

Lemma scanTop_S f xml pos results :
  scanTop (S f) xml pos results =
  if pos <? len xml then
    let openIdx := indexOf xml OPEN pos in
    if openIdx =? -1 then Some results
    else
      match depthScan (S (length xml)) xml 1 (openIdx + 6) with
      | None => None
      | Some (Closed nextClose) =>
          scanTop f xml (nextClose + 7)
            (results ++ [slice xml (openIdx + 6) nextClose])
      | Some (Unclosed _) => Some results
      end
  else Some results.
Proof. reflexivity. Qed.

(** [scan] satisfies the loop's own equation. *)
Lemma scan_unfold xml depth cur :
  0 <= cur ->
  scan xml depth cur =
  if (cur <? len xml) && (0 <? depth) then
    let nextOpen := indexOf xml OPEN cur in
    let nextClose := indexOf xml CLOSE cur in
    if nextClose =? -1 then Some (Unclosed depth)
    else if negb (nextOpen =? -1) && (nextOpen <? nextClose) then
      scan xml (depth + 1) (nextOpen + 6)
    else
      if depth - 1 =? 0 then Some (Closed nextClose)
      else scan xml (depth - 1) (nextClose + 7)
  else Some (Unclosed depth).
Proof.
  intros Hc. unfold scan. rewrite depthScan_S. cbv zeta.
  destruct (cur <? len xml) eqn:Hlt; cbn [andb]; [|reflexivity].
  apply Z.ltb_lt in Hlt.
  destruct (0 <? depth); [|reflexivity].
  pose proof (indexOf_range xml OPEN cur ltac:(lia)) as HO.
  pose proof (indexOf_range xml CLOSE cur ltac:(lia)) as HC.
  rewrite len_OPEN in HO. rewrite len_CLOSE in HC.
  destruct (indexOf xml CLOSE cur =? -1) eqn:E1; [reflexivity|].
  apply Z.eqb_neq in E1.
  unfold len in *.
  destruct (indexOf xml OPEN cur =? -1) eqn:E2; cbn [andb negb].
  - destruct (depth - 1 =? 0); [reflexivity|].
    apply depthScan_irrel; unfold len; lia.
  - apply Z.eqb_neq in E2.
    destruct (indexOf xml OPEN cur <? indexOf xml CLOSE cur).
    + apply depthScan_irrel; unfold len; lia.
    + destruct (depth - 1 =? 0); [reflexivity|].
      apply depthScan_irrel; unfold len; lia.
Qed.

Lemma scanTop_irrel f1 :
  forall f2 xml pos results,
    0 <= pos ->
    (Z.to_nat (len xml - pos) < f1)%nat ->
    (Z.to_nat (len xml - pos) < f2)%nat ->
    scanTop f1 xml pos results = scanTop f2 xml pos results.
Proof.
  induction f1 as [|f1 IH]; intros f2 xml pos results Hp H1 H2; [lia|].
  destruct f2 as [|f2]; [lia|]. rewrite !scanTop_S. cbv zeta.
  destruct (pos <? len xml) eqn:Hlt; [|reflexivity].
  apply Z.ltb_lt in Hlt.
  pose proof (indexOf_range xml OPEN pos ltac:(lia)) as HO.
  rewrite len_OPEN in HO.
  destruct (indexOf xml OPEN pos =? -1) eqn:E1; [reflexivity|].
  apply Z.eqb_neq in E1.
  destruct (depthScan (S (length xml)) xml 1 (indexOf xml OPEN pos + 6))
    as [[c|d]|] eqn:E; try reflexivity.
  apply depthScan_Closed_range in E; [|lia].
  apply IH; lia.
Qed.

Lemma scanTop_total f :
  forall xml pos results,
    0 <= pos -> (Z.to_nat (len xml - pos) < f)%nat ->
    is_Some (scanTop f xml pos results).
Proof.
  induction f as [|f IH]; intros xml pos results Hp H1; [lia|].
  rewrite scanTop_S. cbv zeta.
  destruct (pos <? len xml) eqn:Hlt; [|eauto].
  apply Z.ltb_lt in Hlt.
  pose proof (indexOf_range xml OPEN pos ltac:(lia)) as HO.
  rewrite len_OPEN in HO.
  destruct (indexOf xml OPEN pos =? -1) eqn:E1; [eauto|].
  apply Z.eqb_neq in E1.
  destruct (depthScan_total (S (length xml)) xml 1 (indexOf xml OPEN pos + 6))
    as [[c|d] E]; [lia | unfold len; lia | |]; rewrite E; [|eauto].
  apply depthScan_Closed_range in E; [|lia].
  apply IH; lia.
Qed.

Lemma execFrom_index {A} (here : list N -> option A) s :
  forall k i r, execFrom here s k = Some (i, r) -> k <= i.
Proof.
  induction s as [|c s IH]; intros k i r; cbn [execFrom].
  - destruct (here []); [intros [= <- _]; lia | discriminate].
  - destruct (here (c :: s)); [intros [= <- _]; lia|].
    intros H. apply IH in H. lia.
Qed.

Lemma length_trimStart s : (length (trimStart s) <= length s)%nat.
Proof.
  induction s as [|c s IH]; cbn [trimStart length]; [lia|].
  destruct (isSpace c); cbn [length]; lia.
Qed.

Lemma subDictHere_length keyName s n :
  subDictHere keyName s = Some n -> 6 <= n.
Proof.
  unfold subDictHere, stripPrefix.
  destruct (startsWith (keyTag keyName) s); [|discriminate].
  cbn [mbind option_bind].
  destruct (startsWith OPEN _); [|discriminate].
  intros [= <-].
  match goal with
  | |- context [trimStart (drop ?k s)] =>
      pose proof (length_trimStart (drop k s)) as H;
      rewrite length_drop in H
  end.
  unfold len. lia.
Qed.

(** The loop of [extractSubDictAfterKey] does not use up its fuel. *)
Lemma extractSubDictAfterKey_fuel content keyName index matchLength :
  execFrom (subDictHere keyName) content 0 = Some (index, matchLength) ->
  is_Some (depthScan (S (length content)) content 1 (index + matchLength)).
Proof.
  intros H.
  assert (Hn : 6 <= matchLength).
  { revert H. generalize 0. induction content as [|c s IH]; intros k;
      cbn [execFrom].
    - destruct (subDictHere keyName []) eqn:E; [|discriminate].
      intros [= _ <-]. exact (subDictHere_length _ _ _ E).
    - destruct (subDictHere keyName (c :: s)) eqn:E.
      + intros [= _ <-]. exact (subDictHere_length _ _ _ E).
      + apply IH. }
  apply execFrom_index in H.
  apply depthScan_total; [lia | unfold len; lia].
Qed.

(** The fuel given to the loops is never used up. *)
Lemma extractTopLevelDicts_total xml :
  extractTopLevelDicts_fuel xml = Some (extractTopLevelDicts xml).
Proof.
  unfold extractTopLevelDicts.
  destruct (scanTop_total (S (length xml)) xml 0 []) as [r E];
    [lia | unfold len; lia |].
  unfold extractTopLevelDicts_fuel. rewrite E. reflexivity.
Qed.

Lemma top_unfold xml pos results :
  0 <= pos ->
  top xml pos results =
  if pos <? len xml then
    let openIdx := indexOf xml OPEN pos in
    if openIdx =? -1 then Some results
    else
      match scan xml 1 (openIdx + 6) with
      | None => None
      | Some (Closed nextClose) =>
          top xml (nextClose + 7)
            (results ++ [slice xml (openIdx + 6) nextClose])
      | Some (Unclosed _) => Some results
      end
  else Some results.
Proof.
  intros Hp. unfold top. rewrite scanTop_S. cbv zeta.
  destruct (pos <? len xml) eqn:Hlt; [|reflexivity].
  apply Z.ltb_lt in Hlt.
  pose proof (indexOf_range xml OPEN pos ltac:(lia)) as HO.
  rewrite len_OPEN in HO.
  destruct (indexOf xml OPEN pos =? -1) eqn:E1; [reflexivity|].
  apply Z.eqb_neq in E1. unfold scan.
  destruct (depthScan (S (length xml)) xml 1 (indexOf xml OPEN pos + 6))
    as [[c|d]|] eqn:E; try reflexivity.
  apply depthScan_Closed_range in E; [|lia].
  apply scanTop_irrel; unfold len in *; lia.
Qed.

End Fuel.

(* ===================================================================== *)
(** * The depth-tracking scan on documents *)
(* ===================================================================== *)

Section Scan.

(** Decide the integer tests of a loop guard by arithmetic. *)
Ltac ztest :=
  repeat match goal with
    | |- context [?a <? ?b] =>
        first [ rewrite (proj2 (Z.ltb_lt a b)) by (unfold len in *; lia)
              | rewrite (proj2 (Z.ltb_ge a b)) by (unfold len in *; lia) ]
    | |- context [?a =? ?b] =>
        first [ rewrite (proj2 (Z.eqb_eq a b)) by (unfold len in *; lia)
              | rewrite (proj2 (Z.eqb_neq a b)) by (unfold len in *; lia) ]
    end; cbn [andb negb orb].

Lemma len_render_nonneg m : 0 <= len (render m).
Proof. apply len_nonneg. Qed.

Lemma scan_body m :
  wfInner m ->
  forall pre rest d, 1 <= d ->
    scan (pre ++ render m ++ CLOSE ++ rest) d (len pre) =
    if d =? 1 then Some (Closed (len pre + len (render m)))
    else scan (pre ++ render m ++ CLOSE ++ rest) (d - 1)
              (len pre + len (render m) + 7).
Proof.
  induction m as [t | t b IHb r IHr]; cbn [render wfInner];
    intros Hwf pre rest d Hd.
  - destruct Hwf as [HO HC].
    apply indexOf_none_find in HO, HC.
    pose proof (len_nonneg pre). pose proof (len_nonneg t).
    pose proof (len_nonneg rest).
    rewrite scan_unfold by lia. cbv zeta.
    rewrite !indexOf_app_pre.
    rewrite find_CLOSE_text_CLOSE, find_OPEN_text_CLOSE by assumption.
    rewrite ?len_app, ?len_OPEN, ?len_CLOSE.
    destruct (find OPEN rest) as [i|]; cbn [fmap option_fmap option_map];
      destruct (d =? 1) eqn:E; ztest; fold (len t); reflexivity.
  - destruct Hwf as ([HO HC] & Hb & Hr).
    apply indexOf_none_find in HO, HC.
    pose proof (len_nonneg pre). pose proof (len_nonneg t).
    pose proof (len_nonneg rest). pose proof (len_render_nonneg b).
    pose proof (len_render_nonneg r).
    rewrite scan_unfold by lia. cbv zeta.
    rewrite !indexOf_app_pre.
    rewrite <- !app_assoc.
    rewrite find_OPEN_text_OPEN, find_CLOSE_text_OPEN by assumption.
    destruct (find_exists CLOSE (render b) (render r ++ CLOSE ++ rest))
      as (j & Hj & _).
    rewrite Hj. cbn [fmap option_fmap option_map].
    rewrite ?len_app, ?len_OPEN, ?len_CLOSE.
    fold (len t). ztest.
    specialize (IHb Hb (pre ++ t ++ OPEN) (render r ++ CLOSE ++ rest) (d + 1)
                  ltac:(lia)).
    rewrite <- !app_assoc in IHb.
    rewrite ?len_app, ?len_OPEN, ?len_CLOSE in IHb.
    replace (len pre + len t + 6) with (len pre + (len t + 6)) by lia.
    rewrite IHb. ztest.
    specialize (IHr Hr (pre ++ t ++ OPEN ++ render b ++ CLOSE) rest d Hd).
    rewrite <- !app_assoc in IHr.
    rewrite ?len_app, ?len_OPEN, ?len_CLOSE in IHr.
    replace (d + 1 - 1) with d by lia.
    replace (len pre + (len t + 6) + len (render b) + 7)
      with (len pre + (len t + (6 + (len (render b) + 7)))) by lia.
    rewrite IHr.
    destruct (d =? 1); [f_equal; f_equal; lia | f_equal; lia].
Qed.

Lemma slice_middle {A} (a b c : list A) :
  slice (a ++ b ++ c) (len a) (len a + len b) = b.
Proof.
  pose proof (len_nonneg a). pose proof (len_nonneg b).
  pose proof (len_nonneg c).
  unfold slice, sliceIndex. rewrite ?len_app. ztest.
  replace (Z.min (len a) (len a + (len b + len c))) with (len a) by lia.
  replace (Z.min (len a + len b) (len a + (len b + len c)) - len a)
    with (len b) by lia.
  unfold len. rewrite !Nat2Z.id, drop_app_length, take_app_length.
  reflexivity.
Qed.

Lemma scan_partial p :
  wfPartial p ->
  forall pre d, 1 <= d ->
    exists d', d <= d' /\
      scan (pre ++ renderPartial p) d (len pre) = Some (Unclosed d').
Proof.
  induction p as [t | t b r IHr | t r IHr]; cbn [renderPartial wfPartial];
    intros Hwf pre d Hd.
  - destruct Hwf as [HO HC]. apply indexOf_none_find in HO, HC.
    exists d. split; [lia|].
    pose proof (len_nonneg pre).
    rewrite scan_unfold by lia. cbv zeta.
    rewrite !indexOf_app_pre, HC.
    destruct (_ && _); reflexivity.
  - destruct Hwf as ([HO HC] & Hb & Hr).
    apply indexOf_none_find in HO, HC.
    pose proof (len_nonneg pre). pose proof (len_nonneg t).
    pose proof (len_render_nonneg b). pose proof (len_nonneg (renderPartial r)).
    rewrite scan_unfold by lia. cbv zeta.
    rewrite !indexOf_app_pre.
    rewrite find_OPEN_text_OPEN, find_CLOSE_text_OPEN by assumption.
    destruct (find_exists CLOSE (render b) (renderPartial r)) as (j & Hj & _).
    rewrite Hj. cbn [fmap option_fmap option_map].
    rewrite ?len_app, ?len_OPEN, ?len_CLOSE.
    fold (len t). ztest.
    pose proof (scan_body b Hb (pre ++ t ++ OPEN) (renderPartial r) (d + 1)
                  ltac:(lia)) as Eb.
    rewrite <- !app_assoc in Eb.
    rewrite ?len_app, ?len_OPEN, ?len_CLOSE in Eb.
    replace (len pre + len t + 6) with (len pre + (len t + 6)) by lia.
    rewrite Eb. ztest.
    destruct (IHr Hr (pre ++ t ++ OPEN ++ render b ++ CLOSE) d Hd)
      as (d' & Hd' & Er).
    rewrite <- !app_assoc in Er.
    rewrite ?len_app, ?len_OPEN, ?len_CLOSE in Er.
    exists d'. split; [exact Hd'|].
    replace (d + 1 - 1) with d by lia.
    replace (len pre + (len t + 6) + len (render b) + 7)
      with (len pre + (len t + (6 + (len (render b) + 7)))) by lia.
    exact Er.
  - destruct Hwf as ([HO HC] & Hr).
    apply indexOf_none_find in HO, HC.
    pose proof (len_nonneg pre). pose proof (len_nonneg t).
    pose proof (len_nonneg (renderPartial r)).
    rewrite scan_unfold by lia. cbv zeta.
    rewrite !indexOf_app_pre.
    rewrite find_OPEN_text_OPEN, find_CLOSE_text_OPEN by assumption.
    rewrite ?len_app, ?len_OPEN, ?len_CLOSE.
    destruct (find CLOSE (renderPartial r)) as [j|];
      cbn [fmap option_fmap option_map]; fold (len t); ztest.
    + destruct (IHr Hr (pre ++ t ++ OPEN) (d + 1) ltac:(lia))
        as (d' & Hd' & Er).
      rewrite <- !app_assoc in Er.
      rewrite ?len_app, ?len_OPEN, ?len_CLOSE in Er.
      exists d'. split; [lia|].
      replace (len pre + len t + 6) with (len pre + (len t + 6)) by lia.
      exact Er.
    + exists d. split; [lia | reflexivity].
Qed.

Lemma startsLt_ending e : startsLt (renderEnding e).
Proof. destruct e; [left; reflexivity | apply startsLt_OPEN]. Qed.

Lemma top_document m e :
  wfTop m -> wfEnding e ->
  forall pre results,
    top (pre ++ render m ++ renderEnding e) (len pre) results =
    Some (results ++ blocks m).
Proof.
  intros Hm He. induction m as [t | t b _ r IHr]; cbn [render wfTop blocks] in *;
    intros pre results.
  - apply indexOf_none_find in Hm.
    pose proof (len_nonneg pre). pose proof (len_nonneg t).
    rewrite app_nil_r.
    rewrite top_unfold by lia. cbv zeta.
    rewrite indexOf_app_pre.
    destruct e as [|p]; cbn [renderEnding wfEnding] in *.
    + rewrite app_nil_r, Hm. destruct (_ <? _); reflexivity.
    + rewrite find_OPEN_text_OPEN by assumption.
      pose proof (len_nonneg (renderPartial p)).
      rewrite ?len_app, ?len_OPEN. fold (len t). ztest.
      destruct (scan_partial p He (pre ++ t ++ OPEN) 1 ltac:(lia))
        as (d' & _ & E).
      rewrite <- !app_assoc in E.
      rewrite ?len_app, ?len_OPEN in E.
      replace (len pre + len t + 6) with (len pre + (len t + 6)) by lia.
      rewrite E. reflexivity.
  - destruct Hm as (HO & Hb & Hr). apply indexOf_none_find in HO.
    pose proof (len_nonneg pre). pose proof (len_nonneg t).
    pose proof (len_render_nonneg b). pose proof (len_render_nonneg r).
    pose proof (len_nonneg (renderEnding e)).
    rewrite <- !app_assoc.
    rewrite top_unfold by lia. cbv zeta.
    rewrite indexOf_app_pre.
    rewrite find_OPEN_text_OPEN by assumption.
    rewrite ?len_app, ?len_OPEN, ?len_CLOSE. fold (len t). ztest.
    pose proof (scan_body b Hb (pre ++ t ++ OPEN)
                  (render r ++ renderEnding e) 1 ltac:(lia)) as Eb.
    rewrite <- !app_assoc in Eb.
    rewrite ?len_app, ?len_OPEN in Eb. cbn [Z.eqb Pos.eqb] in Eb.
    replace (len pre + len t + 6) with (len pre + (len t + 6)) by lia.
    rewrite Eb.
    pose proof (slice_middle (pre ++ t ++ OPEN) (render b)
                  (CLOSE ++ render r ++ renderEnding e)) as Es.
    rewrite <- !app_assoc in Es. rewrite ?len_app, ?len_OPEN in Es.
    rewrite Es.
    specialize (IHr Hr (pre ++ t ++ OPEN ++ render b ++ CLOSE)
                  (results ++ [render b])).
    rewrite <- !app_assoc in IHr.
    rewrite ?len_app, ?len_OPEN, ?len_CLOSE in IHr.
    replace (len pre + (len t + 6) + len (render b) + 7)
      with (len pre + (len t + (6 + (len (render b) + 7)))) by lia.
    rewrite IHr. reflexivity.
Qed.

End Scan.

(* ===================================================================== *)
(** * extractTopLevelDicts on documents *)
(* ===================================================================== *)

Section TopLevel.

Lemma extract_document m e :
  wfTop m -> wfEnding e ->
  extractTopLevelDicts_fuel (render m ++ renderEnding e) = Some (blocks m).
Proof.
  intros Hm He.
  pose proof (top_document m e Hm He [] []) as H.
  exact H.
Qed.

(** The blocks before the [i]-th one form a document of their own. *)
Lemma block_position m :
  wfTop m ->
  forall i content, blocks m !! i = Some content ->
    exists before after,
      wfTop before /\ blocks before = take i (blocks m) /\
      render m = render before ++ OPEN ++ content ++ CLOSE ++ after.
Proof.
  induction m as [t | t b _ r IHr]; cbn [wfTop blocks render];
    intros Hwf i content Hi.
  - destruct i; discriminate.
  - destruct Hwf as (Ht & Hb & Hr). destruct i as [|i].
    + injection Hi as <-. exists (Leaf t), (render r).
      repeat split. exact Ht.
    + destruct (IHr Hr i content Hi) as (before & after & Hw & Hbl & Hren).
      exists (Node t b before), after. cbn [wfTop blocks render].
      repeat split; try assumption.
      * rewrite Hbl. reflexivity.
      * rewrite Hren, <- !app_assoc. reflexivity.
Qed.

(** C1.  For every well-formed document (its text between blocks holds no
    open tag, the text inside blocks holds no tag, every open tag has its
    close tag), [extractTopLevelDicts] ends within its fuel and returns
    exactly the contents of the outermost blocks in document order, nested
    blocks included in the content of their parent; and each returned
    content, put back between <dict> and </dict>, is a span of the
    document, the one that follows the blocks returned before it. *)
Theorem extractTopLevelDicts_well_formed (m : markup) :
  wfTop m ->
  extractTopLevelDicts_fuel (render m) = Some (blocks m) /\
  extractTopLevelDicts (render m) = blocks m /\
  forall (i : nat) content,
    blocks m !! i = Some content ->
    exists before after,
      render m = before ++ OPEN ++ content ++ CLOSE ++ after /\
      extractTopLevelDicts before = take i (blocks m) /\
      length (extractTopLevelDicts before) = i.
Proof.
  intros Hwf.
  assert (H : forall m', wfTop m' ->
            extractTopLevelDicts_fuel (render m') = Some (blocks m')).
  { intros m' Hm'. pose proof (extract_document m' Complete Hm' I) as H.
    cbn [renderEnding] in H. rewrite app_nil_r in H. exact H. }
  split; [apply H; exact Hwf|].
  split; [unfold extractTopLevelDicts; rewrite (H m Hwf); reflexivity|].
  intros i content Hi.
  destruct (block_position m Hwf i content Hi)
    as (before & after & Hw & Hbl & Hren).
  exists (render before), after.
  assert (E : extractTopLevelDicts (render before) = take i (blocks m)).
  { unfold extractTopLevelDicts. rewrite (H before Hw). cbn. exact Hbl. }
  split; [exact Hren|]. split; [exact E|].
  rewrite E, length_take.
  apply lookup_lt_Some in Hi. lia.
Qed.

Lemma sampleDocument_wf : wfTop sampleDocument.
Proof. cbn [sampleDocument wfTop wfInner noTag]. repeat split; reflexivity. Qed.

Lemma extractTopLevelDicts_well_formed_witness :
  extractTopLevelDicts (render sampleDocument) =
  [js "<key>name</key><string>A</string><key>sync</key><dict><key>UUID</key><string>U</string></dict><key>x</key><true/>";
   js "<key>name</key><string>B</string>"].
Proof.
  destruct (extractTopLevelDicts_well_formed sampleDocument sampleDocument_wf)
    as (_ & H & _).
  rewrite H. reflexivity.
Defined.

(** C8.  For every document whose last outermost block is never closed
    (whatever it holds: text, complete blocks, further open tags),
    [extractTopLevelDicts] ends within its fuel, without an error, and
    returns exactly the complete outermost blocks before it. *)
Theorem extractTopLevelDicts_unterminated (m : markup) (p : partial) :
  wfTop m -> wfPartial p ->
  extractTopLevelDicts_fuel (render m ++ OPEN ++ renderPartial p)
    = Some (blocks m) /\
  extractTopLevelDicts (render m ++ OPEN ++ renderPartial p) = blocks m.
Proof.
  intros Hm Hp.
  pose proof (extract_document m (Unterminated p) Hm Hp) as H.
  cbn [renderEnding] in H.
  split; [exact H|].
  unfold extractTopLevelDicts. rewrite H. reflexivity.
Qed.

Lemma samplePartial_wf : wfPartial samplePartial.
Proof. cbn [samplePartial wfPartial wfInner noTag]. repeat split; reflexivity. Qed.

Lemma extractTopLevelDicts_unterminated_witness :
  extractTopLevelDicts
    (render sampleDocument ++ OPEN ++ renderPartial samplePartial)
  = blocks sampleDocument.
Proof.
  exact (proj2 (extractTopLevelDicts_unterminated sampleDocument samplePartial
                  sampleDocument_wf samplePartial_wf)).
Defined.

End TopLevel.

(* ===================================================================== *)
(** * Every input is a document *)
(* ===================================================================== *)

Section Cover.

Lemma find_none_indexOf X t : find X t = None -> indexOf t X 0 = -1.
Proof.
  intros H. rewrite indexOf_find by (pose proof (len_nonneg t); lia).
  change (drop (Z.to_nat 0) t) with t. rewrite H. reflexivity.
Qed.

(** No occurrence before offset [i] of [s]: none in the first [i] code
    units taken alone. *)
Lemma find_take_None X s i :
  X <> [] ->
  (forall k, (k < i)%nat -> startsWith X (drop k s) = false) ->
  find X (take i s) = None.
Proof.
  intros HX H.
  destruct (find X (take i s)) as [k|] eqn:E; [exfalso | reflexivity].
  apply find_Some_occurs in E as [Hs Hlen].
  rewrite length_take in Hlen.
  assert (Hk : (k < i)%nat).
  { destruct X; [contradiction|]. cbn [length] in Hlen. lia. }
  apply startsWith_inv in Hs as [r Hr].
  specialize (H k Hk).
  rewrite <- (take_drop i s), drop_app_le in H
    by (rewrite length_take; lia).
  rewrite Hr, <- app_assoc, startsWith_app in H. discriminate.
Qed.

(** Which tag comes first in [s], if any. *)
Lemma first_tag s :
  (find OPEN s = None /\ find CLOSE s = None) \/
  (exists i rest,
     s = take i s ++ OPEN ++ rest /\ noTag (take i s)) \/
  (exists j rest,
     s = take j s ++ CLOSE ++ rest /\ noTag (take j s)).
Proof.
  destruct (find OPEN s) as [i|] eqn:Eo; destruct (find CLOSE s) as [j|] eqn:Ec.
  - destruct (Nat.le_gt_cases i j) as [Hij | Hji].
    + right. left. destruct (occurrence_split _ _ _ Eo) as (rest & Hr & _).
      exists i, rest. split; [exact Hr|].
      split; apply find_none_indexOf, find_take_None; try discriminate;
        intros k Hk;
        [apply (find_first _ _ i) | apply (find_first _ _ j)];
        try assumption; lia.
    + right. right. destruct (occurrence_split _ _ _ Ec) as (rest & Hr & _).
      exists j, rest. split; [exact Hr|].
      split; apply find_none_indexOf, find_take_None; try discriminate;
        intros k Hk;
        [apply (find_first _ _ i) | apply (find_first _ _ j)];
        try assumption; lia.
  - right. left. destruct (occurrence_split _ _ _ Eo) as (rest & Hr & _).
    exists i, rest. split; [exact Hr|].
    split; apply find_none_indexOf, find_take_None; try discriminate;
      intros k Hk;
      [apply (find_first _ _ i); [assumption | lia]
      | apply find_None_suffix; assumption].
  - right. right. destruct (occurrence_split _ _ _ Ec) as (rest & Hr & _).
    exists j, rest. split; [exact Hr|].
    split; apply find_none_indexOf, find_take_None; try discriminate;
      intros k Hk;
      [apply find_None_suffix; assumption
      | apply (find_first _ _ j); [assumption | lia]].
  - left. split; reflexivity.
Qed.

(** What follows an open tag is a block's content and close tag, or the
    content of a block that is never closed. *)
Lemma parse_inner n :
  forall s, (length s < n)%nat ->
    (exists m rest, wfInner m /\ s = render m ++ CLOSE ++ rest) \/
    (exists p, wfPartial p /\ s = renderPartial p).
Proof.
  induction n as [|n IH]; intros s Hn; [lia|].
  destruct (first_tag s) as [[Ho Hc] | [(i & s1 & Hs & Ht) | (j & rest & Hs & Ht)]].
  - right. exists (PLeaf s). split; [|reflexivity].
    split; apply find_none_indexOf; assumption.
  - assert (H1 : (length s1 < n)%nat).
    { apply (f_equal (@length N)) in Hs. rewrite !length_app in Hs.
      change (length OPEN) with 6%nat in Hs. lia. }
    destruct (IH s1 H1) as [(b & s2 & Hb & Hs1) | (p & Hp & Hs1)].
    + assert (H2 : (length s2 < n)%nat).
      { apply (f_equal (@length N)) in Hs1. rewrite !length_app in Hs1.
        change (length CLOSE) with 7%nat in Hs1. lia. }
      destruct (IH s2 H2) as [(r & s3 & Hr & Hs2) | (p & Hp & Hs2)].
      * left. exists (Node (take i s) b r), s3.
        split; [cbn [wfInner]; auto|].
        cbn [render]. rewrite <- !app_assoc, <- Hs2, <- Hs1. exact Hs.
      * right. exists (PNode (take i s) b p).
        split; [cbn [wfPartial]; auto|].
        cbn [renderPartial]. rewrite <- Hs2, <- Hs1. exact Hs.
    + right. exists (POpen (take i s) p).
      split; [cbn [wfPartial]; auto|].
      cbn [renderPartial]. rewrite <- Hs1. exact Hs.
  - left. exists (Leaf (take j s)), rest. split; [exact Ht | exact Hs].
Qed.

Lemma parse_top n :
  forall s, (length s < n)%nat ->
    exists m e, wfTop m /\ wfEnding e /\ s = render m ++ renderEnding e.
Proof.
  induction n as [|n IH]; intros s Hn; [lia|].
  destruct (find OPEN s) as [i|] eqn:Eo.
  - destruct (occurrence_split _ _ _ Eo) as (s1 & Hs & _).
    assert (Ht : indexOf (take i s) OPEN 0 = -1).
    { apply find_none_indexOf, find_take_None; [discriminate|].
      intros k Hk. apply (find_first _ _ i); assumption. }
    assert (H1 : (length s1 < S (length s1))%nat) by lia.
    destruct (parse_inner _ s1 H1) as [(b & s2 & Hb & Hs1) | (p & Hp & Hs1)].
    + assert (H2 : (length s2 < n)%nat).
      { apply (f_equal (@length N)) in Hs, Hs1. rewrite !length_app in Hs, Hs1.
        change (length OPEN) with 6%nat in Hs.
        change (length CLOSE) with 7%nat in Hs1. lia. }
      destruct (IH s2 H2) as (m & e & Hm & He & Hs2).
      exists (Node (take i s) b m), e.
      split; [cbn [wfTop]; auto|]. split; [exact He|].
      cbn [render]. rewrite <- !app_assoc, <- Hs2, <- Hs1. exact Hs.
    + exists (Leaf (take i s)), (Unterminated p).
      split; [exact Ht|]. split; [exact Hp|].
      cbn [render renderEnding]. rewrite <- Hs1. exact Hs.
  - exists (Leaf s), Complete.
    split; [apply find_none_indexOf; exact Eo|]. split; [exact I|].
    cbn [render renderEnding]. rewrite app_nil_r. reflexivity.
Qed.

(** Every input is a document followed by nothing or by a block that is
    never closed, and [extractTopLevelDicts] returns its outermost
    blocks. *)
Lemma extractTopLevelDicts_any xml :
  exists m e,
    wfTop m /\ wfEnding e /\ xml = render m ++ renderEnding e /\
    extractTopLevelDicts xml = blocks m.
Proof.
  destruct (parse_top (S (length xml)) xml ltac:(lia)) as (m & e & Hm & He & Hx).
  exists m, e. repeat split; try assumption.
  unfold extractTopLevelDicts. rewrite Hx at 1.
  rewrite extract_document by assumption. reflexivity.
Qed.

End Cover.

(* ===================================================================== *)
(** * The enumerators *)
(* ===================================================================== *)

Section Entries.

Lemma foldl_push {A B} (f : A -> option B) (l : list A) (acc : list B) :
  foldl (fun results x =>
           match f x with
           | None => results
           | Some e => results ++ [e]
           end) acc l
  = acc ++ omap f l.
Proof.
  revert acc. induction l as [|x l IH]; intros acc; cbn [foldl omap list_omap].
  - rewrite app_nil_r. reflexivity.
  - rewrite IH. destruct (f x); [rewrite <- app_assoc|]; reflexivity.
Qed.

Lemma parsePlistXmlToSmartGroups_omap xml :
  SmartGroups.parsePlistXmlToSmartGroups xml
  = omap SmartGroups.smartGroupOfDict (extractTopLevelDicts xml).
Proof. exact (foldl_push SmartGroups.smartGroupOfDict _ []). Qed.

Lemma parsePlistXmlToSmartRules_omap {Num} (pI pF : list N -> Num) xml :
  SmartRules.parsePlistXmlToSmartRules pI pF xml
  = omap (SmartRules.smartRuleOfDict pI pF) (extractTopLevelDicts xml).
Proof. exact (foldl_push (SmartRules.smartRuleOfDict pI pF) _ []). Qed.

Lemma smartGroupOfDict_cases block :
  SmartGroups.smartGroupOfDict block =
  if negb (truthy (nameOf block)) && negb (truthy (uuidOf block)) then None
  else Some {| SmartGroups.name := default UNNAMED (nameOf block);
               SmartGroups.uuid := default [] (uuidOf block);
               SmartGroups.syncDate :=
                 (let syncContent := extractSubDictAfterKey block (js "sync") in
                  if truthy syncContent
                  then extractDateAfterKey (default [] syncContent) (js "date")
                  else None);
               SmartGroups.useUuidKey :=
                 extractBoolAfterKey block (js "UseUUIDKey") |}.
Proof. reflexivity. Qed.

Lemma smartRuleOfDict_name_uuid {Num} (pI pF : list N -> Num) block :
  (SmartRules.smartRuleOfDict pI pF block = None <->
   truthy (nameOf block) = false /\ truthy (uuidOf block) = false) /\
  forall e, SmartRules.smartRuleOfDict pI pF block = Some e ->
    SmartRules.name e = default UNNAMED (nameOf block) /\
    SmartRules.uuid e = default [] (uuidOf block).
Proof.
  unfold SmartRules.smartRuleOfDict. fold (nameOf block). fold (uuidOf block).
  destruct (truthy (nameOf block)), (truthy (uuidOf block)); cbn [negb andb];
    (split; [split; [intros H | intros [H1 H2]] | intros e He]);
    try discriminate; try (injection He as <-); auto.
Qed.

Lemma smartGroupOfDict_name_uuid block :
  (SmartGroups.smartGroupOfDict block = None <->
   truthy (nameOf block) = false /\ truthy (uuidOf block) = false) /\
  forall e, SmartGroups.smartGroupOfDict block = Some e ->
    SmartGroups.name e = default UNNAMED (nameOf block) /\
    SmartGroups.uuid e = default [] (uuidOf block).
Proof.
  rewrite smartGroupOfDict_cases.
  destruct (truthy (nameOf block)), (truthy (uuidOf block)); cbn [negb andb];
    (split; [split; [intros H | intros [H1 H2]] | intros e He]);
    try discriminate; try (injection He as <-); auto.
Qed.

Lemma truthy_false (s : option (list N)) :
  truthy s = false <-> s = None \/ s = Some [].
Proof.
  destruct s as [[|c s]|]; cbn; split; intros H; auto; try discriminate;
    destruct H; discriminate.
Qed.

End Entries.

Section DiscardRule.

(** The claim of C3 as written fails: a block whose name can be extracted,
    as the empty string, and which has no sync UUID is discarded. *)
Lemma discard_rule_counterexample :
  nameOf emptyNameBlock = Some [] /\
  uuidOf emptyNameBlock = None /\
  SmartGroups.smartGroupOfDict emptyNameBlock = None /\
  ~ (SmartGroups.smartGroupOfDict emptyNameBlock = None <->
     nameOf emptyNameBlock = None /\ uuidOf emptyNameBlock = None).
Proof.
  assert (Hn : nameOf emptyNameBlock = Some []) by (vm_compute; reflexivity).
  assert (Hd : SmartGroups.smartGroupOfDict emptyNameBlock = None)
    by (vm_compute; reflexivity).
  split; [exact Hn|]. split; [vm_compute; reflexivity|].
  split; [exact Hd|].
  intros [H _]. destruct (H Hd) as [H1 _]. rewrite Hn in H1. discriminate.
Qed.

(** C3, amended.  The listers keep exactly the entries of the outermost
    blocks that are not discarded, in order.  A block is discarded exactly
    when its name is absent or empty and its sync UUID is absent or empty;
    otherwise its entry has the extracted name, or "(unnamed)" when there
    is none, and the extracted uuid, or the empty string when there is
    none. *)
Theorem enumerators_discard_rule :
  (forall xml,
     SmartGroups.parsePlistXmlToSmartGroups xml
     = omap SmartGroups.smartGroupOfDict (extractTopLevelDicts xml)) /\
  (forall block,
     (SmartGroups.smartGroupOfDict block = None <->
      (nameOf block = None \/ nameOf block = Some []) /\
      (uuidOf block = None \/ uuidOf block = Some [])) /\
     (forall e, SmartGroups.smartGroupOfDict block = Some e ->
        SmartGroups.name e = default UNNAMED (nameOf block) /\
        SmartGroups.uuid e = default [] (uuidOf block))) /\
  (forall Num (parseInt10 parseFloat : list N -> Num),
     (forall xml,
        SmartRules.parsePlistXmlToSmartRules parseInt10 parseFloat xml
        = omap (SmartRules.smartRuleOfDict parseInt10 parseFloat)
               (extractTopLevelDicts xml)) /\
     (forall block,
        (SmartRules.smartRuleOfDict parseInt10 parseFloat block = None <->
         (nameOf block = None \/ nameOf block = Some []) /\
         (uuidOf block = None \/ uuidOf block = Some [])) /\
        (forall e,
           SmartRules.smartRuleOfDict parseInt10 parseFloat block = Some e ->
           SmartRules.name e = default UNNAMED (nameOf block) /\
           SmartRules.uuid e = default [] (uuidOf block)))).
Proof.
  split; [exact parsePlistXmlToSmartGroups_omap|].
  split.
  - intros block. destruct (smartGroupOfDict_name_uuid block) as [H1 H2].
    split; [|exact H2]. rewrite H1, !truthy_false. reflexivity.
  - intros Num pI pF. split; [exact (parsePlistXmlToSmartRules_omap pI pF)|].
    intros block. destruct (smartRuleOfDict_name_uuid pI pF block) as [H1 H2].
    split; [|exact H2]. rewrite H1, !truthy_false. reflexivity.
Qed.

Lemma enumerators_discard_rule_witness :
  SmartGroups.name <$> SmartGroups.smartGroupOfDict uuidOnlyBlock
  = Some UNNAMED.
Proof.
  destruct enumerators_discard_rule as (_ & H & _).
  destruct (H uuidOnlyBlock) as [Hnone Hsome].
  destruct (SmartGroups.smartGroupOfDict uuidOnlyBlock) as [e|] eqn:E.
  - destruct (Hsome e eq_refl) as [Hn _]. cbn. rewrite Hn. reflexivity.
  - destruct (proj1 Hnone eq_refl) as [_ [Hu | Hu]]; vm_compute in Hu;
      discriminate Hu.
Defined.

Lemma execFrom_here {A} (here : list N -> option A) s k r :
  here s = Some r -> execFrom here s k = Some (k, r).
Proof. intros H. destruct s; cbn; rewrite H; reflexivity. Qed.

Lemma stripPrefix_app p r : stripPrefix p (p ++ r) = Some r.
Proof.
  unfold stripPrefix. rewrite startsWith_app, drop_app_length. reflexivity.
Qed.

Lemma trimStart_spaces ws r :
  Forall (fun c => isSpace c = true) ws ->
  trimStart (ws ++ 60%N :: r) = 60%N :: r.
Proof.
  induction 1 as [|c ws Hc _ IH]; [reflexivity|].
  cbn [app trimStart]. rewrite Hc. exact IH.
Qed.

Lemma execFrom_skip {A} (here : list N -> option A) pre r :
  (forall i, (i < length pre)%nat -> here (drop i pre ++ r) = None) ->
  forall k, execFrom here (pre ++ r) k = execFrom here r (k + len pre).
Proof.
  induction pre as [|c pre IH]; intros H k.
  - cbn [app len length]. f_equal. unfold len. cbn. lia.
  - cbn [app execFrom].
    pose proof (H O ltac:(cbn; lia)) as H0. cbn in H0. rewrite H0.
    rewrite IH by (intros i Hi; apply (H (S i)); cbn; lia).
    f_equal. unfold len. cbn [length]. lia.
Qed.

(** A key whose first occurrence is followed by an empty <string> element
    yields the empty string, not null. *)
Lemma extractStringAfterKey_empty pre keyName ws rest :
  let content :=
    pre ++ keyTag keyName ++ ws ++ js "<string></string>" ++ rest in
  indexOf content (keyTag keyName) 0 = len pre ->
  Forall (fun c => isSpace c = true) ws ->
  extractStringAfterKey content keyName = Some [].
Proof.
  intros content Hfirst Hws. unfold extractStringAfterKey.
  destruct (indexOf0_cases content (keyTag keyName))
    as [[E _] | (i & E & F)].
  { rewrite Hfirst in E. pose proof (len_nonneg pre). lia. }
  assert (Hi : i = length pre).
  { rewrite Hfirst in E. unfold len in E. lia. }
  subst i. unfold content in *.
  rewrite execFrom_skip.
  - rewrite (execFrom_here _ _ _ []); [reflexivity|].
    unfold typedValueHere. rewrite stripPrefix_app.
    cbn [mbind option_bind].
    change (js "<string></string>" ++ rest)
      with (60%N :: (js "string>" ++ js "</string>" ++ rest)).
    rewrite (trimStart_spaces ws _ Hws).
    change (60%N :: (js "string>" ++ js "</string>" ++ rest))
      with (js "<string>" ++ js "</string>" ++ rest).
    rewrite stripPrefix_app. reflexivity.
  - intros k Hk. unfold typedValueHere, stripPrefix.
    rewrite <- (drop_app_le pre _ k) by lia.
    rewrite (find_first _ _ _ k F Hk). reflexivity.
Qed.

(** C10.  In both listers the defaults apply only to a field whose
    extraction returns null: a block whose name or uuid is extracted and
    not empty yields an entry, and in every entry an extracted name or
    uuid is kept as it is, the empty string included, and "(unnamed)" or
    the empty string stands in only for null.  A key whose first
    occurrence is followed (after any white space) by an empty <string>
    element is extracted as the empty string.
    A block whose name and uuid are both extracted as empty strings is
    discarded, as is a block where neither is extracted.  Both listers
    keep the block with an empty name and the uuid U3 under the empty
    name, and discard the block whose name and uuid are both empty. *)
Theorem defaults_only_for_null :
  (forall block,
     let name := nameOf block in
     let uuid := uuidOf block in
     (forall e, SmartGroups.smartGroupOfDict block = Some e ->
        (name = None -> SmartGroups.name e = UNNAMED) /\
        (forall n, name = Some n -> SmartGroups.name e = n) /\
        (uuid = None -> SmartGroups.uuid e = []) /\
        (forall u, uuid = Some u -> SmartGroups.uuid e = u)) /\
     (name = Some [] -> uuid = Some [] ->
        SmartGroups.smartGroupOfDict block = None) /\
     (name = None -> uuid = None ->
        SmartGroups.smartGroupOfDict block = None) /\
     (isKept block -> is_Some (SmartGroups.smartGroupOfDict block))) /\
  (forall Num (parseInt10 parseFloat : list N -> Num) block,
     let name := nameOf block in
     let uuid := uuidOf block in
     (forall e,
        SmartRules.smartRuleOfDict parseInt10 parseFloat block = Some e ->
        (name = None -> SmartRules.name e = UNNAMED) /\
        (forall n, name = Some n -> SmartRules.name e = n) /\
        (uuid = None -> SmartRules.uuid e = []) /\
        (forall u, uuid = Some u -> SmartRules.uuid e = u)) /\
     (name = Some [] -> uuid = Some [] ->
        SmartRules.smartRuleOfDict parseInt10 parseFloat block = None) /\
     (name = None -> uuid = None ->
        SmartRules.smartRuleOfDict parseInt10 parseFloat block = None) /\
     (isKept block ->
        is_Some (SmartRules.smartRuleOfDict parseInt10 parseFloat block))) /\
  (forall pre keyName ws rest,
     let content :=
       pre ++ keyTag keyName ++ ws ++ js "<string></string>" ++ rest in
     indexOf content (keyTag keyName) 0 = len pre ->
     Forall (fun c => isSpace c = true) ws ->
     extractStringAfterKey content keyName = Some []) /\
  nameOf emptyNameWithUuidBlock = Some [] /\
  SmartGroups.name <$> SmartGroups.smartGroupOfDict emptyNameWithUuidBlock
    = Some [] /\
  nameOf bothEmptyBlock = Some [] /\ uuidOf bothEmptyBlock = Some [] /\
  SmartGroups.smartGroupOfDict bothEmptyBlock = None /\
  (forall Num (parseInt10 parseFloat : list N -> Num),
     (fun e => (SmartRules.name e, SmartRules.uuid e))
       <$> SmartRules.smartRuleOfDict parseInt10 parseFloat
             emptyNameWithUuidBlock
     = Some ([], js "U3") /\
     (fun e => (SmartRules.name e, SmartRules.uuid e))
       <$> SmartRules.smartRuleOfDict parseInt10 parseFloat emptyUuidBlock
     = Some (js "N", []) /\
     (fun e => (SmartRules.name e, SmartRules.uuid e))
       <$> SmartRules.smartRuleOfDict parseInt10 parseFloat uuidOnlyBlock
     = Some (UNNAMED, js "U2") /\
     SmartRules.smartRuleOfDict parseInt10 parseFloat bothEmptyBlock = None /\
     SmartRules.smartRuleOfDict parseInt10 parseFloat emptyNameBlock = None) /\
  uuidOf emptyUuidBlock = Some [] /\
  (fun e => (SmartGroups.name e, SmartGroups.uuid e))
    <$> SmartGroups.smartGroupOfDict emptyUuidBlock
  = Some (js "N", []).
Proof.
  split; [|split; [|split; [exact extractStringAfterKey_empty|]]].
  - intros block name uuid.
    destruct (smartGroupOfDict_name_uuid block) as [H1 H2].
    fold name uuid in H1, H2.
    split; [|split; [|split]].
    + intros e He. destruct (H2 e He) as [Hn Hu]. rewrite Hn, Hu.
      repeat split; intros; subst; try reflexivity;
        match goal with H : _ = _ |- _ => rewrite H; reflexivity end.
    + intros Hn Hu. apply H1. rewrite Hn, Hu. split; reflexivity.
    + intros Hn Hu. apply H1. rewrite Hn, Hu. split; reflexivity.
    + intros Hk.
      destruct (SmartGroups.smartGroupOfDict block) as [e|];
        [exists e; reflexivity|].
      destruct (proj1 H1 eq_refl) as [Hn Hu]. unfold isKept in Hk.
      fold name uuid in Hk. destruct Hk; congruence.
  - intros Num pI pF block name uuid.
    destruct (smartRuleOfDict_name_uuid pI pF block) as [H1 H2].
    fold name uuid in H1, H2.
    split; [|split; [|split]].
    + intros e He. destruct (H2 e He) as [Hn Hu]. rewrite Hn, Hu.
      repeat split; intros; subst; try reflexivity;
        match goal with H : _ = _ |- _ => rewrite H; reflexivity end.
    + intros Hn Hu. apply H1. rewrite Hn, Hu. split; reflexivity.
    + intros Hn Hu. apply H1. rewrite Hn, Hu. split; reflexivity.
    + intros Hk.
      destruct (SmartRules.smartRuleOfDict pI pF block) as [e|];
        [exists e; reflexivity|].
      destruct (proj1 H1 eq_refl) as [Hn Hu]. unfold isKept in Hk.
      fold name uuid in Hk. destruct Hk; congruence.
  - repeat split; vm_compute; reflexivity.
Qed.

Lemma defaults_only_for_null_witness :
  SmartGroups.smartGroupOfDict bothEmptyBlock = None /\
  is_Some (SmartRules.smartRuleOfDict sampleParseFloat sampleParseFloat
             emptyNameWithUuidBlock).
Proof.
  destruct defaults_only_for_null
    as (H & Hrules & _ & _ & _ & Hn & Hu & _).
  split.
  - destruct (H bothEmptyBlock) as (_ & Hboth & _).
    exact (Hboth Hn Hu).
  - destruct (Hrules Z sampleParseFloat sampleParseFloat
                emptyNameWithUuidBlock) as (_ & _ & _ & Hkept).
    apply Hkept. right. vm_compute. reflexivity.
Defined.

End DiscardRule.

(* ===================================================================== *)
(** * Sorting *)
(* ===================================================================== *)

Section SortFacts.
Context {A : Type} (cmp : A -> A -> Z).
Hypothesis cmp_total : forall a b, cmp a b <= 0 \/ cmp b a <= 0.
Hypothesis cmp_trans :
  forall a b c, cmp a b <= 0 -> cmp b c <= 0 -> cmp a c <= 0.

Let le (a b : A) : Prop := cmp a b <= 0.

Lemma insertBy_perm x l : Permutation (insertBy cmp x l) (x :: l).
Proof.
  induction l as [|y l IH]; cbn [insertBy]; [reflexivity|].
  destruct (cmp x y <=? 0); [reflexivity|].
  rewrite IH. apply perm_swap.
Qed.

Lemma sortBy_perm l : Permutation (sortBy cmp l) l.
Proof.
  induction l as [|x l IH]; cbn [sortBy]; [reflexivity|].
  rewrite insertBy_perm, IH. reflexivity.
Qed.

Lemma insertBy_sorted x l :
  StronglySorted le l -> StronglySorted le (insertBy cmp x l).
Proof.
  induction 1 as [|y l Hs IH Hy]; cbn [insertBy].
  - constructor; constructor.
  - destruct (cmp x y <=? 0) eqn:E.
    + apply Z.leb_le in E. constructor; [constructor; assumption|].
      constructor; [exact E|].
      eapply Forall_impl; [exact Hy|]. intros z Hz.
      exact (cmp_trans _ _ _ E Hz).
    + apply Z.leb_gt in E. constructor; [exact IH|].
      apply (Permutation_Forall (Permutation_sym (insertBy_perm x l))).
      constructor; [|exact Hy].
      destruct (cmp_total x y) as [H | H]; [lia | exact H].
Qed.

Lemma sortBy_sorted l : StronglySorted le (sortBy cmp l).
Proof.
  induction l as [|x l IH]; cbn [sortBy]; [constructor|].
  apply insertBy_sorted. exact IH.
Qed.
End SortFacts.

Section CompareStrings.

Lemma compareStrings_total a b :
  compareStrings a b <= 0 \/ compareStrings b a <= 0.
Proof.
  revert b. induction a as [|x a IH]; intros [|y b]; cbn; try lia.
  destruct (N.ltb_spec x y), (N.ltb_spec y x); try lia. apply IH.
Qed.

Lemma compareStrings_trans a b c :
  compareStrings a b <= 0 -> compareStrings b c <= 0 ->
  compareStrings a c <= 0.
Proof.
  revert b c. induction a as [|x a IH]; intros [|y b] [|z c]; cbn; try lia.
  destruct (N.ltb_spec x y), (N.ltb_spec y x), (N.ltb_spec y z),
    (N.ltb_spec z y), (N.ltb_spec x z), (N.ltb_spec z x);
    try lia; apply IH.
Qed.

End CompareStrings.

Section Listings.

(** What a lister makes of the blocks of a document: an entry for each
    block kept, with its name and uuid, and no other entry. *)
Lemma kept_entries {Entry} (f : list N -> option Entry)
    (name uuid : Entry -> list N) (blocks : list (list N)) :
  (forall block,
     (f block = None <-> ~ isKept block) /\
     (forall e, f block = Some e ->
        name e = default UNNAMED (nameOf block) /\
        uuid e = default [] (uuidOf block))) ->
  (forall block, In block blocks -> isKept block ->
     exists e, In e (omap f blocks) /\
       name e = default UNNAMED (nameOf block) /\
       uuid e = default [] (uuidOf block)) /\
  length (omap f blocks) = length (filter isKept blocks).
Proof.
  intros Hf. split.
  - intros block Hin Hkept.
    destruct (f block) as [e|] eqn:E.
    + exists e. split; [|exact (proj2 (Hf block) e E)].
      apply list_elem_of_In, list_elem_of_omap. exists block.
      split; [apply list_elem_of_In, Hin | exact E].
    + exfalso. exact (proj1 (proj1 (Hf block)) E Hkept).
  - induction blocks as [|block blocks IH]; [reflexivity|].
    cbn [omap list_omap]. destruct (f block) as [e|] eqn:E.
    + rewrite filter_cons_True.
      * cbn [length]. rewrite IH. reflexivity.
      * destruct (decide (isKept block)) as [H | H]; [exact H|].
        apply (proj1 (Hf block)) in H. congruence.
    + rewrite filter_cons_False; [exact IH|].
      exact (proj1 (proj1 (Hf block)) E).
Qed.

Lemma smartGroupOfDict_kept block :
  (SmartGroups.smartGroupOfDict block = None <-> ~ isKept block) /\
  (forall e, SmartGroups.smartGroupOfDict block = Some e ->
     SmartGroups.name e = default UNNAMED (nameOf block) /\
     SmartGroups.uuid e = default [] (uuidOf block)).
Proof.
  destruct (smartGroupOfDict_name_uuid block) as [H1 H2].
  split; [|exact H2]. rewrite H1. unfold isKept.
  destruct (truthy (nameOf block)), (truthy (uuidOf block));
    intuition congruence.
Qed.

Lemma smartRuleOfDict_kept {Num} (pI pF : list N -> Num) block :
  (SmartRules.smartRuleOfDict pI pF block = None <-> ~ isKept block) /\
  (forall e, SmartRules.smartRuleOfDict pI pF block = Some e ->
     SmartRules.name e = default UNNAMED (nameOf block) /\
     SmartRules.uuid e = default [] (uuidOf block)).
Proof.
  destruct (smartRuleOfDict_name_uuid pI pF block) as [H1 H2].
  split; [|exact H2]. rewrite H1. unfold isKept.
  destruct (truthy (nameOf block)), (truthy (uuidOf block));
    intuition congruence.
Qed.

(** C7.  With [localeCompare] a consistent comparator (total and
    transitive), the list a lister returns is in ascending order of [name]
    under it and holds one entry for each outermost block of the document
    whose name or uuid is extracted and not empty, with that name and that
    uuid, and as many entries as there are such blocks: none is dropped or
    merged, so the entries of two blocks that share a name and differ in
    uuid both appear.  The list is a rearrangement of the entries
    parsed. *)
Theorem listings_sorted_by_name (localeCompare : list N -> list N -> Z) :
  (forall a b, localeCompare a b <= 0 \/ localeCompare b a <= 0) ->
  (forall a b c, localeCompare a b <= 0 -> localeCompare b c <= 0 ->
                 localeCompare a c <= 0) ->
  (forall path w xml,
     SmartGroups.existsSync w = true -> SmartGroups.plutil w = inr xml ->
     exists l,
       SmartGroups.listSmartGroups path localeCompare w
         = SmartGroups.Success l (len l) /\
       StronglySorted
         (fun a b => localeCompare (SmartGroups.name a) (SmartGroups.name b)
                     <= 0) l /\
       Permutation l (SmartGroups.parsePlistXmlToSmartGroups xml) /\
       (forall block, In block (extractTopLevelDicts xml) -> isKept block ->
          exists e, In e l /\
            SmartGroups.name e = default UNNAMED (nameOf block) /\
            SmartGroups.uuid e = default [] (uuidOf block)) /\
       length l = length (filter isKept (extractTopLevelDicts xml))) /\
  (forall Num (parseInt10 parseFloat : list N -> Num) path w xml,
     SmartRules.existsSync w = true -> SmartRules.plutil w = inr xml ->
     exists l,
       SmartRules.listSmartRules parseInt10 parseFloat path localeCompare w
         = SmartRules.Success l (len l) /\
       StronglySorted
         (fun a b => localeCompare (SmartRules.name a) (SmartRules.name b)
                     <= 0) l /\
       Permutation l
         (SmartRules.parsePlistXmlToSmartRules parseInt10 parseFloat xml) /\
       (forall block, In block (extractTopLevelDicts xml) -> isKept block ->
          exists e, In e l /\
            SmartRules.name e = default UNNAMED (nameOf block) /\
            SmartRules.uuid e = default [] (uuidOf block)) /\
       length l = length (filter isKept (extractTopLevelDicts xml))).
Proof.
  intros Htotal Htrans. split.
  - intros path w xml Hex Hpl.
    unfold SmartGroups.listSmartGroups. rewrite Hex, Hpl. cbn [negb].
    eexists. split; [reflexivity|].
    pose proof (sortBy_perm
                  (fun a b => localeCompare (SmartGroups.name a)
                                (SmartGroups.name b))
                  (SmartGroups.parsePlistXmlToSmartGroups xml)) as Hperm.
    destruct (kept_entries SmartGroups.smartGroupOfDict SmartGroups.name
                SmartGroups.uuid (extractTopLevelDicts xml)
                smartGroupOfDict_kept) as [Hin Hlen].
    rewrite <- parsePlistXmlToSmartGroups_omap in Hin, Hlen.
    split; [|split; [exact Hperm | split]].
    + apply (sortBy_sorted
               (fun a b => localeCompare (SmartGroups.name a)
                             (SmartGroups.name b))).
      * intros a b. apply Htotal.
      * intros a b c. apply Htrans.
    + intros block Hb Hk. destruct (Hin block Hb Hk) as (e & He & Hne).
      exists e. split; [|exact Hne].
      apply (Permutation_in _ (Permutation_sym Hperm)), He.
    + rewrite <- Hlen. apply Permutation_length, Hperm.
  - intros Num pI pF path w xml Hex Hpl.
    unfold SmartRules.listSmartRules. rewrite Hex, Hpl. cbn [negb].
    eexists. split; [reflexivity|].
    pose proof (sortBy_perm
                  (fun a b => localeCompare (SmartRules.name a)
                                (SmartRules.name b))
                  (SmartRules.parsePlistXmlToSmartRules pI pF xml)) as Hperm.
    destruct (kept_entries (SmartRules.smartRuleOfDict pI pF)
                SmartRules.name SmartRules.uuid (extractTopLevelDicts xml)
                (smartRuleOfDict_kept pI pF)) as [Hin Hlen].
    rewrite <- parsePlistXmlToSmartRules_omap in Hin, Hlen.
    split; [|split; [exact Hperm | split]].
    + apply (sortBy_sorted
               (fun a b => localeCompare (SmartRules.name a)
                             (SmartRules.name b))).
      * intros a b. apply Htotal.
      * intros a b c. apply Htrans.
    + intros block Hb Hk. destruct (Hin block Hb Hk) as (e & He & Hne).
      exists e. split; [|exact Hne].
      apply (Permutation_in _ (Permutation_sym Hperm)), He.
    + rewrite <- Hlen. apply Permutation_length, Hperm.
Qed.

Lemma listings_sorted_by_name_witness :
  (exists l,
     SmartGroups.listSmartGroups (js "/p") compareStrings
       (sampleWorld sameNameDocument) = SmartGroups.Success l (len l) /\
     map (fun e => (SmartGroups.name e, SmartGroups.uuid e)) l
     = [(js "Same", js "U1"); (js "Same", js "U2"); (js "Zed", [])]) /\
  (exists l,
     SmartRules.listSmartRules sampleParseFloat sampleParseFloat (js "/p")
       compareStrings (sampleRulesWorld sameNameDocument)
     = SmartRules.Success l (len l) /\
     map (fun e => (SmartRules.name e, SmartRules.uuid e)) l
     = [(js "Same", js "U1"); (js "Same", js "U2"); (js "Zed", [])]).
Proof.
  split.
  - destruct (proj1 (listings_sorted_by_name compareStrings
                       compareStrings_total compareStrings_trans)
                    (js "/p") (sampleWorld sameNameDocument) sameNameDocument
                    eq_refl eq_refl) as (l & Hl & _).
    exists l. split; [exact Hl|].
    vm_compute in Hl. injection Hl as <- _. reflexivity.
  - destruct (proj2 (listings_sorted_by_name compareStrings
                       compareStrings_total compareStrings_trans)
                    Z sampleParseFloat sampleParseFloat
                    (js "/p") (sampleRulesWorld sameNameDocument)
                    sameNameDocument eq_refl eq_refl) as (l & Hl & _).
    exists l. split; [exact Hl|].
    vm_compute in Hl. injection Hl as <- _. reflexivity.
Defined.

End Listings.

(* ===================================================================== *)
(** * The e-mail header parser *)
(* ===================================================================== *)

Section HeaderSection.

Lemma slice_prefix {A} (s : list A) (i : nat) :
  (i <= length s)%nat -> slice s 0 (Z.of_nat i) = take i s.
Proof.
  intros H. unfold slice, sliceIndex, len. cbn [Z.ltb Z.compare].
  destruct (Z.of_nat i <? 0) eqn:E; [apply Z.ltb_lt in E; lia|].
  replace (Z.min 0 (Z.of_nat (length s))) with 0 by lia.
  replace (Z.min (Z.of_nat i) (Z.of_nat (length s)) - 0) with (Z.of_nat i)
    by lia.
  rewrite Nat2Z.id. reflexivity.
Qed.

Lemma headerSectionOf_boundary raw :
  (Eml.headerSectionOf raw = raw /\ forall i, noSeparatorAt raw i) \/
  (exists sep rest,
     (sep = CRLFCRLF \/ sep = LFLF) /\
     raw = Eml.headerSectionOf raw ++ sep ++ rest /\
     forall i, (i < length (Eml.headerSectionOf raw))%nat -> noSeparatorAt raw i).
Proof.
  unfold Eml.headerSectionOf. fold CRLFCRLF LFLF.
  destruct (indexOf0_cases raw CRLFCRLF) as [[Ec Fc] | (i & Ec & Fc)];
    destruct (indexOf0_cases raw LFLF) as [[El Fl] | (j & El & Fl)];
    rewrite Ec, El.
  - left. cbn. split; [reflexivity|]. intros i.
    split; apply find_None_suffix; assumption.
  - right. replace (Z.of_nat j =? -1) with false by (symmetry; apply Z.eqb_neq; lia).
    change (-1 =? -1) with true. cbn [negb andb orb].
    destruct (occurrence_split _ _ _ Fl) as (rest & Hrest & Hle).
    rewrite (slice_prefix raw j Hle).
    exists LFLF, rest. split; [right; reflexivity|]. split; [exact Hrest|].
    intros k Hk. rewrite length_take in Hk.
    split; [apply find_None_suffix; assumption|].
    apply (find_first _ _ j); [assumption | lia].
  - right. replace (Z.of_nat i =? -1) with false by (symmetry; apply Z.eqb_neq; lia).
    change (-1 =? -1) with true. cbn [negb andb orb].
    destruct (occurrence_split _ _ _ Fc) as (rest & Hrest & Hle).
    rewrite (slice_prefix raw i Hle).
    exists CRLFCRLF, rest. split; [left; reflexivity|]. split; [exact Hrest|].
    intros k Hk. rewrite length_take in Hk.
    split; [|apply find_None_suffix; assumption].
    apply (find_first _ _ i); [assumption | lia].
  - right.
    replace (Z.of_nat i =? -1) with false by (symmetry; apply Z.eqb_neq; lia).
    replace (Z.of_nat j =? -1) with false by (symmetry; apply Z.eqb_neq; lia).
    cbn [negb andb orb].
    destruct (occurrence_split _ _ _ Fc) as (restc & Hrestc & Hlec).
    destruct (occurrence_split _ _ _ Fl) as (restl & Hrestl & Hlel).
    destruct (Z.of_nat i <? Z.of_nat j) eqn:E.
    + apply Z.ltb_lt in E.
      rewrite (slice_prefix raw i Hlec).
      exists CRLFCRLF, restc. split; [left; reflexivity|].
      split; [exact Hrestc|].
      intros k Hk. rewrite length_take in Hk.
      split; [apply (find_first _ _ i) | apply (find_first _ _ j)];
        try assumption; lia.
    + apply Z.ltb_ge in E.
      rewrite (slice_prefix raw j Hlel).
      exists LFLF, restl. split; [right; reflexivity|].
      split; [exact Hrestl|].
      intros k Hk. rewrite length_take in Hk.
      split; [apply (find_first _ _ i) | apply (find_first _ _ j)];
        try assumption; lia.
Qed.

(** C4.  Whatever the parser read, the header section is the part of it
    before the first CRLF-CRLF or LF-LF, whichever comes first: it is
    followed by one of the two and none starts inside it; when neither
    occurs anywhere, it is all that was read.  And once the file is read,
    the parser returns a success result, whose fields come from that
    header section. *)
Theorem header_section_boundary (rt : Runtime) (fs : Eml.fileSystem)
    (filePath bytes rawContent : list N) :
  filePath <> [] ->
  Eml.existsSync fs filePath = true ->
  Eml.readFile fs filePath = inr bytes ->
  bufferToString rt (js "utf-8") (take (Z.to_nat 65536) bytes)
    = Some rawContent ->
  let headerSection := Eml.headerSectionOf rawContent in
  ((headerSection = rawContent /\ forall i, noSeparatorAt rawContent i) \/
   (exists sep rest,
      (sep = CRLFCRLF \/ sep = LFLF) /\
      rawContent = headerSection ++ sep ++ rest /\
      forall i, (i < length headerSection)%nat -> noSeparatorAt rawContent i))
  /\ Eml.success (Eml.parseEmlHeaders rt fs (Some filePath)) = true
  /\ Eml.subjectOf (Eml.parseEmlHeaders rt fs (Some filePath))
     = (fun val => Eml.decodeEncodedWords rt (trim val))
       <$> (Eml.parseHeaders rt headerSection !! js "subject").
Proof.
  intros Hpath Hex Hread Hdec headerSection.
  split; [apply headerSectionOf_boundary|].
  unfold Eml.parseEmlHeaders.
  destruct filePath as [|c filePath]; [contradiction|].
  rewrite Hex, Hread. cbn [negb].
  change (Z.to_nat Eml.HEADER_READ_LIMIT) with (Z.to_nat 65536).
  rewrite Hdec. cbn [Eml.success Eml.subjectOf].
  split; [reflexivity|].
  fold headerSection.
  destruct (Eml.parseHeaders rt headerSection !! js "subject"); reflexivity.
Qed.

Lemma header_section_boundary_witness :
  Eml.headerSectionOf (lines "Subject: no blank line|From: me") 
    = lines "Subject: no blank line|From: me" /\
  Eml.subjectOf
    (Eml.parseEmlHeaders Node.runtime
       (oneFile (lines "Subject: no blank line|From: me")) (Some (js "/m.eml")))
  = Some (js "no blank line").
Proof.
  pose proof (header_section_boundary Node.runtime
                (oneFile (lines "Subject: no blank line|From: me"))
                (js "/m.eml") (lines "Subject: no blank line|From: me")
                (lines "Subject: no blank line|From: me")
                ltac:(discriminate) eq_refl eq_refl
                ltac:(vm_compute; reflexivity)) as (_ & _ & H).
  split; [vm_compute; reflexivity|].
  rewrite H. vm_compute. reflexivity.
Defined.

End HeaderSection.

Section EncodedWords.

Lemma span_split p s a b :
  span p s = (a, b) ->
  s = a ++ b /\ Forall (fun c => p c = true) a /\
  match b with [] => True | c :: _ => p c = false end.
Proof.
  revert a b. induction s as [|c s IH]; intros a b; cbn [span].
  - intros [= <- <-]. repeat split. constructor.
  - destruct (p c) eqn:E.
    + destruct (span p s) as [a' b'] eqn:Es. intros [= <- <-].
      destruct (IH _ _ eq_refl) as (-> & Ha & Hb).
      repeat split; [constructor; assumption | exact Hb].
    + intros [= <- <-]. repeat split; [constructor | exact E].
Qed.

Lemma span_app p a c r :
  Forall (fun x => p x = true) a -> p c = false ->
  span p (a ++ c :: r) = (a, c :: r).
Proof.
  induction 1 as [|x a Hx _ IH]; intros Hc; cbn [app span].
  - rewrite Hc. reflexivity.
  - rewrite Hx, (IH Hc). reflexivity.
Qed.

Lemma stripPrefix_inv p s r : stripPrefix p s = Some r -> s = p ++ r.
Proof.
  unfold stripPrefix. destruct (startsWith p s) eqn:E; [|discriminate].
  intros [= <-]. apply startsWith_inv in E as [r' ->].
  rewrite drop_app_length. reflexivity.
Qed.

Lemma notQuestion_Forall s :
  ~ In 63%N s <-> Forall (fun c => Eml.notQuestion c = true) s.
Proof.
  unfold Eml.notQuestion. induction s as [|c s IH]; cbn [In].
  - split; [constructor | tauto].
  - split.
    + intros H. constructor.
      * destruct (N.eqb_spec c 63); [subst; tauto | reflexivity].
      * apply IH. tauto.
    + intros H. inversion H as [|? ? Hc Hs]; subst. intros [Heq | Hin].
      * subst c. discriminate Hc.
      * apply IH in Hs. tauto.
Qed.

Lemma isWordEncoding_In e :
  Eml.isWordEncoding e = true <-> In e [66; 98; 81; 113]%N.
Proof.
  unfold Eml.isWordEncoding. cbn [In].
  rewrite !orb_true_iff, !N.eqb_eq. intuition congruence.
Qed.

Lemma length_encodedWord charset encoding text :
  length (encodedWord charset encoding text)
  = (length charset + length text + 7)%nat.
Proof. unfold encodedWord. rewrite !length_app. cbn [length]. lia. Qed.

Lemma stripPrefix_question r : stripPrefix (js "?") (63%N :: r) = Some r.
Proof. reflexivity. Qed.

Lemma encodedWordHere_complete charset encoding text rest :
  isEncodedWord charset encoding text ->
  Eml.encodedWordHere (encodedWord charset encoding text ++ rest)
  = Some (charset, encoding, text, length (encodedWord charset encoding text)).
Proof.
  intros (Hne & Hcs & Henc & Htxt).
  apply notQuestion_Forall in Hcs. apply notQuestion_Forall in Htxt.
  apply isWordEncoding_In in Henc.
  rewrite length_encodedWord.
  unfold encodedWord, Eml.encodedWordHere.
  rewrite <- !app_assoc.
  change [61; 63]%N with (js "=?"). rewrite stripPrefix_app.
  cbn [mbind option_bind app].
  rewrite (span_app _ charset 63%N _ Hcs eq_refl).
  destruct charset as [|c0 charset]; [contradiction|]. cbn [nonEmpty].
  rewrite stripPrefix_question. cbn [mbind option_bind].
  rewrite Henc, stripPrefix_question. cbn [mbind option_bind].
  rewrite (span_app _ text 63%N _ Htxt eq_refl).
  reflexivity.
Qed.

Lemma encodedWordHere_sound s charset encoding text n :
  Eml.encodedWordHere s = Some (charset, encoding, text, n) ->
  isEncodedWord charset encoding text /\
  n = length (encodedWord charset encoding text) /\
  exists rest, s = encodedWord charset encoding text ++ rest.
Proof.
  unfold Eml.encodedWordHere.
  destruct (stripPrefix (js "=?") s) as [r1|] eqn:E1; [|discriminate].
  apply stripPrefix_inv in E1 as ->. cbn [mbind option_bind].
  destruct (span Eml.notQuestion r1) as [cs r2] eqn:E2.
  apply span_split in E2 as (-> & Hcs & _).
  destruct cs as [|c0 cs]; [discriminate|]. cbn [nonEmpty].
  destruct (stripPrefix (js "?") r2) as [r3|] eqn:E3; [|discriminate].
  apply stripPrefix_inv in E3 as ->. cbn [mbind option_bind].
  destruct r3 as [|e r4]; [discriminate|].
  destruct (Eml.isWordEncoding e) eqn:Ee; [|discriminate].
  destruct (stripPrefix (js "?") r4) as [r5|] eqn:E5; [|discriminate].
  apply stripPrefix_inv in E5 as ->. cbn [mbind option_bind].
  destruct (span Eml.notQuestion r5) as [txt r6] eqn:E6.
  apply span_split in E6 as (-> & Htxt & _).
  destruct (startsWith (js "?=") r6) eqn:E7; [|discriminate].
  apply startsWith_inv in E7 as [rest ->].
  intros [= <- <- <- <-].
  split; [|split].
  - repeat split.
    + discriminate.
    + apply notQuestion_Forall. exact Hcs.
    + apply isWordEncoding_In. exact Ee.
    + apply notQuestion_Forall. exact Htxt.
  - rewrite length_encodedWord. reflexivity.
  - exists rest. unfold encodedWord. rewrite <- !app_assoc. reflexivity.
Qed.

Lemma decodeFrom_skip rt w rest :
  Eml.decodeEncodedWordsFrom rt (length w) (w ++ rest)
  = Eml.decodeEncodedWordsFrom rt O rest.
Proof. induction w as [|c w IH]; [reflexivity | exact IH]. Qed.

Lemma decodeFrom_match rt c s charset encoding text n :
  Eml.encodedWordHere (c :: s) = Some (charset, encoding, text, n) ->
  Eml.decodeEncodedWordsFrom rt O (c :: s)
  = Eml.replacement rt (take n (c :: s)) charset encoding text
    ++ Eml.decodeEncodedWordsFrom rt (n - 1) s.
Proof. intros H. cbn [Eml.decodeEncodedWordsFrom]. rewrite H. reflexivity. Qed.

Lemma decodeFrom_other rt c s :
  Eml.encodedWordHere (c :: s) = None ->
  Eml.decodeEncodedWordsFrom rt O (c :: s)
  = c :: Eml.decodeEncodedWordsFrom rt O s.
Proof. intros H. cbn [Eml.decodeEncodedWordsFrom]. rewrite H. reflexivity. Qed.

Lemma encodedWord_cons charset encoding text :
  exists tl, encodedWord charset encoding text = 61%N :: tl.
Proof. eexists. reflexivity. Qed.

Lemma decodeEncodedWords_word rt charset encoding text rest :
  isEncodedWord charset encoding text ->
  Eml.decodeEncodedWords rt (encodedWord charset encoding text ++ rest)
  = Eml.replacement rt (encodedWord charset encoding text)
      charset encoding text
    ++ Eml.decodeEncodedWords rt rest.
Proof.
  intros Hw. unfold Eml.decodeEncodedWords.
  pose proof (encodedWordHere_complete _ _ _ rest Hw) as Hhere.
  destruct (encodedWord_cons charset encoding text) as [tl Htl].
  rewrite Htl in *. cbn [app] in *.
  rewrite (decodeFrom_match _ _ _ _ _ _ _ Hhere).
  change (61%N :: tl ++ rest) with ((61%N :: tl) ++ rest).
  rewrite take_app_length. cbn [length].
  replace (S (length tl) - 1)%nat with (length tl) by lia.
  rewrite decodeFrom_skip. reflexivity.
Qed.

Lemma decodeEncodedWords_Decoded rt input :
  Decoded rt input (Eml.decodeEncodedWords rt input).
Proof.
  remember (length input) as n eqn:Hn. revert input Hn.
  induction n as [n IH] using lt_wf_ind. intros input Hn.
  destruct input as [|c s]; [constructor|].
  destruct (Eml.encodedWordHere (c :: s)) as [[[[cs e] txt] k]|] eqn:E.
  - destruct (encodedWordHere_sound _ _ _ _ _ E) as (Hw & _ & rest & Hs).
    rewrite Hs, decodeEncodedWords_word by exact Hw.
    assert (Hlen : (length rest < n)%nat).
    { subst n. rewrite Hs, length_app, length_encodedWord. lia. }
    unfold Eml.replacement.
    destruct (Eml.decodeWord rt cs e txt) as [d|] eqn:Ed.
    + apply Decoded_word; [exact Hw | exact Ed |].
      apply (IH _ Hlen). reflexivity.
    + apply Decoded_failed; [exact Hw | exact Ed |].
      apply (IH _ Hlen). reflexivity.
  - unfold Eml.decodeEncodedWords. rewrite (decodeFrom_other _ _ _ E).
    apply Decoded_other.
    + intros cs e txt rest Hw Heq.
      rewrite Heq, (encodedWordHere_complete _ _ _ rest Hw) in E.
      discriminate.
    + apply (IH (length s)); [subst n; cbn; lia | reflexivity].
Qed.

Lemma Decoded_functional rt input output :
  Decoded rt input output -> output = Eml.decodeEncodedWords rt input.
Proof.
  induction 1 as [| cs e txt d rest out Hw Hd _ IH
                  | cs e txt rest out Hw Hd _ IH
                  | c s out Hno _ IH].
  - reflexivity.
  - rewrite decodeEncodedWords_word by exact Hw.
    unfold Eml.replacement. rewrite Hd, IH. reflexivity.
  - rewrite decodeEncodedWords_word by exact Hw.
    unfold Eml.replacement. rewrite Hd, IH. reflexivity.
  - unfold Eml.decodeEncodedWords. rewrite decodeFrom_other.
    + rewrite IH. reflexivity.
    + destruct (Eml.encodedWordHere (c :: s)) as [[[[cs e] txt] k]|] eqn:E;
        [|reflexivity].
      destruct (encodedWordHere_sound _ _ _ _ _ E) as (Hw & _ & rest & Hs).
      exfalso. exact (Hno _ _ _ _ Hw Hs).
Qed.

(** The two replacements of the Q branch, underscores first and hex
    escapes second, read the text as [qText] does in one pass. *)
Lemma underscore_hex h :
  Eml.isHexDigit (if (h =? 95)%N then 32%N else h) = Eml.isHexDigit h /\
  (Eml.isHexDigit h = true -> (if (h =? 95)%N then 32%N else h) = h).
Proof.
  destruct (N.eqb_spec h 95) as [-> | Hne]; split; try reflexivity.
  intros H. vm_compute in H. discriminate.
Qed.

Lemma underscore_equals c :
  ((if (c =? 95)%N then 32%N else c) =? 61)%N = (c =? 61)%N.
Proof.
  destruct (N.eqb_spec c 95) as [-> | Hne]; reflexivity.
Qed.

(** The digits [replaceHexEscapes] accepts are the hexadecimal digits, and
    [parseInt(h, 16)] gives each its value. *)
Lemma hexDigitValue_code h :
  hexDigitValue h
  = if Eml.isHexDigit h then Some (Eml.hexValue h) else None.
Proof.
  unfold hexDigitValue.
  let u := eval vm_compute in HEX_UPPER in change HEX_UPPER with u.
  let l := eval vm_compute in HEX_LOWER in change HEX_LOWER with l.
  cbn [position].
  repeat match goal with
         | |- context [(h =? ?k)%N] =>
             destruct (N.eqb_spec h k) as [-> | ?]; [reflexivity|]
         end.
  destruct (Eml.isHexDigit h) eqn:E; [exfalso | reflexivity].
  unfold Eml.isHexDigit in E.
  rewrite !orb_true_iff, !andb_true_iff, !N.leb_le in E. lia.
Qed.

Lemma replaceHexEscapes_qText_le n s :
  (length s <= n)%nat ->
  Eml.replaceHexEscapes O
    (map (fun c => if (c =? 95)%N then 32%N else c) s) = qText s.
Proof.
  revert s. induction n as [|n IH]; intros s Hn.
  - destruct s; [reflexivity | cbn in Hn; lia].
  - destruct s as [|c s]; [reflexivity|].
    cbn [map Eml.replaceHexEscapes qText].
    destruct s as [|h1 [|h2 rest]].
    + reflexivity.
    + cbn [map Eml.replaceHexEscapes]. reflexivity.
    + cbn [map]. rewrite underscore_equals.
      destruct (underscore_hex h1) as [E1 K1].
      destruct (underscore_hex h2) as [E2 K2].
      rewrite E1, E2, !hexDigitValue_code.
      assert (Hrest : Eml.replaceHexEscapes 0
                        (map (fun c => if (c =? 95)%N then 32%N else c)
                             (h1 :: h2 :: rest))
                      = qText (h1 :: h2 :: rest)).
      { apply (IH (h1 :: h2 :: rest)). cbn [length] in *. lia. }
      cbn [map] in Hrest.
      destruct (Eml.isHexDigit h1) eqn:E1';
        [|rewrite andb_false_r; cbn [andb]; f_equal; exact Hrest].
      destruct (Eml.isHexDigit h2) eqn:E2';
        [|rewrite andb_false_r; f_equal; exact Hrest].
      rewrite !andb_true_r.
      destruct (c =? 61)%N; [|f_equal; exact Hrest].
      rewrite (K1 eq_refl), (K2 eq_refl).
      cbn [Eml.replaceHexEscapes]. f_equal.
      apply IH. cbn [length] in Hn. lia.
Qed.

Lemma replaceHexEscapes_qText s :
  Eml.replaceHexEscapes O
    (map (fun c => if (c =? 95)%N then 32%N else c) s) = qText s.
Proof. exact (replaceHexEscapes_qText_le (length s) s (le_n _)). Qed.

Lemma decodeWord_wordBytes rt charset encoding text :
  toLowerCase rt charset <> [] ->
  Eml.decodeWord rt charset encoding text
  = bufferToString rt (charsetName rt charset) (wordBytes rt encoding text).
Proof.
  intros Hne. unfold Eml.decodeWord, charsetName, wordBytes.
  rewrite replaceHexEscapes_qText.
  destruct (bool_decide (toLowerCase rt charset = js "us-ascii"));
    [reflexivity|].
  destruct (bool_decide (toLowerCase rt charset = js "iso-8859-1"));
    [reflexivity|].
  destruct (bool_decide (toLowerCase rt charset = js "iso-8859-15"));
    [reflexivity|].
  cbn [orb]. destruct (toLowerCase rt charset); [congruence | reflexivity].
Qed.

(** C5.  For every header value, [decodeEncodedWords] returns the value
    with each encoded word (charset, [?], one of B b Q q, [?], text, found
    from left to right) replaced by what the callback decodes from it under
    the declared encoding and charset, and with an encoded word whose
    decoding throws (the runtime rejects the charset) left in place as it
    was; it is a total function: nothing is thrown.  What the callback
    decodes is the word's bytes (base64 for B, for Q the text with each
    underscore a space and each [=HH] the byte it writes) read under the
    declared charset, [us-ascii] as ascii, [iso-8859-1] and [iso-8859-15]
    as latin1.  A Subject holding the UTF-8 B-encoding of "hello" written
    with e-acute decodes to that word, and so do its Q-encodings, with the
    hexadecimal digits in either case; in a Q text an [=] that two
    hexadecimal digits do not follow stays as it is. *)
Theorem decodeEncodedWords_replaces_words :
  (forall rt input output,
     Decoded rt input output <-> output = Eml.decodeEncodedWords rt input) /\
  (forall rt charset encoding text rest,
     isEncodedWord charset encoding text ->
     Eml.decodeWord rt charset encoding text = None ->
     Eml.decodeEncodedWords rt (encodedWord charset encoding text ++ rest)
     = encodedWord charset encoding text ++ Eml.decodeEncodedWords rt rest) /\
  (forall rt charset encoding text decoded rest,
     isEncodedWord charset encoding text ->
     Eml.decodeWord rt charset encoding text = Some decoded ->
     Eml.decodeEncodedWords rt (encodedWord charset encoding text ++ rest)
     = decoded ++ Eml.decodeEncodedWords rt rest) /\
  (forall rt charset encoding text,
     toLowerCase rt charset <> [] ->
     Eml.decodeWord rt charset encoding text
     = bufferToString rt (charsetName rt charset)
         (wordBytes rt encoding text)) /\
  Eml.decodeEncodedWords Node.runtime (js "=?UTF-8?B?aMOpbGxv?=") = hello /\
  Eml.subjectOf
    (Eml.parseEmlHeaders Node.runtime
       (oneFile (js "Subject: =?UTF-8?B?aMOpbGxv?=")) (Some (js "/m.eml")))
  = Some hello /\
  Eml.decodeEncodedWords Node.runtime (js "=?ISO-8859-1?Q?h=E9llo_you?=")
  = hello ++ js " you" /\
  Eml.decodeEncodedWords Node.runtime (js "=?utf-8?q?h=c3=A9llo?=") = hello /\
  qText (js "=41_=6a=4=zz=") = js "A j=4=zz=".
Proof.
  split; [|split; [|split; [|split; [|split; [|split; [|split; [|split]]]]]]].
  - intros rt input output. split.
    + apply Decoded_functional.
    + intros ->. apply decodeEncodedWords_Decoded.
  - intros rt cs e txt rest Hw Hd.
    rewrite decodeEncodedWords_word by exact Hw.
    unfold Eml.replacement. rewrite Hd. reflexivity.
  - intros rt cs e txt d rest Hw Hd.
    rewrite decodeEncodedWords_word by exact Hw.
    unfold Eml.replacement. rewrite Hd. reflexivity.
  - intros rt cs e txt Hne. apply decodeWord_wordBytes. exact Hne.
  - vm_compute. reflexivity.
  - vm_compute. reflexivity.
  - vm_compute. reflexivity.
  - vm_compute. reflexivity.
  - vm_compute. reflexivity.
Qed.

Lemma decodeEncodedWords_replaces_words_witness :
  Eml.decodeEncodedWords Node.runtime (js "=?x-klingon?B?aGk=?= and more")
  = js "=?x-klingon?B?aGk=?= and more".
Proof.
  destruct decodeEncodedWords_replaces_words as (_ & H & _).
  specialize (H Node.runtime (js "x-klingon") 66%N (js "aGk=")
                (js " and more")).
  etransitivity; [apply H|].
  - repeat split; [discriminate | | cbn; tauto |];
      cbn; intuition discriminate.
  - vm_compute. reflexivity.
  - vm_compute. reflexivity.
Defined.

End EncodedWords.

Section Headers.

Context (rt : Runtime).

Lemma find_char c line :
  find [c] line =
  match span (fun x => negb (x =? c)%N) line with
  | (before, _ :: _) => Some (length before)
  | (_, []) => None
  end.
Proof.
  induction line as [|x l IH]; [reflexivity|].
  cbn [find startsWith span].
  rewrite (N.eqb_sym c x).
  destruct (x =? c)%N; cbn [negb andb]; [reflexivity|].
  rewrite IH. destruct (span _ l) as [a [|b0 b]]; reflexivity.
Qed.

Lemma startHeader_code line :
  (let colonIdx := indexOf line [58%N] 0 in
   if 0 <? colonIdx
   then Some (trim (slice line 0 colonIdx), sliceFrom line (colonIdx + 1))
   else None)
  = startHeader line.
Proof.
  cbv zeta. unfold startHeader.
  destruct (indexOf0_cases line [58%N]) as [[E F] | (i & E & F)];
    rewrite E; rewrite find_char in F;
    destruct (span _ line) as [before after] eqn:Es;
    apply span_split in Es as (-> & _ & _).
  - destruct after as [|a after]; [|discriminate].
    destruct before; reflexivity.
  - destruct after as [|a after]; [discriminate|].
    injection F as <-.
    destruct before as [|b before]; [reflexivity|].
    destruct (0 <? Z.of_nat (length (b :: before))) eqn:Ez;
      [|apply Z.ltb_ge in Ez; cbn [length] in Ez; lia].
    rewrite slice_prefix by (rewrite length_app; lia).
    rewrite take_app_length.
    unfold sliceFrom, sliceIndex.
    destruct (Z.of_nat (length (b :: before)) + 1 <? 0) eqn:Ez2;
      [apply Z.ltb_lt in Ez2; lia|].
    unfold len. rewrite length_app. cbn [length].
    replace (Z.to_nat (Z.min (Z.of_nat (S (length before)) + 1)
                         (Z.of_nat (S (length before) + S (length after)))))
      with (S (length before) + 1)%nat by lia.
    change (S (length before)) with (length (b :: before)).
    rewrite drop_app_add. reflexivity.
Qed.

Lemma flush_emit st :
  Eml.flush rt st = foldl (addHeader rt) (Eml.headers st) (emit (pendingOf st)).
Proof.
  unfold Eml.flush, pendingOf.
  destruct (Eml.currentName st); reflexivity.
Qed.

Lemma headerLoop_logicalHeaders lines :
  forall st,
    Eml.flush rt (Eml.headerLoop rt lines st)
    = foldl (addHeader rt) (Eml.headers st)
            (logicalHeaders (pendingOf st) lines).
Proof.
  induction lines as [|line rest IH]; intros st;
    cbn [Eml.headerLoop logicalHeaders]; [apply flush_emit|].
  destruct line as [|c line]; [apply flush_emit|].
  destruct (Eml.isBlank c).
  - unfold pendingOf at 1.
    destruct (Eml.currentName st) as [name|] eqn:En.
    + rewrite IH. unfold pendingOf. cbn [Eml.currentName Eml.currentValue
                                          Eml.headers].
      rewrite ?En. reflexivity.
    + rewrite IH. unfold pendingOf. rewrite ?En. reflexivity.
  - rewrite foldl_app, <- flush_emit.
    pose proof (startHeader_code (c :: line)) as Hs. cbv zeta in Hs.
    rewrite <- Hs.
    destruct (0 <? indexOf (c :: line) [58%N] 0); rewrite IH; reflexivity.
Qed.

Lemma parseHeaders_logicalHeaders headerSection :
  Eml.parseHeaders rt headerSection
  = foldl (addHeader rt) ∅ (logicalHeaders None (Eml.linesOf headerSection)).
Proof. unfold Eml.parseHeaders. apply headerLoop_logicalHeaders. Qed.

Lemma join_cons sep p q ps :
  join sep (p :: q :: ps) = p ++ sep ++ join sep (q :: ps).
Proof. reflexivity. Qed.

Lemma addHeaders_lookup hs :
  forall m key,
    foldl (addHeader rt) m hs !! key = extend (m !! key) (valuesFor rt key hs).
Proof.
  induction hs as [|[name value] hs IH]; intros m key.
  - cbn. destruct (m !! key); reflexivity.
  - cbn [foldl]. rewrite IH. unfold valuesFor. cbn [omap list_omap].
    fold (valuesFor rt key hs).
    unfold addHeader.
    destruct (bool_decide (toLowerCase rt name = key)) eqn:Ek.
    + apply bool_decide_eq_true in Ek. subst key.
      destruct (m !! toLowerCase rt name) as [old|] eqn:Em.
      * rewrite lookup_insert_eq. cbn [extend].
        destruct (valuesFor rt _ hs) as [|v vs].
        -- cbn [join]. reflexivity.
        -- rewrite !join_cons, <- !app_assoc. reflexivity.
      * rewrite lookup_insert_eq. cbn [extend joined]. reflexivity.
    + apply bool_decide_eq_false in Ek.
      destruct (m !! toLowerCase rt name); rewrite lookup_insert_ne by exact Ek;
        reflexivity.
Qed.

Lemma parseHeaders_lookup headerSection key :
  Eml.parseHeaders rt headerSection !! key
  = joined (valuesFor rt key
              (logicalHeaders None (Eml.linesOf headerSection))).
Proof.
  rewrite parseHeaders_logicalHeaders, addHeaders_lookup.
  rewrite lookup_empty. reflexivity.
Qed.

Lemma valuesFor_In key hs v :
  In v (valuesFor rt key hs) ->
  exists name value,
    In (name, value) hs /\ toLowerCase rt name = key /\
    v = trim (Eml.unfoldFrom O value).
Proof.
  induction hs as [|[name value] hs IH]; cbn; [tauto|].
  destruct (bool_decide (toLowerCase rt name = key)) eqn:Ek.
  - apply bool_decide_eq_true in Ek. intros [<- | Hin].
    + exists name, value. auto.
    + destruct (IH Hin) as (n & v' & H1 & H2 & H3). exists n, v'. auto.
  - intros Hin. destruct (IH Hin) as (n & v' & H1 & H2 & H3).
    exists n, v'. auto.
Qed.

Lemma valuesFor_nonempty key hs name value :
  In (name, value) hs -> toLowerCase rt name = key ->
  valuesFor rt key hs <> [].
Proof.
  induction hs as [|[n v] hs IH]; cbn; [tauto|].
  intros [[= -> ->] | Hin] Hk.
  - rewrite bool_decide_eq_true_2 by exact Hk. discriminate.
  - destruct (bool_decide _); [discriminate | apply IH; assumption].
Qed.

End Headers.

(** C9.  Header names are case-insensitive.  For every header section
    and every key, the map of [parseHeaders] holds the unfolded values of
    all headers whose name is [key] in lower case, joined by newlines in
    the order met, and nothing when there is none; so every key of the map
    is a name in lower case, and headers whose names differ only in case
    share one entry.  The fields of the result read the map under
    lower-case names, so a header is found whatever the case it is written
    in: each of [messageId], [inReplyTo], [subject], [from], [to], [cc]
    and [date] is the decoded, trimmed entry of its lower-case name, and
    [references] the identifiers of the entry of [references]. *)
Theorem header_names_case_insensitive (rt : Runtime) :
  (forall headerSection key,
     Eml.parseHeaders rt headerSection !! key
     = joined (valuesFor rt key
                 (logicalHeaders None (Eml.linesOf headerSection)))) /\
  (forall headerSection key,
     is_Some (Eml.parseHeaders rt headerSection !! key) ->
     exists name value,
       In (name, value) (logicalHeaders None (Eml.linesOf headerSection)) /\
       key = toLowerCase rt name) /\
  (forall fs filePath bytes rawContent,
     filePath <> [] ->
     Eml.existsSync fs filePath = true ->
     Eml.readFile fs filePath = inr bytes ->
     bufferToString rt (js "utf-8") (take (Z.to_nat 65536) bytes)
       = Some rawContent ->
     let hs :=
       logicalHeaders None (Eml.linesOf (Eml.headerSectionOf rawContent)) in
     let field := fun key =>
       (fun val => Eml.decodeEncodedWords rt (trim val))
         <$> joined (valuesFor rt key hs) in
     let result := Eml.parseEmlHeaders rt fs (Some filePath) in
     Eml.subjectOf result = field (js "subject") /\
     Eml.fromOf result = field (js "from") /\
     Eml.messageIdOf result = field (js "message-id") /\
     (forall name value,
        In (name, value) hs -> toLowerCase rt name = js "subject" ->
        is_Some (Eml.subjectOf result)) /\
     result
     = Eml.Success filePath
         (field (js "message-id"))
         (field (js "in-reply-to"))
         (match field (js "references") with
          | Some raw => Eml.parseReferences raw
          | None => []
          end)
         (field (js "subject"))
         (field (js "from"))
         (field (js "to"))
         (field (js "cc"))
         (field (js "date")) /\
     (forall key name value,
        In (name, value) hs -> toLowerCase rt name = key ->
        is_Some (field key))).
Proof.
  split; [exact (parseHeaders_lookup rt)|]. split.
  - intros headerSection key [v Hv].
    rewrite parseHeaders_lookup in Hv.
    destruct (valuesFor rt key _) as [|v0 vs] eqn:E; [discriminate|].
    destruct (valuesFor_In rt key
                (logicalHeaders None (Eml.linesOf headerSection)) v0)
      as (name & value & Hin & Hk & _).
    { rewrite E. left. reflexivity. }
    exists name, value. split; [exact Hin | symmetry; exact Hk].
  - intros fs filePath bytes rawContent Hpath Hex Hread Hdec hs field result.
    assert (Hfields :
      Eml.subjectOf result = field (js "subject") /\
      Eml.fromOf result = field (js "from") /\
      Eml.messageIdOf result = field (js "message-id")).
    { subst result field hs. unfold Eml.parseEmlHeaders.
      destruct filePath as [|c filePath]; [contradiction|].
      rewrite Hex, Hread. cbn [negb].
      change (Z.to_nat Eml.HEADER_READ_LIMIT) with (Z.to_nat 65536).
      rewrite Hdec. cbn [Eml.subjectOf Eml.fromOf Eml.messageIdOf].
      rewrite !parseHeaders_lookup.
      repeat split;
        match goal with
        | |- context [joined ?x] => destruct (joined x); reflexivity
        end. }
    destruct Hfields as (Hs & Hf & Hm).
    assert (Hfound : forall key name value,
              In (name, value) hs -> toLowerCase rt name = key ->
              is_Some (field key)).
    { intros key name value Hin Hk. subst field. cbn beta.
      pose proof (valuesFor_nonempty rt _ _ _ _ Hin Hk) as Hne.
      destruct (valuesFor rt key hs); [contradiction|].
      cbn. eauto. }
    split; [exact Hs|]. split; [exact Hf|]. split; [exact Hm|].
    split; [|split; [|exact Hfound]].
    + intros name value Hin Hk. rewrite Hs.
      exact (Hfound _ name value Hin Hk).
    + subst result field hs. unfold Eml.parseEmlHeaders.
      destruct filePath as [|c filePath]; [contradiction|].
      rewrite Hex, Hread. cbn [negb].
      change (Z.to_nat Eml.HEADER_READ_LIMIT) with (Z.to_nat 65536).
      rewrite Hdec. rewrite !parseHeaders_lookup.
      assert (Hget : forall key,
                match joined (valuesFor rt key
                                (logicalHeaders None
                                   (Eml.linesOf
                                      (Eml.headerSectionOf rawContent)))) with
                | Some val => Some (Eml.decodeEncodedWords rt (trim val))
                | None => None
                end
                = (fun val => Eml.decodeEncodedWords rt (trim val))
                    <$> joined (valuesFor rt key
                                  (logicalHeaders None
                                     (Eml.linesOf
                                        (Eml.headerSectionOf rawContent))))).
      { intros key. destruct (joined _); reflexivity. }
      rewrite !Hget. f_equal.
      destruct (_ <$> joined (valuesFor rt (js "references") _))
        as [[|r raw]|]; reflexivity.
Qed.

Lemma header_names_case_insensitive_witness :
  Eml.parseHeaders Node.runtime (lines "SUBJECT: Hi|subject: there|X: 1")
    !! js "subject" = Some (lines "Hi|there") /\
  Eml.subjectOf
    (Eml.parseEmlHeaders Node.runtime
       (oneFile (lines "SUBJECT: Hi|subject: there|X: 1"))
       (Some (js "/m.eml")))
  = Some (lines "Hi|there") /\
  Eml.parseEmlHeaders Node.runtime
    (oneFile (lines "MESSAGE-ID: <m@x>|In-Reply-TO: <p@x>|REFERENCES: <a@x> <b@x>|sUBJECT: Hi|FROM: a@x|tO: b@y|CC: c@z|DATE: today"))
    (Some (js "/m.eml"))
  = Eml.Success (js "/m.eml") (Some (js "<m@x>")) (Some (js "<p@x>"))
      [js "<a@x>"; js "<b@x>"] (Some (js "Hi")) (Some (js "a@x"))
      (Some (js "b@y")) (Some (js "c@z")) (Some (js "today")).
Proof.
  destruct (header_names_case_insensitive Node.runtime) as (H1 & _ & H3).
  split; [|split].
  - rewrite H1. vm_compute. reflexivity.
  - destruct (H3 (oneFile (lines "SUBJECT: Hi|subject: there|X: 1"))
                (js "/m.eml") (lines "SUBJECT: Hi|subject: there|X: 1")
                (lines "SUBJECT: Hi|subject: there|X: 1")
                ltac:(discriminate) eq_refl eq_refl
                ltac:(vm_compute; reflexivity)) as (Hs & _).
    rewrite Hs. vm_compute. reflexivity.
  - destruct (H3 (oneFile (lines "MESSAGE-ID: <m@x>|In-Reply-TO: <p@x>|REFERENCES: <a@x> <b@x>|sUBJECT: Hi|FROM: a@x|tO: b@y|CC: c@z|DATE: today"))
                (js "/m.eml")
                (lines "MESSAGE-ID: <m@x>|In-Reply-TO: <p@x>|REFERENCES: <a@x> <b@x>|sUBJECT: Hi|FROM: a@x|tO: b@y|CC: c@z|DATE: today")
                (lines "MESSAGE-ID: <m@x>|In-Reply-TO: <p@x>|REFERENCES: <a@x> <b@x>|sUBJECT: Hi|FROM: a@x|tO: b@y|CC: c@z|DATE: today")
                ltac:(discriminate) eq_refl eq_refl
                ltac:(vm_compute; reflexivity)) as (_ & _ & _ & _ & Hr & _).
    rewrite Hr. vm_compute. reflexivity.
Defined.

(* ===================================================================== *)
(** * The column-layout tools *)
(* ===================================================================== *)

Section Copy.

Context {Value Num : Type}.
Context (parseFloat : list N -> Num).
Context (plistBuddy : gmap (list N) Value -> list N -> option (list N)).
Context (pythonFails : list N -> gmap (list N) Value -> option (list N)).
Context (dumpFails : list N -> gmap (list N) Value -> gmap (list N) Value
                     -> option (list N * gmap (list N) Value)).
Context (pythonOther : list N -> gmap (list N) Value
                       -> (list N + list N) * gmap (list N) Value).
Context (execError : list N -> list N).
Context (toLowerCase : list N -> list N).
Context (PLIST_PATH : list N).

Lemma copyLoop_no_source (source target : list N)
    (suffixes : list (list N)) (data : gmap (list N) Value)
    (copied : list (list N)) :
  (forall suffix, In suffix suffixes ->
     data !! (suffix ++ js "-" ++ source) = None) ->
  foldl (fun '(data, copied) suffix =>
           let src_key := suffix ++ js "-" ++ source in
           let tgt_key := suffix ++ js "-" ++ target in
           match data !! src_key with
           | Some v => (<[tgt_key := v]> data, copied ++ [tgt_key])
           | None => (data, copied)
           end)
        (data, copied) suffixes
  = (data, copied).
Proof.
  induction suffixes as [|suffix suffixes IH]; intros H; [reflexivity|].
  cbn [foldl]. cbv zeta. rewrite (H suffix) by (left; reflexivity).
  apply IH. intros s Hs. apply H. right. exact Hs.
Qed.

Lemma copyPlistKeys_no_source (plistPath : list N)
    (data : gmap (list N) Value)
    (suffixes : list (list N)) (sourceBaseName targetBaseName : list N) :
  pathPlain plistPath = true ->
  forallb literalPlain suffixes = true ->
  literalPlain sourceBaseName = true ->
  literalPlain targetBaseName = true ->
  (forall suffix, In suffix suffixes ->
     data !! (suffix ++ js "-" ++ sourceBaseName) = None) ->
  PlistReader.ok
    (fst (copyPlistKeys pythonFails dumpFails pythonOther execError
            plistPath data suffixes sourceBaseName targetBaseName)) = false /\
  PlistReader.keysCopied
    (fst (copyPlistKeys pythonFails dumpFails pythonOther execError
            plistPath data suffixes sourceBaseName targetBaseName)) = [] /\
  snd (copyPlistKeys pythonFails dumpFails pythonOther execError
         plistPath data suffixes sourceBaseName targetBaseName) = data.
Proof.
  intros Hpath Hsuffixes Hsource Htarget H. unfold copyPlistKeys.
  rewrite Hpath, Hsuffixes, Hsource, Htarget. cbn [andb].
  destruct (pythonFails _ data) as [message|]; [repeat split|].
  unfold copyLoop. rewrite copyLoop_no_source by exact H.
  repeat split.
Qed.

Lemma slice_0_take {A} (l : list A) (n : nat) :
  slice l 0 (Z.of_nat n) = take n l.
Proof.
  unfold slice, sliceIndex, len.
  destruct (0 <? 0) eqn:E0; [discriminate|].
  destruct (Z.of_nat n <? 0) eqn:E; [apply Z.ltb_lt in E; lia|].
  replace (Z.min 0 (Z.of_nat (length l))) with 0 by lia.
  change (Z.to_nat 0) with O. rewrite drop_0.
  destruct (Nat.le_ge_cases n (length l)) as [Hle | Hge].
  - replace (Z.to_nat (Z.min (Z.of_nat n) (Z.of_nat (length l)) - 0))
      with n by lia.
    reflexivity.
  - replace (Z.to_nat (Z.min (Z.of_nat n) (Z.of_nat (length l)) - 0))
      with (length l) by lia.
    rewrite !take_ge by lia. reflexivity.
Qed.

Local Abbreviation copyLayout :=
  (ColumnLayout.copyColumnLayout parseFloat plistBuddy pythonFails dumpFails
     pythonOther execError toLowerCase PLIST_PATH).
Local Abbreviation resolve :=
  (ColumnLayout.resolveSource parseFloat plistBuddy pythonFails pythonOther
     toLowerCase PLIST_PATH).
Local Abbreviation readLayout :=
  (ColumnLayout.readLayoutForName parseFloat plistBuddy).
Local Abbreviation findMatchingNames :=
  (ColumnLayout.findMatchingNames pythonFails pythonOther toLowerCase
     PLIST_PATH).
Local Abbreviation getColumnLayout :=
  (ColumnLayout.getColumnLayout parseFloat plistBuddy pythonFails pythonOther
     toLowerCase PLIST_PATH).



End Copy.





(* ===================================================================== *)
(** * The examples of the specification, evaluated *)
(* ===================================================================== *)

Section Examples.

(** A folded header is joined with single spaces. *)
Example folded_subject :
  Eml.subjectOf
    (Eml.parseEmlHeaders Node.runtime
       (oneFile (lines "Subject: Part1| Part2||body")) (Some (js "/m.eml")))
  = Some (js "Part1 Part2").
Proof. vm_compute. reflexivity. Qed.

(** CRLF line ends, and a body that is not read as headers. *)
Example crlf_headers :
  Eml.parseEmlHeaders Node.runtime
    (oneFile (lines "From: a@x~|To: b@y~|~|Cc: not a header"))
    (Some (js "/m.eml"))
  = Eml.Success (js "/m.eml") None None [] None
      (Some (js "a@x")) (Some (js "b@y")) None None.
Proof. vm_compute. reflexivity. Qed.

Example references_list :
  Eml.parseReferences (js "<a@x> <b@y>") = [js "<a@x>"; js "<b@y>"].
Proof. vm_compute. reflexivity. Qed.

(** The Q encoding: underscores are spaces, [=E9] is a byte. *)
Example q_encoded_word :
  Eml.decodeEncodedWords Node.runtime (js "Re: =?ISO-8859-1?q?h=E9llo_you?=")
  = js "Re: " ++ hello ++ js " you".
Proof. vm_compute. reflexivity. Qed.

(** Text that is not base64 is not a failure: nothing is thrown, and the
    word is replaced by what the lenient decoder makes of it. *)
Example malformed_base64_is_decoded :
  Eml.decodeEncodedWords Node.runtime (js "a =?utf-8?B?!!!!?= b") = js "a  b".
Proof. vm_compute. reflexivity. Qed.

(** A document without blocks lists nothing, successfully. *)
Example empty_listing :
  SmartGroups.listSmartGroups (js "/p") compareStrings
    (sampleWorld (js "<plist><array/></plist>"))
  = SmartGroups.Success [] 0.
Proof. vm_compute. reflexivity. Qed.

(** A nested block does not end its parent early. *)
Example nested_block :
  extractTopLevelDicts (js "<dict>a<dict>b</dict>c</dict><dict>d</dict>")
  = [js "a<dict>b</dict>c"; js "d"].
Proof. vm_compute. reflexivity. Qed.

(** Of a sub-block, too. *)
Example nested_sub_block :
  extractSubDictAfterKey
    (js "<key>sync</key> <dict><key>k</key><dict>x</dict><key>UUID</key><string>U</string></dict><key>z</key>")
    (js "sync")
  = Some (js "<key>k</key><dict>x</dict><key>UUID</key><string>U</string>").
Proof. vm_compute. reflexivity. Qed.

End Examples.

(* ===================================================================== *)
(** * Quoting *)
(* ===================================================================== *)

Section Quoting.

Lemma shWords_quoted_body s w rest :
  Shell.shWords true (Some w)
    (replaceLitFrom Shell.APOSTROPHE (js "'\''") O s
     ++ Shell.APOSTROPHE ++ rest)
  = Shell.shWords false (Some (w ++ s)) rest.
Proof.
  revert w. induction s as [|c s IH]; intros w.
  - cbn. rewrite app_nil_r. reflexivity.
  - cbn [replaceLitFrom]. unfold Shell.APOSTROPHE at 1.
    cbn [startsWith length Nat.sub andb].
    destruct (N.eqb_spec 39 c) as [<- | Hne].
    + cbn [andb]. change (js "'\''") with [39; 92; 39; 39]%N.
      cbn [app Shell.shWords N.eqb Pos.eqb default]. cbn.
      rewrite IH. rewrite <- app_assoc. reflexivity.
    + cbn [andb app Shell.shWords].
      destruct (N.eqb_spec c 39) as [-> | _]; [congruence|].
      cbn [default]. rewrite IH, <- app_assoc. reflexivity.
Qed.

(** After a shell has read [cur], a quoted string adds its text to the
    word, whatever the text holds. *)
Lemma shWords_shellQuote cur s rest :
  Shell.shWords false cur (Shell.shellQuote s ++ rest)
  = Shell.shWords false (Some (default [] cur ++ s)) rest.
Proof.
  unfold Shell.shellQuote, replaceLit. unfold Shell.APOSTROPHE at 1.
  cbn [app Shell.shWords N.eqb Pos.eqb].
  change (39 =? 39)%N with true. cbv iota.
  rewrite <- app_assoc. apply shWords_quoted_body.
Qed.

(** X1.  Shell quoting round trip: a shell reads [shellQuote s] as one word,
    and the word is [s], whatever [s] holds (quotes, spaces, operators,
    nothing at all). *)
Theorem shellQuote_one_word (s : list N) :
  Shell.shWords false None (Shell.shellQuote s) = Some [s].
Proof.
  rewrite <- (app_nil_r (Shell.shellQuote s)), shWords_shellQuote.
  reflexivity.
Qed.

Lemma shWords_plain cur p rest :
  forallb Shell.isPlain p = true ->
  Shell.shWords false cur (p ++ rest)
  = Shell.shWords false
      (match p with [] => cur | _ => Some (default [] cur ++ p) end) rest.
Proof.
  revert cur. induction p as [|c p IH]; intros cur Hp; [reflexivity|].
  cbn [forallb] in Hp. apply andb_prop in Hp as [Hc Hp].
  cbn [app Shell.shWords].
  assert (((c =? 39) = false /\ (c =? 32) = false /\ (c =? 92) = false)%N)
    as (-> & -> & ->).
  { repeat split; apply N.eqb_neq; intros ->; discriminate Hc. }
  rewrite Hc, (IH _ Hp). cbn [default].
  destruct p; [reflexivity|]. unfold id. rewrite <- app_assoc. reflexivity.
Qed.

Lemma shWords_plain_space p rest :
  p <> [] -> forallb Shell.isPlain p = true ->
  Shell.shWords false None (p ++ Shell.SPACE ++ rest)
  = cons p <$> Shell.shWords false None rest.
Proof.
  intros Hne Hp. rewrite (shWords_plain None p) by exact Hp.
  destruct p; [congruence | reflexivity].
Qed.

Lemma shWords_quoted_space s rest :
  Shell.shWords false None (Shell.shellQuote s ++ Shell.SPACE ++ rest)
  = cons s <$> Shell.shWords false None rest.
Proof. rewrite shWords_shellQuote. reflexivity. Qed.

Lemma shWords_quoted_end s :
  Shell.shWords false None (Shell.shellQuote s) = Some [s].
Proof.
  rewrite <- (app_nil_r (Shell.shellQuote s)), shWords_shellQuote.
  reflexivity.
Qed.

(** X2.  The command lines the tools run are read by the shell as the program,
    its options and the quoted arguments unchanged: nothing in a PlistBuddy
    command, a file path or a script is taken as shell syntax. *)
Theorem command_lines_words (plistPath command script : list N) :
  Shell.shWords false None (plistReadCommandLine plistPath command)
  = Some [PLISTBUDDY; js "-c"; command; plistPath] /\
  Shell.shWords false None (pythonCommandLine script)
  = Some [js "python3"; js "-c"; script] /\
  Shell.shWords false None (osascriptCommandLine script)
  = Some [js "osascript"; js "-l"; js "JavaScript"; js "-e"; script].
Proof.
  unfold plistReadCommandLine, pythonCommandLine, osascriptCommandLine.
  repeat split.
  - change (js " -c ") with (Shell.SPACE ++ js "-c" ++ Shell.SPACE).
    rewrite <- ?app_assoc.
    rewrite shWords_plain_space by (discriminate || reflexivity).
    rewrite shWords_plain_space by (discriminate || reflexivity).
    rewrite shWords_quoted_space, shWords_quoted_end. reflexivity.
  - change (js "python3 -c ")
      with (js "python3" ++ Shell.SPACE ++ js "-c" ++ Shell.SPACE).
    rewrite <- ?app_assoc.
    rewrite shWords_plain_space by (discriminate || reflexivity).
    rewrite shWords_plain_space by (discriminate || reflexivity).
    rewrite shWords_quoted_end. reflexivity.
  - change (js "osascript -l JavaScript -e ")
      with (js "osascript" ++ Shell.SPACE ++ js "-l" ++ Shell.SPACE
            ++ js "JavaScript" ++ Shell.SPACE ++ js "-e" ++ Shell.SPACE).
    rewrite <- ?app_assoc.
    do 4 rewrite shWords_plain_space by (discriminate || reflexivity).
    rewrite shWords_quoted_end. reflexivity.
Qed.

(** The class of [escapeRegex] holds the syntax characters of the pattern
    grammar, all of them and no other code unit. *)
Lemma isSyntaxCharacter_grammar c : isSyntaxCharacter c = isPatternSyntax c.
Proof.
  unfold isSyntaxCharacter, isPatternSyntax.
  let l := eval vm_compute in SyntaxCharacter in
  change SyntaxCharacter with l.
  cbn [existsb].
  repeat match goal with
         | |- context [(c =? ?k)%N] =>
             destruct (N.eqb_spec c k) as [-> | ?]; [reflexivity|]
         end.
  reflexivity.
Qed.

Lemma patternLiteral_escapeRegex str rest :
  patternLiteral (escapeRegex str ++ rest)
  = app str <$> patternLiteral rest.
Proof.
  induction str as [|c str IH]; cbn [escapeRegex app].
  - destruct (patternLiteral rest); reflexivity.
  - destruct (isSyntaxCharacter c) eqn:Hc.
    + cbn [app patternLiteral]. change (92 =? 92)%N with true. cbv iota.
      rewrite <- isSyntaxCharacter_grammar, Hc, IH.
      destruct (patternLiteral rest); reflexivity.
    + cbn [app patternLiteral]. rewrite <- isSyntaxCharacter_grammar, Hc.
      destruct (N.eqb_spec c 92) as [-> | _]; [discriminate Hc|].
      rewrite IH. destruct (patternLiteral rest); reflexivity.
Qed.

Lemma patternLiteral_plain p rest :
  forallb (fun c => negb (isPatternSyntax c)) p = true ->
  patternLiteral (p ++ rest) = app p <$> patternLiteral rest.
Proof.
  induction p as [|c p IH]; intros Hp; cbn [app].
  - destruct (patternLiteral rest); reflexivity.
  - cbn [forallb] in Hp. apply andb_prop in Hp as [Hc Hp].
    apply negb_true_iff in Hc. cbn [patternLiteral]. rewrite Hc.
    destruct (N.eqb_spec c 92) as [-> | _]; [discriminate Hc|].
    rewrite (IH Hp). destruct (patternLiteral rest); reflexivity.
Qed.

(** X3.  [escapeRegex] leaves no SyntaxCharacter of the pattern grammar
    unescaped: its result, read as a pattern by the grammar's pattern
    characters and identity escapes, matches the text it was given and
    nothing else; so the key part of an extractor's pattern matches the key
    tag literally, whatever the key name holds.  A name made of the
    fourteen syntax characters comes out with a backslash before each. *)
Theorem escapeRegex_literal (str : list N) :
  patternLiteral (escapeRegex str) = Some str /\
  patternLiteral (js "<key>" ++ escapeRegex str ++ js "</key>")
  = Some (keyTag str) /\
  escapeRegex SyntaxCharacter = js "\^\$\\\.\*\+\?\(\)\[\]\{\}\|".
Proof.
  split; [|split].
  - rewrite <- (app_nil_r (escapeRegex str)), patternLiteral_escapeRegex.
    cbn. rewrite app_nil_r. reflexivity.
  - rewrite patternLiteral_plain by reflexivity.
    rewrite patternLiteral_escapeRegex.
    rewrite <- (app_nil_r (js "</key>")) at 1.
    rewrite patternLiteral_plain by reflexivity. reflexivity.
  - vm_compute. reflexivity.
Qed.

End Quoting.

(* ===================================================================== *)
(** * The typed field extractors *)
(* ===================================================================== *)

(** Solve [Forall P l] on a closed list, each [P x] by [tac]. *)
Tactic Notation "each" tactic3(tac) :=
  repeat (constructor 2; [solve [tac]|]); constructor 1.

Section Extractors.

Lemma execFrom_none {A} (here : list N -> option A) s :
  (forall i, here (drop i s) = None) ->
  forall k, execFrom here s k = None.
Proof.
  induction s as [|c s IH]; intros H k; cbn [execFrom];
    pose proof (H O) as H0; cbn in H0; rewrite H0; [reflexivity|].
  apply IH. intros i. exact (H (S i)).
Qed.

Lemma keyed_typedValueHere keyName tagOpen tagClose :
  keyed keyName (typedValueHere keyName tagOpen tagClose).
Proof. intros s H. unfold typedValueHere. rewrite H. reflexivity. Qed.

Lemma keyed_boolHere keyName : keyed keyName (boolHere keyName).
Proof. intros s H. unfold boolHere. rewrite H. reflexivity. Qed.

Lemma keyed_subDictHere keyName : keyed keyName (subDictHere keyName).
Proof. intros s H. unfold subDictHere. rewrite H. reflexivity. Qed.

Lemma execFrom_without_key {A} keyName (here : list N -> option A) content :
  keyed keyName here ->
  includes content (keyTag keyName) = false ->
  execFrom here content 0 = None.
Proof.
  intros Hk Hinc. apply execFrom_none. intros i. apply Hk.
  unfold includes in Hinc. apply negb_false_iff, Z.eqb_eq in Hinc.
  apply indexOf_none_find in Hinc.
  unfold stripPrefix. rewrite (find_None_suffix _ _ i Hinc). reflexivity.
Qed.

Lemma execFrom_first_key {A} keyName (here : list N -> option A)
    pre r result :
  keyed keyName here ->
  indexOf (pre ++ keyTag keyName ++ r) (keyTag keyName) 0 = len pre ->
  here (keyTag keyName ++ r) = Some result ->
  execFrom here (pre ++ keyTag keyName ++ r) 0 = Some (len pre, result).
Proof.
  intros Hk Hfirst Hhere.
  destruct (indexOf0_cases (pre ++ keyTag keyName ++ r) (keyTag keyName))
    as [[E _] | (i & E & F)].
  { rewrite Hfirst in E. pose proof (len_nonneg pre). lia. }
  assert (Hi : i = length pre).
  { rewrite Hfirst in E. unfold len in E. lia. }
  subst i. rewrite execFrom_skip.
  - rewrite (execFrom_here _ _ _ result Hhere). reflexivity.
  - intros k Hlt. apply Hk. unfold stripPrefix.
    rewrite <- (drop_app_le pre _ k) by lia.
    rewrite (find_first _ _ _ k F Hlt). reflexivity.
Qed.

Lemma span_until_lt v r :
  Forall (fun c => c <> 60%N) v ->
  span (fun c => negb (c =? 60)%N) (v ++ 60%N :: r) = (v, 60%N :: r).
Proof.
  intros Hv. apply span_app; [|reflexivity].
  eapply Forall_impl; [exact Hv|]. intros c Hc. cbv beta.
  apply negb_true_iff, N.eqb_neq. exact Hc.
Qed.

Lemma typedValueHere_value keyName tagOpen tagClose ws v rest :
  Forall (fun c => isSpace c = true) ws ->
  Forall (fun c => c <> 60%N) v ->
  typedValueHere keyName (60%N :: tagOpen) (60%N :: tagClose)
    (keyTag keyName ++ ws ++ (60%N :: tagOpen) ++ v
     ++ (60%N :: tagClose) ++ rest)
  = Some v.
Proof.
  intros Hws Hv. unfold typedValueHere. rewrite stripPrefix_app.
  cbn [mbind option_bind].
  change ((60%N :: tagOpen) ++ v ++ (60%N :: tagClose) ++ rest)
    with (60%N :: (tagOpen ++ v ++ (60%N :: tagClose) ++ rest)).
  rewrite (trimStart_spaces ws _ Hws).
  change (60%N :: (tagOpen ++ v ++ (60%N :: tagClose) ++ rest))
    with ((60%N :: tagOpen) ++ v ++ (60%N :: tagClose) ++ rest).
  rewrite stripPrefix_app. cbn [mbind option_bind].
  change ((60%N :: tagClose) ++ rest) with (60%N :: (tagClose ++ rest)).
  rewrite (span_until_lt v _ Hv).
  change (60%N :: (tagClose ++ rest)) with ((60%N :: tagClose) ++ rest).
  rewrite startsWith_app. reflexivity.
Qed.

(** X4.  A block that does not hold the key tag [<key>K</key>] gives null in
    each of the six extractors. *)
Theorem extractors_missing_key {Num} (parseInt10 parseFloat : list N -> Num)
    (content keyName : list N) :
  includes content (keyTag keyName) = false ->
  extractStringAfterKey content keyName = None /\
  extractDateAfterKey content keyName = None /\
  extractBoolAfterKey content keyName = None /\
  extractIntegerAfterKey parseInt10 content keyName = None /\
  extractRealAfterKey parseFloat content keyName = None /\
  extractSubDictAfterKey content keyName = None.
Proof.
  intros H.
  unfold extractStringAfterKey, extractDateAfterKey, extractBoolAfterKey,
    extractIntegerAfterKey, extractRealAfterKey, extractSubDictAfterKey.
  rewrite !(execFrom_without_key keyName (typedValueHere keyName _ _) content
              (keyed_typedValueHere _ _ _) H).
  rewrite (execFrom_without_key keyName _ content (keyed_boolHere _) H).
  rewrite (execFrom_without_key keyName _ content (keyed_subDictHere _) H).
  repeat split.
Qed.

Lemma extractors_missing_key_witness :
  extractStringAfterKey (js "<key>title</key><string>x</string>") (js "name")
  = None.
Proof.
  apply (extractors_missing_key (fun s => s) (fun s => s)
           (js "<key>title</key><string>x</string>") (js "name")).
  reflexivity.
Defined.

Lemma execFrom_field {A} keyName (here : list N -> option A)
    pre ws value rest result :
  keyed keyName here ->
  firstKey pre keyName (field pre keyName ws value rest) ->
  here (keyTag keyName ++ ws ++ value ++ rest) = Some result ->
  execFrom here (field pre keyName ws value rest) 0 = Some (len pre, result).
Proof. apply execFrom_first_key. Qed.

Lemma typedValueHere_element keyName tag ws v rest :
  allSpace ws -> noLt v ->
  typedValueHere keyName (js "<" ++ tag ++ js ">") (js "</" ++ tag ++ js ">")
    (keyTag keyName ++ ws ++ element tag v ++ rest)
  = Some v.
Proof.
  intros Hws Hv.
  pose proof (typedValueHere_value keyName (tag ++ js ">")
                (js "/" ++ tag ++ js ">") ws v rest Hws Hv) as H.
  match type of H with
  | typedValueHere _ _ _ ?c = _ =>
      replace (keyTag keyName ++ ws ++ element tag v ++ rest) with c
  end; [exact H|].
  unfold element. change (js "<") with [60%N].
  change (js "</") with [60%N; 47%N]. change (js "/") with [47%N].
  repeat (progress (cbn [app]; rewrite <- ?app_assoc)). reflexivity.
Qed.

(** X5.  The typed extractors return the value of the first occurrence of the
    key: for a block in which the key tag first occurs followed by white
    space and a [string], [date], [integer] or [real] element whose text
    holds no [<], the result is the text trimmed, converted with
    [parseInt(.., 10)] or [parseFloat] for the numbers, whatever follows
    the element. *)
Theorem extractors_first_value {Num} (parseInt10 parseFloat : list N -> Num)
    (pre keyName ws v rest : list N) (tag : list N) :
  allSpace ws -> noLt v ->
  firstKey pre keyName (field pre keyName ws (element tag v) rest) ->
  let content := field pre keyName ws (element tag v) rest in
  (tag = js "string" -> extractStringAfterKey content keyName = Some (trim v))
  /\
  (tag = js "date" -> extractDateAfterKey content keyName = Some (trim v))
  /\
  (tag = js "integer" ->
   extractIntegerAfterKey parseInt10 content keyName
   = Some (parseInt10 (trim v))) /\
  (tag = js "real" ->
   extractRealAfterKey parseFloat content keyName
   = Some (parseFloat (trim v))).
Proof.
  intros Hws Hv Hfirst content.
  unfold extractStringAfterKey, extractDateAfterKey, extractIntegerAfterKey,
    extractRealAfterKey.
  repeat split; intros ->; unfold content;
    erewrite execFrom_field;
    try reflexivity;
    try apply keyed_typedValueHere; try exact Hfirst;
    exact (typedValueHere_element keyName _ ws v rest Hws Hv).
Qed.

Lemma extractors_first_value_witness :
  extractStringAfterKey
    (js "<key>id</key><integer>7</integer><key>name</key> <string> Inbox </string><key>name</key><string>Later</string>")
    (js "name")
  = Some (js "Inbox").
Proof.
  refine (proj1 (extractors_first_value (fun s => s) (fun s => s)
                   (js "<key>id</key><integer>7</integer>") (js "name")
                   (js " ") (js " Inbox ")
                   (js "<key>name</key><string>Later</string>")
                   (js "string") _ _ _) eq_refl).
  - unfold allSpace. each reflexivity.
  - unfold noLt. each discriminate.
  - reflexivity.
Defined.

Lemma boolHere_value keyName ws rest (b : bool) :
  allSpace ws ->
  boolHere keyName
    (keyTag keyName ++ ws
     ++ (if b then js "<true/>" else js "<false/>") ++ rest)
  = Some b.
Proof.
  intros Hws. unfold boolHere. rewrite stripPrefix_app.
  cbn [mbind option_bind].
  destruct b.
  - change (js "<true/>" ++ rest) with (60%N :: (js "true/>" ++ rest)).
    rewrite (trimStart_spaces ws _ Hws). reflexivity.
  - change (js "<false/>" ++ rest) with (60%N :: (js "false/>" ++ rest)).
    rewrite (trimStart_spaces ws _ Hws). reflexivity.
Qed.

(** X6.  [extractBoolAfterKey] returns the flag that follows the first
    occurrence of the key: true for [<true/>], false for [<false/>]. *)
Theorem extractBoolAfterKey_first_value (pre keyName ws rest : list N)
    (b : bool) :
  let content :=
    field pre keyName ws (if b then js "<true/>" else js "<false/>") rest in
  allSpace ws ->
  firstKey pre keyName content ->
  extractBoolAfterKey content keyName = Some b.
Proof.
  intros content Hws Hfirst. unfold extractBoolAfterKey, content.
  erewrite execFrom_field;
    [reflexivity | apply keyed_boolHere | exact Hfirst |].
  exact (boolHere_value keyName ws rest b Hws).
Qed.

Lemma extractBoolAfterKey_first_value_witness :
  extractBoolAfterKey
    (js "<key>Enabled</key> <false/><key>UseUUIDKey</key><true/>")
    (js "UseUUIDKey")
  = Some true.
Proof.
  apply (extractBoolAfterKey_first_value
           (js "<key>Enabled</key> <false/>") (js "UseUUIDKey") [] [] true).
  - unfold allSpace. each reflexivity.
  - reflexivity.
Defined.

Lemma subDictHere_value keyName ws rest :
  allSpace ws ->
  subDictHere keyName (keyTag keyName ++ ws ++ OPEN ++ rest)
  = Some (len (keyTag keyName ++ ws ++ OPEN)).
Proof.
  intros Hws. unfold subDictHere. rewrite stripPrefix_app.
  cbn [mbind option_bind].
  change (OPEN ++ rest) with (60%N :: (js "dict>" ++ rest)).
  rewrite (trimStart_spaces ws _ Hws).
  change (60%N :: (js "dict>" ++ rest)) with (OPEN ++ rest).
  rewrite startsWith_app. f_equal.
  rewrite !len_app, len_OPEN. lia.
Qed.

(** X7.  [extractSubDictAfterKey] respects nesting: for a block in which the
    key tag first occurs followed by white space and a [<dict>] whose
    content is well nested, the result is that whole content, its nested
    [<dict>] blocks included, up to the [</dict>] that closes it. *)
Theorem extractSubDictAfterKey_nested (pre keyName ws rest : list N)
    (body : markup) :
  let content :=
    field pre keyName ws (OPEN ++ render body ++ CLOSE) rest in
  allSpace ws -> wfInner body ->
  firstKey pre keyName content ->
  extractSubDictAfterKey content keyName = Some (render body).
Proof.
  intros content Hws Hwf Hfirst. unfold firstKey in Hfirst.
  subst content. unfold extractSubDictAfterKey, field in *.
  rewrite <- ?app_assoc in *.
  erewrite execFrom_first_key;
    [| apply keyed_subDictHere | exact Hfirst
     | exact (subDictHere_value keyName ws _ Hws)].
  rewrite <- len_app.
  pose proof (scan_body body Hwf (pre ++ keyTag keyName ++ ws ++ OPEN)
                rest 1 ltac:(lia)) as Hscan.
  unfold scan in Hscan. rewrite <- !app_assoc in Hscan.
  rewrite Hscan. cbn [Z.eqb Pos.eqb].
  change (1 =? 1) with true. cbv iota.
  pose proof (slice_middle (pre ++ keyTag keyName ++ ws ++ OPEN)
                (render body) (CLOSE ++ rest)) as Hs.
  rewrite <- !app_assoc in Hs. rewrite Hs. reflexivity.
Qed.

Lemma extractSubDictAfterKey_nested_witness :
  extractSubDictAfterKey
    (js "<key>sync</key> <dict><key>a</key><dict>x</dict>y</dict><key>z</key>")
    (js "sync")
  = Some (js "<key>a</key><dict>x</dict>y").
Proof.
  apply (extractSubDictAfterKey_nested [] (js "sync") (js " ")
           (js "<key>z</key>")
           (Node (js "<key>a</key>") (Leaf (js "x")) (Leaf (js "y")))).
  - unfold allSpace. each reflexivity.
  - cbn [wfInner]. unfold noTag. repeat split; reflexivity.
  - reflexivity.
Defined.

(** X8.  When the [<dict>] after the key is never closed, the result is null,
    whatever complete blocks its content holds. *)
Theorem extractSubDictAfterKey_unterminated (pre keyName ws : list N)
    (p : partial) :
  let content := field pre keyName ws (OPEN ++ renderPartial p) [] in
  allSpace ws -> wfPartial p ->
  firstKey pre keyName content ->
  extractSubDictAfterKey content keyName = None.
Proof.
  intros content Hws Hwf Hfirst. unfold firstKey in Hfirst.
  subst content. unfold extractSubDictAfterKey, field in *.
  rewrite <- ?app_assoc in *. rewrite app_nil_r in *.
  erewrite execFrom_first_key;
    [| apply keyed_subDictHere | exact Hfirst
     | exact (subDictHere_value keyName ws _ Hws)].
  rewrite <- len_app.
  destruct (scan_partial p Hwf (pre ++ keyTag keyName ++ ws ++ OPEN) 1
              ltac:(lia)) as (d & _ & Hscan).
  unfold scan in Hscan. rewrite <- !app_assoc in Hscan.
  rewrite Hscan. reflexivity.
Qed.

Lemma extractSubDictAfterKey_unterminated_witness :
  extractSubDictAfterKey
    (js "<key>sync</key><dict><key>a</key><dict>x</dict>y")
    (js "sync")
  = None.
Proof.
  apply (extractSubDictAfterKey_unterminated [] (js "sync") []
           (PNode (js "<key>a</key>") (Leaf (js "x")) (PLeaf (js "y")))).
  - unfold allSpace. each reflexivity.
  - cbn [wfPartial wfInner]. unfold noTag. repeat split; reflexivity.
  - reflexivity.
Defined.

End Extractors.

(* ===================================================================== *)
(** * What the listers return *)
(* ===================================================================== *)

Section ListingInvariant.

Lemma truthy_nonempty (s : option (list N)) (d : list N) :
  truthy s = true -> default d s <> [].
Proof. destruct s as [[|c s]|]; cbn; intros H; discriminate. Qed.

Lemma smartGroupOfDict_named block e :
  SmartGroups.smartGroupOfDict block = Some e ->
  SmartGroups.name e <> [] \/ SmartGroups.uuid e <> [].
Proof.
  intros He.
  destruct (smartGroupOfDict_name_uuid block) as [Hnone Hsome].
  destruct (Hsome e He) as [-> ->].
  destruct (truthy (nameOf block)) eqn:En.
  - left. apply truthy_nonempty, En.
  - destruct (truthy (uuidOf block)) eqn:Eu.
    + right. apply truthy_nonempty, Eu.
    + rewrite (proj2 Hnone (conj eq_refl eq_refl)) in He. discriminate.
Qed.

Lemma smartRuleOfDict_named {Num} (pI pF : list N -> Num) block e :
  SmartRules.smartRuleOfDict pI pF block = Some e ->
  SmartRules.name e <> [] \/ SmartRules.uuid e <> [].
Proof.
  intros He.
  destruct (smartRuleOfDict_name_uuid pI pF block) as [Hnone Hsome].
  destruct (Hsome e He) as [-> ->].
  destruct (truthy (nameOf block)) eqn:En.
  - left. apply truthy_nonempty, En.
  - destruct (truthy (uuidOf block)) eqn:Eu.
    + right. apply truthy_nonempty, Eu.
    + rewrite (proj2 Hnone (conj eq_refl eq_refl)) in He. discriminate.
Qed.

Lemma omap_Forall {A B} (f : A -> option B) (P : B -> Prop) l :
  (forall x y, f x = Some y -> P y) -> Forall P (omap f l).
Proof.
  intros H. induction l as [|x l IH]; cbn [omap list_omap]; [constructor|].
  destruct (f x) eqn:E; [constructor; eauto | exact IH].
Qed.

Lemma omap_length_le {A B} (f : A -> option B) l :
  (length (omap f l) <= length l)%nat.
Proof.
  induction l as [|x l IH]; cbn [omap list_omap length]; [lia|].
  destruct (f x); cbn [length]; lia.
Qed.

(** X9.  Whatever the two listers are given, file missing or not, [plutil]
    failing or not, any text as its output: a successful listing has
    [totalCount] entries, no more than the document has top-level blocks,
    and no entry in it has both an empty name and an empty uuid. *)
Theorem listings_entries_identified (localeCompare : list N -> list N -> Z) :
  (forall path w l n,
     SmartGroups.listSmartGroups path localeCompare w
     = SmartGroups.Success l n ->
     n = len l /\
     Forall (fun e => SmartGroups.name e <> [] \/ SmartGroups.uuid e <> []) l
     /\
     exists xml, SmartGroups.plutil w = inr xml /\
       (length l <= length (extractTopLevelDicts xml))%nat) /\
  (forall Num (parseInt10 parseFloat : list N -> Num) path w l n,
     SmartRules.listSmartRules parseInt10 parseFloat path localeCompare w
     = SmartRules.Success l n ->
     n = len l /\
     Forall (fun e => SmartRules.name e <> [] \/ SmartRules.uuid e <> []) l
     /\
     exists xml, SmartRules.plutil w = inr xml /\
       (length l <= length (extractTopLevelDicts xml))%nat).
Proof.
  split.
  - intros path w l n. unfold SmartGroups.listSmartGroups.
    destruct (SmartGroups.existsSync w); cbn [negb]; [|discriminate].
    destruct (SmartGroups.plutil w) as [msg | xml]; [discriminate|].
    intros [= <- <-].
    pose proof (sortBy_perm
                  (fun a b => localeCompare (SmartGroups.name a)
                                (SmartGroups.name b))
                  (SmartGroups.parsePlistXmlToSmartGroups xml)) as Hperm.
    split; [reflexivity|]. split.
    + apply (Permutation_Forall (Permutation_sym Hperm)).
      rewrite parsePlistXmlToSmartGroups_omap.
      apply omap_Forall. apply smartGroupOfDict_named.
    + exists xml. split; [reflexivity|].
      rewrite (Permutation_length Hperm), parsePlistXmlToSmartGroups_omap.
      apply omap_length_le.
  - intros Num pI pF path w l n. unfold SmartRules.listSmartRules.
    destruct (SmartRules.existsSync w); cbn [negb]; [|discriminate].
    destruct (SmartRules.plutil w) as [msg | xml]; [discriminate|].
    intros [= <- <-].
    pose proof (sortBy_perm
                  (fun a b => localeCompare (SmartRules.name a)
                                (SmartRules.name b))
                  (SmartRules.parsePlistXmlToSmartRules pI pF xml)) as Hperm.
    split; [reflexivity|]. split.
    + apply (Permutation_Forall (Permutation_sym Hperm)).
      rewrite parsePlistXmlToSmartRules_omap.
      apply omap_Forall. apply smartRuleOfDict_named.
    + exists xml. split; [reflexivity|].
      rewrite (Permutation_length Hperm), parsePlistXmlToSmartRules_omap.
      apply omap_length_le.
Qed.

Lemma listings_entries_identified_witness :
  exists l,
    SmartGroups.listSmartGroups (js "/p") compareStrings
      (sampleWorld sameNameDocument) = SmartGroups.Success l 3 /\
    Forall (fun e => SmartGroups.name e <> [] \/ SmartGroups.uuid e <> []) l.
Proof.
  eexists. split; [reflexivity|].
  refine (proj1 (proj2 (proj1 (listings_entries_identified compareStrings)
                          (js "/p") (sampleWorld sameNameDocument) _ 3 _))).
  reflexivity.
Defined.

End ListingInvariant.

(* ===================================================================== *)
(** * Reading what PlistBuddy prints *)
(* ===================================================================== *)

Section PlistBuddyOutput.

Lemma splitOn_line a rest :
  noLineFeed a ->
  splitOn 10 (a ++ 10%N :: rest) = a :: splitOn 10 rest.
Proof.
  induction 1 as [|c a Hc _ IH]; cbn [app splitOn].
  - reflexivity.
  - destruct (N.eqb_spec c 10) as [-> | _]; [congruence|].
    rewrite IH. reflexivity.
Qed.

Lemma splitOn_last a : noLineFeed a -> splitOn 10 a = [a].
Proof.
  induction 1 as [|c a Hc _ IH]; cbn [splitOn]; [reflexivity|].
  destruct (N.eqb_spec c 10) as [-> | _]; [congruence|].
  rewrite IH. reflexivity.
Qed.

Lemma noLineFeed_app a b : noLineFeed a -> noLineFeed b -> noLineFeed (a ++ b).
Proof. unfold noLineFeed. intros Ha Hb. apply Forall_app. split; assumption. Qed.

Lemma splitOn_lines {A} (f : A -> list N) (items : list A) (tail : list N) :
  Forall (fun x => noLineFeed (f x)) items ->
  splitOn 10 (flat_map (fun x => f x ++ LINE_FEED) items ++ tail)
  = map f items ++ splitOn 10 tail.
Proof.
  induction 1 as [|x items Hx _ IH]; cbn [flat_map map app]; [reflexivity|].
  rewrite <- !app_assoc. cbn [LINE_FEED app].
  rewrite (splitOn_line _ _ Hx), IH. reflexivity.
Qed.

Lemma trim_indent s : trim (INDENT ++ s) = trim s.
Proof. reflexivity. Qed.

(** X10.  [parsePlistBuddyArray] on what PlistBuddy prints for an array whose
    items hold no line feed: the items, each trimmed, without those that
    are then empty or read [Array {] or [}]. *)
Theorem parsePlistBuddyArray_printed (items : list (list N)) :
  Forall noLineFeed items ->
  parsePlistBuddyArray (printArray items)
  = filter isArrayItem (map trim items).
Proof.
  intros Hitems. unfold parsePlistBuddyArray, printArray.
  change (js "Array {" ++ LINE_FEED ++ ?r) with (js "Array {" ++ 10%N :: r).
  rewrite splitOn_line by (each discriminate).
  rewrite (splitOn_lines (fun item => INDENT ++ item)).
  - rewrite (splitOn_last (js "}")) by (each discriminate).
    rewrite map_cons, map_app, map_map. cbn [map].
    rewrite filter_cons_False by (intros (_ & H & _); apply H; reflexivity).
    rewrite filter_app.
    rewrite (filter_cons_False _ (trim (js "}")))
      by (intros (_ & _ & H); apply H; reflexivity).
    rewrite filter_nil, app_nil_r.
    f_equal.
  - eapply Forall_impl; [exact Hitems|]. intros item Hi. cbv beta.
    apply noLineFeed_app; [each discriminate | exact Hi].
Qed.

Lemma parsePlistBuddyArray_printed_witness :
  parsePlistBuddyArray (printArray [js "Name"; js "}"; js " Kind "])
  = [js "Name"; js "Kind"].
Proof.
  rewrite parsePlistBuddyArray_printed by (each (each discriminate)).
  reflexivity.
Defined.

Lemma trimStart_id s : headNotSpace s -> trimStart s = s.
Proof. destruct s as [|c s]; cbn; [reflexivity|]. intros ->. reflexivity. Qed.

Lemma trimStart_head s : headNotSpace (trimStart s).
Proof.
  induction s as [|c s IH]; cbn [trimStart]; [exact I|].
  destruct (isSpace c) eqn:E; [exact IH | exact E].
Qed.

Lemma trimStart_suffix s : exists ws, s = ws ++ trimStart s.
Proof.
  induction s as [|c s [ws IH]]; cbn [trimStart]; [exists []; reflexivity|].
  destruct (isSpace c).
  - exists (c :: ws). cbn [app]. f_equal. exact IH.
  - exists []. reflexivity.
Qed.

Lemma trimEnd_id s : headNotSpace (rev s) -> trimEnd s = s.
Proof.
  intros H. unfold trimEnd. rewrite (trimStart_id _ H). apply rev_involutive.
Qed.

Lemma trim_fixed_last v : trim v = v -> headNotSpace (rev v).
Proof.
  intros H. rewrite <- H at 1. unfold trim, trimEnd.
  rewrite rev_involutive. apply trimStart_head.
Qed.

Lemma trim_fixed_head v : trim v = v -> headNotSpace v.
Proof.
  intros H. pose proof (trimStart_head v) as Hh.
  unfold trim, trimEnd in H.
  destruct (trimStart_suffix (rev (trimStart v))) as [ws Hws].
  apply (f_equal (@rev N)) in Hws.
  rewrite rev_involutive, rev_app_distr, H in Hws.
  rewrite Hws in Hh. destruct v as [|c v]; [exact I | exact Hh].
Qed.

Lemma headNotSpace_app a b : a <> [] -> headNotSpace a -> headNotSpace (a ++ b).
Proof. destruct a; [congruence | intros _ H; exact H]. Qed.

Lemma trim_line a b :
  a <> [] -> b <> [] -> headNotSpace a -> headNotSpace (rev b) ->
  trim (a ++ b) = a ++ b.
Proof.
  intros Ha Hb Hha Hhb. unfold trim.
  rewrite trimStart_id by (apply headNotSpace_app; assumption).
  apply trimEnd_id. rewrite rev_app_distr.
  apply headNotSpace_app; [|exact Hhb].
  intros E. apply (f_equal (@rev N)) in E. rewrite rev_involutive in E.
  exact (Hb E).
Qed.

Lemma isDictKey_head k : isDictKey k -> headNotSpace k.
Proof.
  intros (_ & Hk & _). destruct Hk as [|c k Hc _]; [exact I | exact Hc].
Qed.

Lemma trim_dictLine k v :
  isDictKey k -> isDictValue v -> trim (dictLine (k, v)) = dictLine (k, v).
Proof.
  intros Hk Hv. unfold dictLine. cbn [fst snd].
  rewrite app_assoc.
  destruct Hv as (Hne & _ & Ht). destruct Hk as (Hkne & Hks & Hp).
  apply trim_line.
  - destruct k; [congruence | discriminate].
  - exact Hne.
  - apply headNotSpace_app; [exact Hkne|].
    apply isDictKey_head. repeat split; assumption.
  - apply trim_fixed_last, Ht.
Qed.

Lemma widthLineMatch_dictLine k v :
  isDictKey k -> isDictValue v ->
  widthLineMatch (dictLine (k, v)) = Some (k, v).
Proof.
  intros (Hkne & Hks & _) (Hvne & Hvt & Htrim).
  unfold widthLineMatch, dictLine. cbn [fst snd].
  change (js " = " ++ v) with (32%N :: 61%N :: 32%N :: v).
  rewrite span_app; [| |reflexivity].
  2:{ eapply Forall_impl; [exact Hks|]. intros c Hc. cbv beta.
      rewrite Hc. reflexivity. }
  destruct k as [|k0 k]; [congruence|].
  cbn [length widthLineUpTo].
  unfold widthLineAt.
  change (S (length k)) with (length (k0 :: k)).
  rewrite drop_app_length, take_app_length.
  change (trimStart (32%N :: 61%N :: 32%N :: v)) with (61%N :: 32%N :: v).
  cbv beta iota.
  change (trimStart (32%N :: v)) with (trimStart v).
  pose proof (trim_fixed_head v Htrim) as Hh.
  rewrite (trimStart_id v Hh).
  destruct v as [|c value]; [congruence|].
  assert (existsb isLineTerminator (c :: value) = false) as ->.
  { apply not_true_is_false. intros E.
    apply existsb_exists in E as (x & Hin & Hx).
    rewrite List.Forall_forall in Hvt. rewrite (Hvt x Hin) in Hx.
    discriminate. }
  reflexivity.
Qed.

Lemma isSpace_line_feed c : isSpace c = false -> c <> 10%N.
Proof. intros H ->. discriminate H. Qed.

Lemma isLineTerminator_line_feed c : isLineTerminator c = false -> c <> 10%N.
Proof. intros H ->. discriminate H. Qed.

Lemma noLineFeed_dictLine k v :
  isDictKey k -> isDictValue v -> noLineFeed (INDENT ++ dictLine (k, v)).
Proof.
  intros (_ & Hk & _) (_ & Hv & _). unfold dictLine. cbn [fst snd].
  apply noLineFeed_app; [each discriminate|].
  apply noLineFeed_app.
  - eapply Forall_impl; [exact Hk|]. apply isSpace_line_feed.
  - apply noLineFeed_app; [each discriminate|].
    eapply Forall_impl; [exact Hv|]. apply isLineTerminator_line_feed.
Qed.

Lemma dictLine_kept k v :
  isDictKey k -> isDictValue v ->
  dictLine (k, v) <> [] /\ dictLine (k, v) <> js "Dict {"
  /\ dictLine (k, v) <> js "}".
Proof.
  intros (Hk & _ & _) _. unfold dictLine. cbn [fst snd].
  assert (Hin : In 61%N (k ++ js " = " ++ v)).
  { apply in_or_app. right. right. left. reflexivity. }
  repeat split; intros E; rewrite E in Hin; cbn in Hin;
    repeat (destruct Hin as [Hin | Hin]; [discriminate Hin|]); exact Hin.
Qed.

Lemma dict_lines_kept entries :
  Forall wellPrinted entries ->
  filter (fun l => l <> [] /\ l <> js "Dict {" /\ l <> js "}")
         (map (fun e => trim (INDENT ++ dictLine e)) entries)
  = map dictLine entries.
Proof.
  induction 1 as [|[k v] entries [Hk Hv] _ IH]; cbn [map]; [reflexivity|].
  cbn [fst snd] in Hk, Hv.
  rewrite trim_indent, (trim_dictLine k v Hk Hv).
  rewrite filter_cons_True by (exact (dictLine_kept k v Hk Hv)).
  rewrite IH. reflexivity.
Qed.

Lemma dict_fold {Num} (parseFloat : list N -> Num) entries m :
  Forall wellPrinted entries ->
  foldl (fun result line =>
           match widthLineMatch line with
           | Some (m1, m2) => setProperty result m1 (parseFloat m2)
           | None => result
           end) m (map dictLine entries)
  = foldl (fun result entry => <[fst entry := parseFloat (snd entry)]> result)
          m entries.
Proof.
  intros H. revert m.
  induction H as [|[k v] entries [Hk Hv] _ IH]; intros m; cbn [map foldl];
    [reflexivity|].
  cbn [fst snd] in Hk, Hv.
  rewrite (widthLineMatch_dictLine k v Hk Hv).
  unfold setProperty at 2.
  rewrite bool_decide_eq_false_2 by (apply Hk).
  apply IH.
Qed.

(** X11.  [parsePlistBuddyDict] on what PlistBuddy prints for a dictionary:
    when each key is a word without white space (other than [__proto__])
    and each value a text without line break or white space at its ends,
    the result maps each key to [parseFloat] of its value, the last entry
    printed for a key being the one kept. *)
Theorem parsePlistBuddyDict_printed {Num} (parseFloat : list N -> Num)
    (entries : list (list N * list N)) :
  Forall wellPrinted entries ->
  parsePlistBuddyDict parseFloat (printDict entries)
  = foldl (fun result entry => <[fst entry := parseFloat (snd entry)]> result)
          ∅ entries.
Proof.
  intros H. unfold parsePlistBuddyDict, printDict.
  change (js "Dict {" ++ LINE_FEED ++ ?r) with (js "Dict {" ++ 10%N :: r).
  rewrite splitOn_line by (each discriminate).
  rewrite (splitOn_lines (fun e => INDENT ++ dictLine e)).
  - rewrite (splitOn_last (js "}")) by (each discriminate).
    rewrite map_cons, map_app, map_map. cbn [map].
    rewrite filter_cons_False by (intros (_ & E & _); apply E; reflexivity).
    rewrite filter_app.
    rewrite (filter_cons_False _ (trim (js "}")))
      by (intros (_ & _ & E); apply E; reflexivity).
    rewrite filter_nil, app_nil_r.
    rewrite (dict_lines_kept entries H).
    apply dict_fold. exact H.
  - eapply Forall_impl; [exact H|]. intros [k v] [Hk Hv].
    exact (noLineFeed_dictLine k v Hk Hv).
Qed.

Lemma parsePlistBuddyDict_printed_witness :
  parsePlistBuddyDict (fun s => s)
    (printDict [(js "Name", js "120.5"); (js "Kind", js "80");
                (js "Name", js "99")])
  = <[js "Name" := js "99"]>
      (<[js "Kind" := js "80"]> (<[js "Name" := js "120.5"]> ∅)).
Proof.
  rewrite parsePlistBuddyDict_printed; [reflexivity|].
  each (unfold wellPrinted, isDictKey, isDictValue; cbn [fst snd];
        repeat split; try discriminate; try reflexivity;
        each (first [discriminate | reflexivity])).
Defined.

End PlistBuddyOutput.

(* ===================================================================== *)
(** * The listing script and its output *)
(* ===================================================================== *)

Section Lines.

Lemma splitOn_nonempty sep s : splitOn sep s <> [].
Proof.
  destruct s as [|c s]; cbn [splitOn]; [discriminate|].
  destruct (c =? sep)%N; [discriminate|].
  destruct (splitOn sep s); discriminate.
Qed.

Lemma splitOn_app sep a b :
  splitOn sep (a ++ sep :: b) = splitOn sep a ++ splitOn sep b.
Proof.
  induction a as [|c a IH]; cbn [app splitOn].
  - rewrite N.eqb_refl. reflexivity.
  - destruct (c =? sep)%N; [rewrite IH; reflexivity|].
    rewrite IH.
    pose proof (splitOn_nonempty sep a) as Hne.
    destruct (splitOn sep a) as [|l ls]; [congruence | reflexivity].
Qed.

Lemma splitOn_snoc sep c x :
  c <> sep ->
  forall init lst, splitOn sep x = init ++ [lst] ->
  splitOn sep (x ++ [c]) = init ++ [lst ++ [c]].
Proof.
  intros Hc. induction x as [|d x IH]; intros init lst H.
  - cbn [splitOn] in H.
    destruct init as [|i0 [|i1 init]]; try discriminate H.
    injection H as <-. cbn [app splitOn].
    destruct (N.eqb_spec c sep); [congruence | reflexivity].
  - cbn [app splitOn] in *. destruct (d =? sep)%N.
    + destruct init as [|i0 init].
      * exfalso. injection H as _ H. exact (splitOn_nonempty _ _ H).
      * injection H as <- H. rewrite (IH _ _ H). reflexivity.
    + pose proof (splitOn_nonempty sep x) as Hne.
      destruct (splitOn sep x) as [|l ls] eqn:E; [congruence|].
      destruct init as [|i0 init].
      * injection H as <- ->. rewrite (IH [] l eq_refl). reflexivity.
      * injection H as <- ->.
        rewrite (IH (l :: init) lst eq_refl). reflexivity.
Qed.

Lemma splitOn_rev sep s :
  splitOn sep (rev s) = rev (map (@rev N) (splitOn sep s)).
Proof.
  induction s as [|c s IH]; [reflexivity|].
  cbn [rev splitOn]. destruct (N.eqb_spec c sep) as [-> | Hc].
  - rewrite splitOn_app, IH. reflexivity.
  - pose proof (splitOn_nonempty sep s) as Hne.
    destruct (splitOn sep s) as [|l ls]; [congruence|].
    cbn [map rev] in *.
    rewrite (splitOn_snoc sep c (rev s) Hc _ _ IH). reflexivity.
Qed.

(** [filter(Boolean)] on an array of strings. *)
Local Abbreviation nonEmptyLines := (filter (fun l : list N => l <> [])).

Lemma trimStart_lines s :
  Forall headNotSpace (splitOn 10 s) ->
  exists k, splitOn 10 s = replicate k [] ++ splitOn 10 (trimStart s).
Proof.
  induction s as [|c s IH]; intros H.
  - exists O. reflexivity.
  - cbn [trimStart]. destruct (isSpace c) eqn:Hs; [|exists O; reflexivity].
    cbn [splitOn] in *. destruct (N.eqb_spec c 10) as [-> | Hc].
    + apply Forall_inv_tail in H. destruct (IH H) as [k Hk].
      exists (S k). cbn [replicate app]. rewrite <- Hk. reflexivity.
    + exfalso. pose proof (splitOn_nonempty 10 s) as Hne.
      destruct (splitOn 10 s); [congruence|].
      apply Forall_inv in H. cbn in H. congruence.
Qed.

Lemma nonEmptyLines_replicate k ls :
  nonEmptyLines (replicate k [] ++ ls) = nonEmptyLines ls.
Proof.
  induction k as [|k IH]; cbn [replicate app]; [reflexivity|].
  rewrite filter_cons_False by (intros H; apply H; reflexivity). exact IH.
Qed.

Lemma nonEmptyLines_rev ls :
  nonEmptyLines (rev (map (@rev N) ls)) = rev (map (@rev N) (nonEmptyLines ls)).
Proof.
  induction ls as [|l ls IH]; [reflexivity|].
  cbn [map rev]. rewrite filter_app, IH.
  destruct l as [|c l].
  - rewrite (filter_cons_False _ [] ls) by (intros H; apply H; reflexivity).
    cbn [rev]. rewrite filter_cons_False by (intros H; apply H; reflexivity).
    rewrite filter_nil, app_nil_r. reflexivity.
  - rewrite (filter_cons_True _ (c :: l) ls) by discriminate.
    rewrite filter_cons_True.
    + rewrite filter_nil. reflexivity.
    + cbn [rev]. intros E. destruct (rev l); discriminate E.
Qed.

Lemma rev_map_rev (ls : list (list N)) :
  rev (map (@rev N) (rev (map (@rev N) ls))) = ls.
Proof.
  rewrite map_rev, rev_involutive, map_map.
  rewrite (map_ext _ id); [apply map_id|].
  intros l. apply rev_involutive.
Qed.

(** Trimming a text whose lines have no white space at their ends only
    removes empty lines. *)
Lemma trim_lines s :
  Forall (fun l => headNotSpace l /\ headNotSpace (rev l)) (splitOn 10 s) ->
  nonEmptyLines (splitOn 10 (trim s)) = nonEmptyLines (splitOn 10 s).
Proof.
  intros H.
  assert (H1 : Forall headNotSpace (splitOn 10 s)).
  { eapply Forall_impl; [exact H|]. intros l [Hl _]. exact Hl. }
  destruct (trimStart_lines s H1) as [k Hk].
  rewrite Hk, nonEmptyLines_replicate.
  assert (H2 : Forall (fun l => headNotSpace (rev l))
                 (splitOn 10 (trimStart s))).
  { rewrite Hk in H. apply Forall_app in H as [_ H].
    eapply Forall_impl; [exact H|]. intros l [_ Hl]. exact Hl. }
  unfold trim, trimEnd. set (t := trimStart s) in *.
  assert (H3 : Forall headNotSpace (splitOn 10 (rev t))).
  { rewrite splitOn_rev. apply Forall_rev, Forall_map. exact H2. }
  destruct (trimStart_lines (rev t) H3) as [j Hj].
  rewrite splitOn_rev, nonEmptyLines_rev.
  rewrite <- (nonEmptyLines_replicate j (splitOn 10 (trimStart (rev t)))).
  rewrite <- Hj, splitOn_rev, nonEmptyLines_rev, rev_map_rev.
  reflexivity.
Qed.

End Lines.

Section ListingScript.

Context {Value : Type}.
Context (pythonFails : list N -> gmap (list N) Value -> option (list N)).
Context (pythonOther : list N -> gmap (list N) Value
                       -> (list N + list N) * gmap (list N) Value).

Lemma splitOn_join names tail :
  Forall noLineFeed names ->
  splitOn 10 (join [10%N] names ++ 10%N :: tail)
  = match names with [] => [[]] | _ => names end ++ splitOn 10 tail.
Proof.
  induction 1 as [|n names Hn Hnames IH]; cbn [join app splitOn].
  - reflexivity.
  - destruct names as [|m names].
    + rewrite (splitOn_line n tail Hn). reflexivity.
    + rewrite <- !app_assoc. cbn [app].
      rewrite (splitOn_line n _ Hn), IH. reflexivity.
Qed.

(** What JavaScript reads back from the lines the scripts print: the names
    printed, without the empty one, when no name holds a line feed or has
    white space at an end. *)
Lemma printed_names names :
  Forall plainName names ->
  filter (fun l : list N => l <> [])
         (splitOn 10 (trim (join [10%N] names ++ [10%N])))
  = filter (fun l : list N => l <> []) names.
Proof.
  intros H.
  assert (Hlf : Forall noLineFeed names).
  { eapply Forall_impl; [exact H|]. intros n (Hn & _). exact Hn. }
  assert (Hsplit : splitOn 10 (join [10%N] names ++ [10%N])
                   = match names with [] => [[]] | _ => names end ++ [[]]).
  { exact (splitOn_join names [] Hlf). }
  rewrite trim_lines.
  - rewrite Hsplit, filter_app.
    rewrite (filter_cons_False _ [] []) by (intros E; apply E; reflexivity).
    rewrite filter_nil, app_nil_r.
    destruct names; [|reflexivity].
    rewrite filter_cons_False by (intros E; apply E; reflexivity).
    reflexivity.
  - rewrite Hsplit. apply Forall_app. split.
    + destruct names as [|n names].
      * constructor; [split; exact I | constructor].
      * eapply Forall_impl; [exact H|]. intros l (_ & H1 & H2).
        split; assumption.
    + constructor; [split; exact I | constructor].
Qed.

Lemma compareStrings_antisym a b :
  compareStrings a b <= 0 -> compareStrings b a <= 0 -> a = b.
Proof.
  revert b. induction a as [|x a IH]; intros [|y b]; cbn; try lia;
    [reflexivity|].
  destruct (N.ltb_spec x y), (N.ltb_spec y x); try lia.
  intros H1 H2. f_equal; [lia | exact (IH b H1 H2)].
Qed.

Lemma compareStrings_pointsLe a b :
  pointsLe a b -> compareStrings a b <= 0.
Proof.
  induction 1 as [b | x y a b Hlt | x a b H IH]; cbn [compareStrings].
  - destruct b; lia.
  - destruct (N.ltb_spec x y); lia.
  - rewrite N.ltb_irrefl. exact IH.
Qed.

(** Reading the UTF-16 form of scalar values gives them back. *)
Lemma codePoints_utf16 points :
  Forall isScalar points -> codePoints (utf16 points) = points.
Proof.
  induction 1 as [|p points Hp Hpoints IH]; [reflexivity|].
  unfold utf16 in *. cbn [flat_map]. unfold utf16Units at 1.
  destruct (N.ltb_spec p 65536) as [Hlow | Hhigh].
  - cbn [app codePoints].
    destruct (flat_map utf16Units points) as [|lo rest] eqn:E.
    + rewrite <- IH. reflexivity.
    + assert (Hhi : isHighSurrogate p = false).
      { unfold isHighSurrogate. destruct Hp as [Hp | Hp].
        - destruct (N.leb_spec 55296 p); [lia | reflexivity].
        - destruct (N.leb_spec p 56319); [lia|].
          apply andb_false_r. }
      rewrite Hhi. cbn [andb]. rewrite IH. reflexivity.
  - assert (Hq : ((p - 65536) / 1024 < 1024)%N).
    { apply N.Div0.div_lt_upper_bound. destruct Hp as [Hp | Hp]; lia. }
    assert (Hr : ((p - 65536) mod 1024 < 1024)%N)
      by (apply N.mod_lt; discriminate).
    cbn [app codePoints].
    pose proof (N.div_mod (p - 65536) 1024) as Hdm.
    set (q := ((p - 65536) / 1024)%N) in *.
    set (r := ((p - 65536) mod 1024)%N) in *.
    clearbody q r.
    assert (Hhi : isHighSurrogate (55296 + q) = true).
    { unfold isHighSurrogate. apply andb_true_intro.
      split; apply N.leb_le; lia. }
    assert (Hlo : isLowSurrogate (56320 + r) = true).
    { unfold isLowSurrogate. apply andb_true_intro.
      split; apply N.leb_le; lia. }
    rewrite Hhi, Hlo. cbn [andb]. rewrite IH. f_equal.
    specialize (Hdm ltac:(discriminate)).
    lia.
Qed.

Lemma comparePython_pythonLe a b : pythonLe a b -> comparePython a b <= 0.
Proof.
  intros (pa & pb & Ha & Hb & -> & -> & Hle). unfold comparePython.
  rewrite !codePoints_utf16 by assumption.
  apply compareStrings_pointsLe. exact Hle.
Qed.

(** Two names that Python's order and the order of the sort put either
    way round are one name. *)
Lemma comparePython_pythonLe_antisym a b :
  comparePython a b <= 0 -> pythonLe b a -> a = b.
Proof.
  intros Hab (pb & pa & Hb & Ha & -> & -> & Hle). unfold comparePython in Hab.
  rewrite !codePoints_utf16 in Hab by assumption.
  f_equal. apply compareStrings_antisym; [exact Hab|].
  apply compareStrings_pointsLe. exact Hle.
Qed.

Lemma sorted_unique (R1 R2 : list N -> list N -> Prop)
    (l1 l2 : list (list N)) :
  (forall a b, R1 a b -> R2 b a -> a = b) ->
  StronglySorted R1 l1 ->
  StronglySorted R2 l2 ->
  NoDup l1 -> NoDup l2 ->
  (forall x, x ∈ l1 <-> x ∈ l2) ->
  l1 = l2.
Proof.
  intros Hanti S1. revert l2.
  induction S1 as [|x1 l1 S1 IH H1]; intros l2 S2 N1 N2 Hiff.
  - destruct l2 as [|x2 l2]; [reflexivity|].
    exfalso. apply (not_elem_of_nil x2), Hiff. left.
  - destruct S2 as [|x2 l2 S2 H2].
    { exfalso. apply (not_elem_of_nil x1), Hiff. left. }
    apply NoDup_cons in N1 as [Hx1 N1]. apply NoDup_cons in N2 as [Hx2 N2].
    rewrite List.Forall_forall in H1, H2.
    assert (x1 = x2) as <-.
    { assert (Ha : x1 ∈ x2 :: l2) by (apply Hiff; left).
      assert (Hb : x2 ∈ x1 :: l1) by (apply Hiff; left).
      apply elem_of_cons in Ha as [Ha | Ha]; [exact Ha|].
      apply elem_of_cons in Hb as [Hb | Hb]; [symmetry; exact Hb|].
      apply Hanti.
      - apply H1, list_elem_of_In, Hb.
      - apply H2, list_elem_of_In, Ha. }
    f_equal. apply (IH l2 S2 N1 N2). intros x. split; intros Hx.
    + assert (Hin : x ∈ x1 :: l2) by (apply Hiff; right; exact Hx).
      apply elem_of_cons in Hin as [-> | Hin]; [contradiction | exact Hin].
    + assert (Hin : x ∈ x1 :: l1) by (apply Hiff; right; exact Hx).
      apply elem_of_cons in Hin as [-> | Hin]; [contradiction | exact Hin].
Qed.

Lemma stripPrefix_Some p k n : stripPrefix p k = Some n <-> k = p ++ n.
Proof.
  split; [apply stripPrefix_inv | intros ->; apply stripPrefix_app].
Qed.

(** X12.  When the path and the prefixes are written into the listing script as
    they are (no backslash or line break in them, no quote in the path)
    and python3 runs the script to its end, [getPlistKeysByPrefix] returns
    the first [limit] base names of the store in Python's order, that of
    the scalar values and not that of the UTF-16 code units: with [names]
    the base names found after one of the prefixes in a key of the store,
    without those that start with "Outline", each once, in Python's
    ascending order, the result is [names.slice(0, limit)] without the
    empty name, provided the names printed hold no line feed and no white
    space at their ends. *)
Theorem getPlistKeysByPrefix_listing (plistPath : list N)
    (data : gmap (list N) Value)
    (prefixes : list (list N)) (limit : nat) (names : list (list N)) :
  pathPlain plistPath = true ->
  forallb literalPlain prefixes = true ->
  pythonFails (listingScript plistPath prefixes limit) data = None ->
  NoDup names ->
  StronglySorted pythonLe names ->
  (forall n, n ∈ names <-> isListedName (dom data) prefixes n) ->
  Forall plainName (take limit names) ->
  getPlistKeysByPrefix pythonFails pythonOther plistPath data prefixes limit
  = filter (fun n : list N => n <> []) (take limit names).
Proof.
  intros Hpath Hprefixes Hruns Hnodup Hsorted Hnames Hplain.
  unfold getPlistKeysByPrefix.
  rewrite Hpath, Hprefixes, Hruns. cbn [andb].
  set (found := elements (list_to_set
                  (flat_map (fun k => omap (fun p => stripPrefix p k) prefixes)
                            (elements (dom data))) : gset (list N))).
  set (kept := filter (fun n => startsWith (js "Outline") n = false) found).
  assert (Hperm : Permutation (sortBy comparePython kept) kept)
    by apply sortBy_perm.
  assert (E : sortBy comparePython kept = names).
  { apply (sorted_unique (fun a b => comparePython a b <= 0) pythonLe).
    - intros a b. apply comparePython_pythonLe_antisym.
    - apply sortBy_sorted.
      + intros a b. apply compareStrings_total.
      + intros a b c. apply compareStrings_trans.
    - exact Hsorted.
    - rewrite Hperm. apply NoDup_filter, NoDup_elements.
    - exact Hnodup.
    - intros n. rewrite Hperm, Hnames. unfold kept, found, isListedName.
      rewrite list_elem_of_filter, elem_of_elements, elem_of_list_to_set.
      rewrite list_elem_of_In, in_flat_map.
      split.
      + intros (Hout & k & Hk & Hn). split; [exact Hout|].
        apply list_elem_of_In, list_elem_of_omap in Hn as (p & Hp & Hs).
        exists p. split; [apply list_elem_of_In, Hp|].
        apply stripPrefix_Some in Hs as <-.
        apply list_elem_of_In, elem_of_elements in Hk. exact Hk.
      + intros (Hout & p & Hp & Hk). split; [exact Hout|].
        exists (p ++ n). split.
        * apply list_elem_of_In, elem_of_elements, Hk.
        * apply list_elem_of_In, list_elem_of_omap.
          exists p. split; [apply list_elem_of_In, Hp|].
          apply stripPrefix_app. }
  rewrite E. apply printed_names. exact Hplain.
Qed.

End ListingScript.

Lemma getPlistKeysByPrefix_listing_witness :
  getPlistKeysByPrefix pythonRuns pythonSyntaxError samplePlistPath
    glyphStore ColumnLayout.LAYOUT_PREFIXES 200
  = [[65374%N]; [55357%N; 56832%N]].
Proof.
  rewrite (getPlistKeysByPrefix_listing pythonRuns pythonSyntaxError
             samplePlistPath glyphStore ColumnLayout.LAYOUT_PREFIXES
             200 [[65374%N]; [55357%N; 56832%N]]).
  - vm_compute. reflexivity.
  - reflexivity.
  - reflexivity.
  - reflexivity.
  - apply NoDup_ListNoDup.
    repeat (constructor; [cbn; intuition discriminate|]). constructor.
  - apply SSorted_cons; [apply SSorted_cons; constructor|].
    constructor; [|constructor].
    exists [65374%N], [128512%N].
    split; [each (right; lia)|]. split; [each (right; lia)|].
    split; [reflexivity|]. split; [reflexivity|].
    apply pointsLe_lt. lia.
  - intros n. split.
    + intros Hn. apply list_elem_of_In in Hn.
      destruct Hn as [<- | [<- | []]].
      * split; [reflexivity|].
        exists (js "TableView Columns ListColumnsHorizontal-").
        split; [right; left; reflexivity|].
        apply elem_of_dom. exists (js "Array { Kind }").
        vm_compute. reflexivity.
      * split; [reflexivity|].
        exists (js "ListColumnsHorizontal-"). split; [left; reflexivity|].
        apply elem_of_dom. exists (js "Array { Name }").
        vm_compute. reflexivity.
    + intros (_ & p & Hp & Hk).
      apply elem_of_dom in Hk. unfold glyphStore in Hk.
      rewrite !lookup_insert_is_Some, lookup_empty in Hk.
      destruct Hk as [E | [_ [E | [_ [v Hv]]]]];
        [| |discriminate Hv];
        destruct Hp as [<- | [<- | [<- | []]]]; vm_compute in E;
        try discriminate E;
        injection E as <-; apply list_elem_of_In; cbn; auto.
  - each (unfold plainName; split; [each discriminate | split; reflexivity]).
Defined.

(* ===================================================================== *)
(** * The copy script *)
(* ===================================================================== *)

Section PythonLiterals.

Lemma pyBody_literal s :
  pythonPlain s ->
  pyBody (replaceLitFrom [39%N] [92%N; 39%N] O s ++ [39%N]) = Some s.
Proof.
  induction 1 as [|c s (H1 & H2 & H3) _ IH]; [reflexivity|].
  cbn [replaceLitFrom startsWith length Nat.sub].
  destruct (N.eqb_spec 39 c) as [<- | Hne]; cbn [andb].
  - cbn [app pyBody]. change (39 =? 39)%N with true.
    change (92 =? 39)%N with false. change (92 =? 92)%N with true.
    change ((92 =? 10) || (92 =? 13))%N with false.
    cbv iota. change (pyEscape 39) with (Some 39%N). cbv iota.
    rewrite IH. reflexivity.
  - cbn [app pyBody].
    destruct (N.eqb_spec c 39) as [-> | _]; [congruence|].
    destruct (N.eqb_spec c 10) as [-> | _]; [congruence|].
    destruct (N.eqb_spec c 13) as [-> | _]; [congruence|].
    destruct (N.eqb_spec c 92) as [-> | _]; [congruence|].
    cbn [orb]. rewrite IH. reflexivity.
Qed.



End PythonLiterals.

Section CopyScript.

Context {Value : Type}.
Context (pythonFails : list N -> gmap (list N) Value -> option (list N)).
Context (dumpFails : list N -> gmap (list N) Value -> gmap (list N) Value
                     -> option (list N * gmap (list N) Value)).
Context (pythonOther : list N -> gmap (list N) Value
                       -> (list N + list N) * gmap (list N) Value).
Context (execError : list N -> list N).

(** Keys of different layout suffixes never coincide, whatever the names. *)
Lemma layoutKey_distinct s1 s2 a b :
  In s1 ColumnLayout.LAYOUT_SUFFIXES -> In s2 ColumnLayout.LAYOUT_SUFFIXES ->
  s1 <> s2 -> layoutKey s1 a <> layoutKey s2 b.
Proof.
  unfold layoutKey. cbn [In ColumnLayout.LAYOUT_SUFFIXES].
  intros [<- | [<- | [<- | []]]] [<- | [<- | [<- | []]]] Hne E;
    try congruence; vm_compute in E; discriminate E.
Qed.

Lemma copyLoop_spec (data : gmap (list N) Value) (source target : list N)
    (suffixes : list (list N)) :
  NoDup suffixes ->
  (forall s1 s2 a b, In s1 suffixes -> In s2 suffixes -> s1 <> s2 ->
     layoutKey s1 a <> layoutKey s2 b) ->
  forall (d : gmap (list N) Value) (c : list (list N)),
    (forall s, In s suffixes ->
       d !! layoutKey s source = data !! layoutKey s source) ->
    let result :=
      foldl (fun '(data, copied) suffix =>
               let src_key := suffix ++ js "-" ++ source in
               let tgt_key := suffix ++ js "-" ++ target in
               match data !! src_key with
               | Some v => (<[tgt_key := v]> data, copied ++ [tgt_key])
               | None => (data, copied)
               end)
            (d, c) suffixes in
    snd result = c ++ copiedKeys data suffixes source target /\
    (forall s, In s suffixes ->
       fst result !! layoutKey s target
       = match data !! layoutKey s source with
         | Some v => Some v
         | None => d !! layoutKey s target
         end) /\
    (forall key, (forall s, In s suffixes -> key <> layoutKey s target) ->
       fst result !! key = d !! key).
Proof.
  induction suffixes as [|s rest IH]; intros Hnd Hdist d c Hsrc.
  - cbn. rewrite app_nil_r. repeat split; intros ? [].
  - apply NoDup_cons in Hnd as [Hs Hnd].
    rewrite list_elem_of_In in Hs.
    assert (Hdist' : forall s1 s2 a b, In s1 rest -> In s2 rest -> s1 <> s2 ->
                       layoutKey s1 a <> layoutKey s2 b).
    { intros s1 s2 a b H1 H2. apply Hdist; right; assumption. }
    assert (Hother : forall s2 a b, In s2 rest ->
                       layoutKey s a <> layoutKey s2 b).
    { intros s2 a b H2. apply Hdist; [left; reflexivity | right; exact H2|].
      intros ->. exact (Hs H2). }
    cbn [foldl]. cbv zeta beta.
    fold (layoutKey s source). fold (layoutKey s target).
    rewrite (Hsrc s (or_introl eq_refl)).
    unfold copiedKeys. cbn [omap list_omap].
    destruct (data !! layoutKey s source) as [v|] eqn:Ev.
    + specialize (IH Hnd Hdist' (<[layoutKey s target := v]> d)
                    (c ++ [layoutKey s target])).
      cbv zeta beta in IH.
      destruct IH as (Hc & Ht & Hf).
      { intros s2 H2. rewrite lookup_insert_ne by (apply Hother, H2).
        apply Hsrc. right. exact H2. }
      split; [|split].
      * rewrite Hc, <- app_assoc. reflexivity.
      * intros s2 [<- | H2].
        -- rewrite Hf by (intros s3 H3; apply Hother, H3).
           rewrite lookup_insert_eq, Ev. reflexivity.
        -- rewrite (Ht s2 H2).
           rewrite lookup_insert_ne by (apply Hother, H2). reflexivity.
      * intros key Hkey. rewrite Hf by (intros s3 H3; apply Hkey; right; exact H3).
        apply lookup_insert_ne. intros E. apply (Hkey s); [left|]; auto.
    + specialize (IH Hnd Hdist' d c).
      cbv zeta beta in IH.
      destruct IH as (Hc & Ht & Hf).
      { intros s2 H2. apply Hsrc. right. exact H2. }
      split; [|split].
      * exact Hc.
      * intros s2 [<- | H2].
        -- rewrite Hf by (intros s3 H3; apply Hother, H3).
           rewrite Ev. reflexivity.
        -- exact (Ht s2 H2).
      * intros key Hkey. apply Hf. intros s3 H3. apply Hkey. right. exact H3.
Qed.

Lemma layout_suffixes_NoDup : NoDup ColumnLayout.LAYOUT_SUFFIXES.
Proof.
  apply NoDup_ListNoDup.
  repeat (constructor; [cbn; intuition discriminate|]). constructor.
Qed.

Lemma plainName_layoutKey s target :
  In s ColumnLayout.LAYOUT_SUFFIXES ->
  noLineFeed target -> headNotSpace (rev target) ->
  plainName (layoutKey s target).
Proof.
  intros Hs Hlf Hlast. unfold plainName, layoutKey.
  cbn [In ColumnLayout.LAYOUT_SUFFIXES] in Hs.
  assert (Hrev : headNotSpace (rev (js "-" ++ target))).
  { rewrite rev_app_distr. destruct (rev target); [reflexivity | exact Hlast]. }
  destruct Hs as [<- | [<- | [<- | []]]];
    (split; [apply noLineFeed_app;
               [each discriminate
               |apply noLineFeed_app; [each discriminate | exact Hlf]]
            |split; [reflexivity|]]);
    rewrite rev_app_distr; apply headNotSpace_app; try exact Hrev;
    rewrite rev_app_distr; destruct (rev target); discriminate.
Qed.

Lemma copiedKeys_plain (data : gmap (list N) Value) source target suffixes :
  (forall s, In s suffixes -> plainName (layoutKey s target)) ->
  Forall plainName (copiedKeys data suffixes source target) /\
  filter (fun l : list N => l <> []) (copiedKeys data suffixes source target)
  = copiedKeys data suffixes source target.
Proof.
  induction suffixes as [|s rest IH]; intros H.
  - split; [constructor | reflexivity].
  - destruct IH as [IH1 IH2]; [intros s2 H2; apply H; right; exact H2|].
    unfold copiedKeys in *. cbn [omap list_omap].
    destruct (data !! layoutKey s source); [|split; assumption].
    split; [constructor; [apply H; left; reflexivity | exact IH1]|].
    rewrite filter_cons_True.
    + rewrite IH2. reflexivity.
    + unfold layoutKey. destruct s; discriminate.
Qed.

Lemma literalPlain_noLineFeed s : literalPlain s = true -> noLineFeed s.
Proof.
  unfold literalPlain, noLineFeed. intros H.
  apply List.Forall_forall. intros c Hc.
  rewrite forallb_forall in H. specialize (H c Hc).
  unfold pyPlainChar in H. intros ->. discriminate H.
Qed.

(** X14.  The copy script copies each layout key the source has, and nothing
    else changes: for a path and names written into the script as they are
    (no backslash or line break in them, no quote in the path), when
    python3 runs the script and writes the file without failure and the
    store holds a layout key of [source], [copyPlistKeys] returns
    [ok = true]; afterwards each of the three keys of [target] holds what
    the store held under the key of [source], or is as it was when
    [source] has no such key, and every other key is as it was.  The keys
    reported are the target keys written, in the order of the suffixes,
    when [target] does not end in white space. *)
Theorem copyPlistKeys_layout (plistPath : list N)
    (data : gmap (list N) Value) (source target : list N) :
  pathPlain plistPath = true ->
  literalPlain source = true ->
  literalPlain target = true ->
  pythonFails
    (copyScript plistPath ColumnLayout.LAYOUT_SUFFIXES source target) data
  = None ->
  (forall written,
     dumpFails
       (copyScript plistPath ColumnLayout.LAYOUT_SUFFIXES source target)
       data written = None) ->
  (exists suffix, In suffix ColumnLayout.LAYOUT_SUFFIXES /\
     is_Some (data !! layoutKey suffix source)) ->
  let result :=
    copyPlistKeys pythonFails dumpFails pythonOther execError plistPath data
      ColumnLayout.LAYOUT_SUFFIXES source target in
  PlistReader.ok (fst result) = true /\
  (forall suffix, In suffix ColumnLayout.LAYOUT_SUFFIXES ->
     snd result !! layoutKey suffix target
     = match data !! layoutKey suffix source with
       | Some v => Some v
       | None => data !! layoutKey suffix target
       end) /\
  (forall key,
     (forall suffix, In suffix ColumnLayout.LAYOUT_SUFFIXES ->
        key <> layoutKey suffix target) ->
     snd result !! key = data !! key) /\
  (headNotSpace (rev target) ->
   PlistReader.keysCopied (fst result)
   = copiedKeys data ColumnLayout.LAYOUT_SUFFIXES source target).
Proof.
  intros Hpath Hsource Htarget Hruns Hdump (s0 & Hs0 & v0 & Hv0) result.
  subst result.
  unfold copyPlistKeys, copyLoop. rewrite Hpath, Hsource, Htarget, Hruns.
  change (forallb literalPlain ColumnLayout.LAYOUT_SUFFIXES) with true.
  cbn [andb].
  pose proof (copyLoop_spec data source target ColumnLayout.LAYOUT_SUFFIXES
                layout_suffixes_NoDup layoutKey_distinct data []
                (fun _ _ => eq_refl)) as Hspec.
  cbv zeta in Hspec.
  destruct (foldl _ (data, []) ColumnLayout.LAYOUT_SUFFIXES)
    as [data' copied] eqn:E.
  cbn [fst snd app] in Hspec. destruct Hspec as (Hc & Ht & Hf).
  assert (Hne : copied <> []).
  { rewrite Hc. unfold copiedKeys. intros Hnil.
    assert (Hin : layoutKey s0 target
                  ∈ omap (fun suffix =>
                            match data !! layoutKey suffix source with
                            | Some _ => Some (layoutKey suffix target)
                            | None => None
                            end) ColumnLayout.LAYOUT_SUFFIXES).
    { apply list_elem_of_omap. exists s0.
      split; [apply list_elem_of_In, Hs0 | rewrite Hv0; reflexivity]. }
    rewrite Hnil in Hin. exact (not_elem_of_nil _ Hin). }
  destruct copied as [|k ks]; [congruence|].
  rewrite Hdump.
  cbn [fst snd PlistReader.ok PlistReader.keysCopied].
  split; [reflexivity|]. split; [exact Ht|]. split; [exact Hf|].
  intros Hlast.
  destruct (copiedKeys_plain data source target ColumnLayout.LAYOUT_SUFFIXES)
    as [Hplain Hkeep].
  { intros s Hs. apply plainName_layoutKey;
      [exact Hs | apply literalPlain_noLineFeed, Htarget | exact Hlast]. }
  rewrite <- Hc in Hplain, Hkeep.
  rewrite (printed_names (k :: ks) Hplain), Hkeep. exact Hc.
Qed.

End CopyScript.

Lemma copyPlistKeys_layout_witness :
  let result :=
    copyPlistKeys pythonRuns dumpWrites pythonSyntaxError identityError
      samplePlistPath jobsStore ColumnLayout.LAYOUT_SUFFIXES
      (js "Jobs - Archive") (js "New") in
  PlistReader.ok (fst result) = true /\
  (forall suffix, In suffix ColumnLayout.LAYOUT_SUFFIXES ->
     snd result !! layoutKey suffix (js "New")
     = match jobsStore !! layoutKey suffix (js "Jobs - Archive") with
       | Some v => Some v
       | None => jobsStore !! layoutKey suffix (js "New")
       end) /\
  (forall key,
     (forall suffix, In suffix ColumnLayout.LAYOUT_SUFFIXES ->
        key <> layoutKey suffix (js "New")) ->
     snd result !! key = jobsStore !! key) /\
  (headNotSpace (rev (js "New")) ->
   PlistReader.keysCopied (fst result)
   = copiedKeys jobsStore ColumnLayout.LAYOUT_SUFFIXES
       (js "Jobs - Archive") (js "New")).
Proof.
  apply (copyPlistKeys_layout pythonRuns dumpWrites pythonSyntaxError
           identityError samplePlistPath jobsStore
           (js "Jobs - Archive") (js "New")
           eq_refl eq_refl eq_refl eq_refl (fun _ => eq_refl)).
  exists (js "ListColumnsHorizontal"). split; [left; reflexivity|].
  exists (js "Array { Name }"). vm_compute. reflexivity.
Defined.

(* ===================================================================== *)
(** * The e-mail header parser *)
(* ===================================================================== *)

Section References.

Lemma span_until_gt inner rest :
  noGt inner ->
  span (fun c => negb (c =? 62)%N) (inner ++ 62%N :: rest)
  = (inner, 62%N :: rest).
Proof.
  intros H. apply span_app; [|reflexivity].
  eapply Forall_impl; [exact H|]. intros c Hc. cbv beta.
  apply negb_true_iff, N.eqb_neq. exact Hc.
Qed.

Lemma parseReferencesFrom_skip pre rest :
  Eml.parseReferencesFrom (length pre) (pre ++ rest)
  = Eml.parseReferencesFrom O rest.
Proof.
  induction pre as [|c pre IH]; [reflexivity|].
  cbn [length app Eml.parseReferencesFrom]. exact IH.
Qed.

Lemma parseReferencesFrom_text sep rest :
  noLt sep ->
  Eml.parseReferencesFrom O (sep ++ rest) = Eml.parseReferencesFrom O rest.
Proof.
  induction 1 as [|c sep Hc _ IH]; [reflexivity|].
  cbn [app Eml.parseReferencesFrom].
  destruct (span _ (sep ++ rest)) as [inner r].
  destruct (N.eqb_spec c 60) as [-> | _]; [congruence|].
  destruct inner as [|i inner]; [exact IH|].
  destruct r as [|r0 r]; [exact IH|].
  destruct r0 as [|p]; [exact IH|].
  repeat (destruct p as [p|p|]; try exact IH).
Qed.

Lemma parseReferencesFrom_angle inner rest :
  inner <> [] -> noGt inner ->
  Eml.parseReferencesFrom O (angle inner ++ rest)
  = angle inner :: Eml.parseReferencesFrom O rest.
Proof.
  intros Hne Hgt. unfold angle. cbn [app Eml.parseReferencesFrom].
  rewrite <- app_assoc. cbn [app].
  rewrite (span_until_gt inner rest Hgt).
  destruct inner as [|i inner]; [congruence|].
  change (60 =? 60)%N with true. cbv iota. f_equal.
  replace (S (length (i :: inner)))
    with (length ((i :: inner) ++ [62%N]))
    by (rewrite length_app; cbn [length]; lia).
  change ((i :: inner) ++ 62%N :: rest)
    with ((i :: inner) ++ [62%N] ++ rest).
  rewrite app_assoc. apply parseReferencesFrom_skip.
Qed.

(** X15.  [parseReferences] returns the identifiers of a [References] value in
    the order written: for identifiers [<...>] whose inner text is not
    empty and holds no [>], each preceded by any text without [<], the
    result is the list of the identifiers, brackets included. *)
Theorem parseReferences_identifiers (items : list (list N * list N))
    (tail : list N) :
  Forall (fun item => noLt (fst item) /\ snd item <> [] /\ noGt (snd item))
         items ->
  noLt tail ->
  Eml.parseReferences (referencesText items tail)
  = map (fun item => angle (snd item)) items.
Proof.
  intros Hitems Htail. unfold Eml.parseReferences, referencesText.
  induction Hitems as [|[sep inner] items (Hsep & Hne & Hgt) _ IH];
    cbn [flat_map map app fst snd] in *.
  - rewrite <- (app_nil_r tail), parseReferencesFrom_text by exact Htail.
    reflexivity.
  - rewrite <- !app_assoc.
    rewrite (parseReferencesFrom_text sep _ Hsep).
    rewrite (parseReferencesFrom_angle inner _ Hne Hgt), IH. reflexivity.
Qed.

Lemma parseReferences_identifiers_witness :
  Eml.parseReferences (js "see <a@x>, <b<c@y> and more")
  = [js "<a@x>"; js "<b<c@y>"].
Proof.
  apply (parseReferences_identifiers
           [(js "see ", js "a@x"); (js ", ", js "b<c@y")] (js " and more")).
  - each (cbn [fst snd]; repeat split;
          [each discriminate | discriminate | each discriminate]).
  - each discriminate.
Defined.

(** X16.  Whatever the text, every entry [parseReferences] returns is an
    identifier in angle brackets: it begins with [<], ends with [>], and
    has between them at least one code unit and no [>]. *)
Theorem parseReferences_brackets (raw : list N) :
  Forall isMessageId (Eml.parseReferences raw).
Proof.
  unfold Eml.parseReferences. generalize O.
  induction raw as [|c s IH]; intros skip; cbn [Eml.parseReferencesFrom];
    [constructor|].
  destruct skip as [|k]; [|apply IH].
  destruct (span (fun c => negb (c =? 62)%N) s) as [inner r] eqn:Es.
  apply span_split in Es as (_ & Hinner & _).
  destruct inner as [|i inner]; [apply IH|].
  destruct r as [|r0 r]; [apply IH|].
  destruct r0 as [|p]; [apply IH|].
  repeat (destruct p as [p|p|]; try apply IH).
  destruct (N.eqb_spec c 60) as [-> | _]; [|apply IH].
  constructor; [|apply IH].
  exists (i :: inner). split; [reflexivity|]. split; [discriminate|].
  eapply Forall_impl; [exact Hinner|]. intros x Hx. cbv beta in Hx.
  apply negb_true_iff, N.eqb_neq in Hx. exact Hx.
Qed.

End References.

Section EncodedWordFacts.

Context (rt : Runtime).

(** X17.  A header value that holds no [=?] is returned as it is by
    [decodeEncodedWords]. *)
Theorem decodeEncodedWords_plain (input : list N) :
  includes input (js "=?") = false ->
  Eml.decodeEncodedWords rt input = input.
Proof.
  intros H. unfold includes in H. apply negb_false_iff, Z.eqb_eq in H.
  apply indexOf_none_find in H. unfold Eml.decodeEncodedWords.
  induction input as [|c s IH]; [reflexivity|].
  cbn [find] in H.
  destruct (startsWith (js "=?") (c :: s)) eqn:Es; [discriminate|].
  destruct (find (js "=?") s) eqn:Ef; [discriminate|].
  cbn [Eml.decodeEncodedWordsFrom].
  unfold Eml.encodedWordHere, stripPrefix. rewrite Es.
  cbn [mbind option_bind]. rewrite IH by reflexivity. reflexivity.
Qed.

Lemma hexDigit_value n :
  (n < 16)%N ->
  Eml.isHexDigit (hexDigit n) = true /\ Eml.hexValue (hexDigit n) = n.
Proof.
  intros Hn. unfold Eml.isHexDigit, Eml.hexValue, hexDigit.
  destruct (N.ltb_spec n 10);
    repeat match goal with
      | |- context [(?a <=? ?b)%N] => destruct (N.leb_spec a b)
      end; cbn [andb orb]; split; try reflexivity; lia.
Qed.

Lemma qText_plain c rest :
  c <> 61%N -> c <> 95%N -> qText (c :: rest) = c :: qText rest.
Proof.
  intros H1 H2. cbn [qText].
  destruct (N.eqb_spec c 95); [congruence|].
  destruct (N.eqb_spec c 61); [congruence|].
  destruct rest as [|h1 [|h2 rest]]; try reflexivity.
  destruct (hexDigitValue h1), (hexDigitValue h2); reflexivity.
Qed.

Lemma qText_underscore rest : qText (95%N :: rest) = 32%N :: qText rest.
Proof.
  destruct rest as [|h1 [|h2 rest]]; try reflexivity.
  cbn [qText]. destruct (hexDigitValue h1), (hexDigitValue h2); reflexivity.
Qed.

Lemma qText_qEncode bytes :
  Forall isByte bytes -> qText (qEncode bytes) = bytes.
Proof.
  induction 1 as [|b bytes Hb _ IH]; [reflexivity|].
  unfold qEncode in *. cbn [flat_map]. unfold qEncodeByte at 1.
  destruct (N.eqb_spec b 32) as [-> | H32].
  - cbn [app]. rewrite qText_underscore, IH. reflexivity.
  - destruct (qSafe b) eqn:Hsafe.
    + cbn [app]. unfold qSafe in Hsafe.
      apply andb_prop in Hsafe as [_ Hsafe].
      apply negb_true_iff, orb_false_elim in Hsafe as [Hsafe H95].
      apply orb_false_elim in Hsafe as [H61 _].
      apply N.eqb_neq in H61, H95.
      rewrite (qText_plain b _ H61 H95), IH. reflexivity.
    + cbn [app qText]. change (61 =? 95)%N with false.
      change (61 =? 61)%N with true.
      unfold isByte in Hb.
      destruct (hexDigit_value (b / 16)) as [E1 V1].
      { apply N.Div0.div_lt_upper_bound. lia. }
      destruct (hexDigit_value (b mod 16)) as [E2 V2].
      { apply N.mod_lt. lia. }
      rewrite !hexDigitValue_code, E1, E2, V1, V2, IH. f_equal.
      pose proof (N.div_mod b 16 ltac:(lia)). lia.
Qed.

Lemma low_bytes bytes :
  Forall isByte bytes -> map (fun c => N.land c 255) bytes = bytes.
Proof.
  induction 1 as [|b bytes Hb _ IH]; [reflexivity|].
  cbn [map]. rewrite IH. f_equal.
  change 255%N with (N.ones 8). rewrite N.land_ones.
  apply N.mod_small. exact Hb.
Qed.

(** X18.  Q encoding round trip: for bytes written in the Q encoding (a space
    as an underscore, a safe printable character as itself, any other byte
    as [=] and two hexadecimal digits), the callback of
    [decodeEncodedWords] hands exactly those bytes to [toString] under the
    declared charset, for any encoding letter other than B or b. *)
Theorem decodeWord_qEncode (charset : list N) (encoding : N)
    (bytes : list N) :
  Forall isByte bytes ->
  toUpperCase rt [encoding] <> js "B" ->
  toLowerCase rt charset <> [] ->
  Eml.decodeWord rt charset encoding (qEncode bytes)
  = bufferToString rt (charsetName rt charset) bytes.
Proof.
  intros Hbytes Hq Hcs.
  rewrite (decodeWord_wordBytes rt charset encoding _ Hcs).
  unfold wordBytes. rewrite (bool_decide_eq_false_2 _ Hq).
  rewrite (qText_qEncode bytes Hbytes), (low_bytes bytes Hbytes).
  reflexivity.
Qed.

End EncodedWordFacts.

Lemma decodeEncodedWords_plain_witness :
  Eml.decodeEncodedWords Node.runtime (js "Re: 1 = 2 ?") = js "Re: 1 = 2 ?".
Proof. apply decodeEncodedWords_plain. vm_compute. reflexivity. Defined.

Lemma decodeWord_qEncode_witness :
  Eml.decodeWord Node.runtime (js "ISO-8859-1") 81
    (qEncode [104; 233; 32; 63; 61; 95]%N)
  = bufferToString Node.runtime (charsetName Node.runtime (js "ISO-8859-1"))
      [104; 233; 32; 63; 61; 95]%N.
Proof.
  apply decodeWord_qEncode.
  - each (unfold isByte; lia).
  - vm_compute. discriminate.
  - vm_compute. discriminate.
Defined.
